(** * BiCGStab(L): a shallow embedding of [sap::bicgstabl]

    The solver of [sap/bicgstab2.h] is a template over the scalar type, the
    vector type, the operator, the preconditioner and the monitor.  The
    embedding follows it: the scalar operations, the cusp/thrust kernels and
    the monitor are interfaces (type classes); the body of [bicgstabl] is
    written once, statement by statement, in a small state-and-exception
    monad over its local variables and the monitor object.  A concrete
    instance over IEEE binary64 numbers and dense matrices is used to run
    the engine on explicit inputs. *)

From Stdlib Require Import ZArith String List Bool.
From Stdlib Require Import PrimFloat.
From stdpp Require Import list.

Set Warnings "-inexact-float".
Local Open Scope nat_scope.

(** ** Outcomes and control *)

(** A run of a piece of the engine either completes, or is cut short by an
    exception thrown inside a collaborator (a kernel, the monitor), or (for
    the model of [while(true)]) has used up the iteration budget it was
    given. *)
Inductive outcome (E A : Type) : Type :=
| Ok (a : A)
| Raise (e : E)
| Fuel.
Arguments Ok {E A} a.
Arguments Raise {E A} e.
Arguments Fuel {E A}.

(** What a loop body tells its loop: go on, or [break]. *)
Inductive ctl : Type := Next | Brk.

(** ** The interfaces the template is instantiated with *)

(** [Vector::value_type] with the operations the engine applies to it. *)
Class Scalar (V : Type) : Type := {
  s_zero : V;                 (* ValueType(0), and the 0 of [== 0] *)
  s_one : V;                  (* ValueType(1) *)
  s_eps : V;                  (* const ValueType eps = 1e-20 *)
  s_neg : V -> V;             (* unary minus *)
  s_fabs : V -> V;            (* std::fabs *)
  s_add : V -> V -> V;
  s_sub : V -> V -> V;
  s_mul : V -> V -> V;
  s_div : V -> V -> V;
  s_eqb : V -> V -> bool;     (* == *)
  s_ltb : V -> V -> bool      (* < *)
}.

(** The cusp and thrust kernels, the operator and the preconditioner.  Any
    of the calls may throw; a kernel that writes its result into an output
    argument returns the new contents of that argument. *)
Class Kernels (E V Vec LinOp Precond : Type) : Type := {
  size : Vec -> nat;                                  (* b.size() *)
  zeros : nat -> Vec;                                 (* array1d(n, 0) *)
  allocate : nat -> outcome E unit;                   (* the storage of an array of n
                                                         entries: array1d(n), array1d(n, 0),
                                                         resize(n, 0), std::vector(n) *)
  multiply_A : LinOp -> Vec -> outcome E Vec;         (* cusp::multiply(A, v, out) *)
  multiply_P : Precond -> Vec -> outcome E Vec;       (* cusp::multiply(P, v, out) *)
  axpby : Vec -> Vec -> V -> V -> outcome E Vec;      (* out = a*v + c*w *)
  axpy : Vec -> Vec -> V -> outcome E Vec;            (* w += a*v, the new w *)
  dotc : Vec -> Vec -> outcome E V;
  nrm2 : Vec -> outcome E V;
  copy : Vec -> Vec -> outcome E Vec;                 (* copy(src, dst), the new dst *)
  zip_copy : Vec -> Vec -> Vec -> outcome E (Vec * Vec * Vec)
                                                      (* thrust::copy over a zip of three *)
}.

(** Kernels that never throw, as total functions. *)
Class PureKernels (V Vec LinOp Precond : Type) : Type := {
  p_size : Vec -> nat;
  p_zeros : nat -> Vec;
  apply_A : LinOp -> Vec -> Vec;
  apply_P : Precond -> Vec -> Vec;
  p_axpby : Vec -> Vec -> V -> V -> Vec;
  p_axpy : Vec -> Vec -> V -> Vec;
  p_dotc : Vec -> Vec -> V;
  p_nrm2 : Vec -> V
}.

(** Total kernels seen through the throwing interface; a copy that does not
    throw leaves the source in the destination, and storage is always
    there. *)
Definition lift_kernels (E : Type) {V Vec LinOp Precond : Type}
    (K : PureKernels V Vec LinOp Precond) : Kernels E V Vec LinOp Precond :=
  {| size := p_size;
     zeros := p_zeros;
     allocate := fun _ => Ok tt;
     multiply_A := fun A v => Ok (apply_A A v);
     multiply_P := fun P v => Ok (apply_P P v);
     axpby := fun v w a c => Ok (p_axpby v w a c);
     axpy := fun v w a => Ok (p_axpy v w a);
     dotc := fun v w => Ok (p_dotc v w);
     nrm2 := fun v => Ok (p_nrm2 v);
     copy := fun src _ => Ok src;
     zip_copy := fun a b c => Ok (a, b, c) |}.

(** Collaborators that cannot throw: total kernels, and no exception to
    throw. *)
Definition no_throw {V Vec LinOp Precond : Type} (K : PureKernels V Vec LinOp Precond)
    : Kernels Empty_set V Vec LinOp Precond :=
  lift_kernels Empty_set K.

(** The monitor, as the engine calls it (section 4.2 of the
    specification).  [Monitor] is a template parameter and no call of one
    of its methods is inside a [try]: every method acts on the monitor
    object, the queries also return their answer, and any of them may
    throw. *)
Class MonitorCalls (E V M : Type) : Type := {
  monitor_increment : float -> M -> outcome E M;
  monitor_needCheckConvergence : V -> M -> outcome E (bool * M);
  monitor_finished_norm : V -> M -> outcome E (bool * M);   (* finished(r_norm_act) *)
  monitor_finished : M -> outcome E (bool * M);             (* finished() *)
  monitor_stop : Z -> string -> M -> outcome E M;
  monitor_incrementStag : M -> outcome E M;
  monitor_resetStag : M -> outcome E M;
  monitor_converged : M -> outcome E (bool * M);
  monitor_updateResidual : V -> M -> outcome E M
}.

(** A monitor whose methods do not throw, as total functions. *)
Class Monitor (V M : Type) : Type := {
  increment : float -> M -> M;
  needCheckConvergence : V -> M -> bool * M;
  finished_norm : V -> M -> bool * M;      (* finished(r_norm_act) *)
  finished : M -> bool * M;                (* finished() *)
  stop : Z -> string -> M -> M;
  incrementStag : M -> M;
  resetStag : M -> M;
  converged : M -> bool * M;
  updateResidual : V -> M -> M
}.

(** Such a monitor seen through the throwing interface. *)
Definition total_calls {E V M : Type} (Mon : Monitor V M) : MonitorCalls E V M :=
  {| monitor_increment := fun w m => Ok (increment w m);
     monitor_needCheckConvergence := fun rn m => Ok (needCheckConvergence rn m);
     monitor_finished_norm := fun rn m => Ok (finished_norm rn m);
     monitor_finished := fun m => Ok (finished m);
     monitor_stop := fun c msg m => Ok (stop c msg m);
     monitor_incrementStag := fun m => Ok (incrementStag m);
     monitor_resetStag := fun m => Ok (resetStag m);
     monitor_converged := fun m => Ok (converged m);
     monitor_updateResidual := fun rn m => Ok (updateResidual rn m) |}.
#[global] Existing Instance total_calls.
#[warning="-uniform-inheritance"] Coercion total_calls : Monitor >-> MonitorCalls.

(** The calls a monitor receives, with the answers it gave. *)
Inductive event (V : Type) : Type :=
| EIncrement (w : float)
| ENeedCheck (rn : V) (answer : bool)
| EFinishedNorm (rn : V) (answer : bool)
| EFinished (answer : bool)
| EStop (code : Z) (msg : string)
| EIncrementStag
| EResetStag
| EConverged (answer : bool)
| EUpdateResidual (rn : V).
Arguments EIncrement {V} w.
Arguments ENeedCheck {V} rn answer.
Arguments EFinishedNorm {V} rn answer.
Arguments EFinished {V} answer.
Arguments EStop {V} code msg.
Arguments EIncrementStag {V}.
Arguments EResetStag {V}.
Arguments EConverged {V} answer.
Arguments EUpdateResidual {V} rn.

(** A monitor together with the record of the calls made on it. *)
Definition logged {V M : Type} (Mon : Monitor V M) : Monitor V (M * list (event V)) :=
  {| increment := fun w m => (increment w (fst m), snd m ++ [EIncrement w]);
     needCheckConvergence := fun rn m =>
       (fst (needCheckConvergence rn (fst m)),
        (snd (needCheckConvergence rn (fst m)),
         snd m ++ [ENeedCheck rn (fst (needCheckConvergence rn (fst m)))]));
     finished_norm := fun rn m =>
       (fst (finished_norm rn (fst m)),
        (snd (finished_norm rn (fst m)),
         snd m ++ [EFinishedNorm rn (fst (finished_norm rn (fst m)))]));
     finished := fun m =>
       (fst (finished (fst m)),
        (snd (finished (fst m)), snd m ++ [EFinished (fst (finished (fst m)))]));
     stop := fun c msg m => (stop c msg (fst m), snd m ++ [EStop c msg]);
     incrementStag := fun m => (incrementStag (fst m), snd m ++ [EIncrementStag]);
     resetStag := fun m => (resetStag (fst m), snd m ++ [EResetStag]);
     converged := fun m =>
       (fst (converged (fst m)),
        (snd (converged (fst m)), snd m ++ [EConverged (fst (converged (fst m)))]));
     updateResidual := fun rn m => (updateResidual rn (fst m), snd m ++ [EUpdateResidual rn]) |}.

(** ** The local variables of [bicgstabl] *)

Section Locals.
Context {V Vec : Type}.

(** [x] is the in/out argument; the others are the locals declared at lines
    46-89.  [rr] and [uu] have [L+1] entries, [tao] is [(L+1) x (L+1)], the
    four coefficient arrays have [L+2] entries. *)
Record locals : Type := Locals {
  x : Vec;
  rho0 : V;
  alpha : V;
  omega : V;
  rho1 : V;
  r0 : Vec;
  r : Vec;
  u : Vec;
  xx : Vec;
  Pv : Vec;
  rr : list Vec;
  uu : list Vec;
  tao : list (list V);
  gamma : list V;
  gamma_prime : list V;
  gamma_primeprime : list V;
  sigma : list V;
  r_norm_min : V;
  r_norm : V;
  r_norm_act : V;
  x_min : Vec
}.

Definition set_x (v : Vec) (s : locals) : locals :=
  {| x := v; rho0 := rho0 s; alpha := alpha s; omega := omega s;
     rho1 := rho1 s; r0 := r0 s; r := r s; u := u s; xx := xx s; Pv := Pv s;
     rr := rr s; uu := uu s; tao := tao s; gamma := gamma s;
     gamma_prime := gamma_prime s; gamma_primeprime := gamma_primeprime s;
     sigma := sigma s; r_norm_min := r_norm_min s; r_norm := r_norm s;
     r_norm_act := r_norm_act s; x_min := x_min s  |}.
Definition set_rho0 (v : V) (s : locals) : locals :=
  {| x := x s; rho0 := v; alpha := alpha s; omega := omega s; rho1 := rho1 s;
     r0 := r0 s; r := r s; u := u s; xx := xx s; Pv := Pv s; rr := rr s;
     uu := uu s; tao := tao s; gamma := gamma s; gamma_prime := gamma_prime s;
     gamma_primeprime := gamma_primeprime s; sigma := sigma s;
     r_norm_min := r_norm_min s; r_norm := r_norm s;
     r_norm_act := r_norm_act s; x_min := x_min s  |}.
Definition set_alpha (v : V) (s : locals) : locals :=
  {| x := x s; rho0 := rho0 s; alpha := v; omega := omega s; rho1 := rho1 s;
     r0 := r0 s; r := r s; u := u s; xx := xx s; Pv := Pv s; rr := rr s;
     uu := uu s; tao := tao s; gamma := gamma s; gamma_prime := gamma_prime s;
     gamma_primeprime := gamma_primeprime s; sigma := sigma s;
     r_norm_min := r_norm_min s; r_norm := r_norm s;
     r_norm_act := r_norm_act s; x_min := x_min s  |}.
Definition set_omega (v : V) (s : locals) : locals :=
  {| x := x s; rho0 := rho0 s; alpha := alpha s; omega := v; rho1 := rho1 s;
     r0 := r0 s; r := r s; u := u s; xx := xx s; Pv := Pv s; rr := rr s;
     uu := uu s; tao := tao s; gamma := gamma s; gamma_prime := gamma_prime s;
     gamma_primeprime := gamma_primeprime s; sigma := sigma s;
     r_norm_min := r_norm_min s; r_norm := r_norm s;
     r_norm_act := r_norm_act s; x_min := x_min s  |}.
Definition set_rho1 (v : V) (s : locals) : locals :=
  {| x := x s; rho0 := rho0 s; alpha := alpha s; omega := omega s; rho1 := v;
     r0 := r0 s; r := r s; u := u s; xx := xx s; Pv := Pv s; rr := rr s;
     uu := uu s; tao := tao s; gamma := gamma s; gamma_prime := gamma_prime s;
     gamma_primeprime := gamma_primeprime s; sigma := sigma s;
     r_norm_min := r_norm_min s; r_norm := r_norm s;
     r_norm_act := r_norm_act s; x_min := x_min s  |}.
Definition set_r0 (v : Vec) (s : locals) : locals :=
  {| x := x s; rho0 := rho0 s; alpha := alpha s; omega := omega s;
     rho1 := rho1 s; r0 := v; r := r s; u := u s; xx := xx s; Pv := Pv s;
     rr := rr s; uu := uu s; tao := tao s; gamma := gamma s;
     gamma_prime := gamma_prime s; gamma_primeprime := gamma_primeprime s;
     sigma := sigma s; r_norm_min := r_norm_min s; r_norm := r_norm s;
     r_norm_act := r_norm_act s; x_min := x_min s  |}.
Definition set_r (v : Vec) (s : locals) : locals :=
  {| x := x s; rho0 := rho0 s; alpha := alpha s; omega := omega s;
     rho1 := rho1 s; r0 := r0 s; r := v; u := u s; xx := xx s; Pv := Pv s;
     rr := rr s; uu := uu s; tao := tao s; gamma := gamma s;
     gamma_prime := gamma_prime s; gamma_primeprime := gamma_primeprime s;
     sigma := sigma s; r_norm_min := r_norm_min s; r_norm := r_norm s;
     r_norm_act := r_norm_act s; x_min := x_min s  |}.
Definition set_u (v : Vec) (s : locals) : locals :=
  {| x := x s; rho0 := rho0 s; alpha := alpha s; omega := omega s;
     rho1 := rho1 s; r0 := r0 s; r := r s; u := v; xx := xx s; Pv := Pv s;
     rr := rr s; uu := uu s; tao := tao s; gamma := gamma s;
     gamma_prime := gamma_prime s; gamma_primeprime := gamma_primeprime s;
     sigma := sigma s; r_norm_min := r_norm_min s; r_norm := r_norm s;
     r_norm_act := r_norm_act s; x_min := x_min s  |}.
Definition set_xx (v : Vec) (s : locals) : locals :=
  {| x := x s; rho0 := rho0 s; alpha := alpha s; omega := omega s;
     rho1 := rho1 s; r0 := r0 s; r := r s; u := u s; xx := v; Pv := Pv s;
     rr := rr s; uu := uu s; tao := tao s; gamma := gamma s;
     gamma_prime := gamma_prime s; gamma_primeprime := gamma_primeprime s;
     sigma := sigma s; r_norm_min := r_norm_min s; r_norm := r_norm s;
     r_norm_act := r_norm_act s; x_min := x_min s  |}.
Definition set_Pv (v : Vec) (s : locals) : locals :=
  {| x := x s; rho0 := rho0 s; alpha := alpha s; omega := omega s;
     rho1 := rho1 s; r0 := r0 s; r := r s; u := u s; xx := xx s; Pv := v;
     rr := rr s; uu := uu s; tao := tao s; gamma := gamma s;
     gamma_prime := gamma_prime s; gamma_primeprime := gamma_primeprime s;
     sigma := sigma s; r_norm_min := r_norm_min s; r_norm := r_norm s;
     r_norm_act := r_norm_act s; x_min := x_min s  |}.
Definition set_rr (v : list Vec) (s : locals) : locals :=
  {| x := x s; rho0 := rho0 s; alpha := alpha s; omega := omega s;
     rho1 := rho1 s; r0 := r0 s; r := r s; u := u s; xx := xx s; Pv := Pv s;
     rr := v; uu := uu s; tao := tao s; gamma := gamma s;
     gamma_prime := gamma_prime s; gamma_primeprime := gamma_primeprime s;
     sigma := sigma s; r_norm_min := r_norm_min s; r_norm := r_norm s;
     r_norm_act := r_norm_act s; x_min := x_min s  |}.
Definition set_uu (v : list Vec) (s : locals) : locals :=
  {| x := x s; rho0 := rho0 s; alpha := alpha s; omega := omega s;
     rho1 := rho1 s; r0 := r0 s; r := r s; u := u s; xx := xx s; Pv := Pv s;
     rr := rr s; uu := v; tao := tao s; gamma := gamma s;
     gamma_prime := gamma_prime s; gamma_primeprime := gamma_primeprime s;
     sigma := sigma s; r_norm_min := r_norm_min s; r_norm := r_norm s;
     r_norm_act := r_norm_act s; x_min := x_min s  |}.
Definition set_tao (v : list (list V)) (s : locals) : locals :=
  {| x := x s; rho0 := rho0 s; alpha := alpha s; omega := omega s;
     rho1 := rho1 s; r0 := r0 s; r := r s; u := u s; xx := xx s; Pv := Pv s;
     rr := rr s; uu := uu s; tao := v; gamma := gamma s;
     gamma_prime := gamma_prime s; gamma_primeprime := gamma_primeprime s;
     sigma := sigma s; r_norm_min := r_norm_min s; r_norm := r_norm s;
     r_norm_act := r_norm_act s; x_min := x_min s  |}.
Definition set_gamma (v : list V) (s : locals) : locals :=
  {| x := x s; rho0 := rho0 s; alpha := alpha s; omega := omega s;
     rho1 := rho1 s; r0 := r0 s; r := r s; u := u s; xx := xx s; Pv := Pv s;
     rr := rr s; uu := uu s; tao := tao s; gamma := v;
     gamma_prime := gamma_prime s; gamma_primeprime := gamma_primeprime s;
     sigma := sigma s; r_norm_min := r_norm_min s; r_norm := r_norm s;
     r_norm_act := r_norm_act s; x_min := x_min s  |}.
Definition set_gamma_prime (v : list V) (s : locals) : locals :=
  {| x := x s; rho0 := rho0 s; alpha := alpha s; omega := omega s;
     rho1 := rho1 s; r0 := r0 s; r := r s; u := u s; xx := xx s; Pv := Pv s;
     rr := rr s; uu := uu s; tao := tao s; gamma := gamma s; gamma_prime := v;
     gamma_primeprime := gamma_primeprime s; sigma := sigma s;
     r_norm_min := r_norm_min s; r_norm := r_norm s;
     r_norm_act := r_norm_act s; x_min := x_min s  |}.
Definition set_gamma_primeprime (v : list V) (s : locals) : locals :=
  {| x := x s; rho0 := rho0 s; alpha := alpha s; omega := omega s;
     rho1 := rho1 s; r0 := r0 s; r := r s; u := u s; xx := xx s; Pv := Pv s;
     rr := rr s; uu := uu s; tao := tao s; gamma := gamma s;
     gamma_prime := gamma_prime s; gamma_primeprime := v; sigma := sigma s;
     r_norm_min := r_norm_min s; r_norm := r_norm s;
     r_norm_act := r_norm_act s; x_min := x_min s  |}.
Definition set_sigma (v : list V) (s : locals) : locals :=
  {| x := x s; rho0 := rho0 s; alpha := alpha s; omega := omega s;
     rho1 := rho1 s; r0 := r0 s; r := r s; u := u s; xx := xx s; Pv := Pv s;
     rr := rr s; uu := uu s; tao := tao s; gamma := gamma s;
     gamma_prime := gamma_prime s; gamma_primeprime := gamma_primeprime s;
     sigma := v; r_norm_min := r_norm_min s; r_norm := r_norm s;
     r_norm_act := r_norm_act s; x_min := x_min s  |}.
Definition set_r_norm_min (v : V) (s : locals) : locals :=
  {| x := x s; rho0 := rho0 s; alpha := alpha s; omega := omega s;
     rho1 := rho1 s; r0 := r0 s; r := r s; u := u s; xx := xx s; Pv := Pv s;
     rr := rr s; uu := uu s; tao := tao s; gamma := gamma s;
     gamma_prime := gamma_prime s; gamma_primeprime := gamma_primeprime s;
     sigma := sigma s; r_norm_min := v; r_norm := r_norm s;
     r_norm_act := r_norm_act s; x_min := x_min s  |}.
Definition set_r_norm (v : V) (s : locals) : locals :=
  {| x := x s; rho0 := rho0 s; alpha := alpha s; omega := omega s;
     rho1 := rho1 s; r0 := r0 s; r := r s; u := u s; xx := xx s; Pv := Pv s;
     rr := rr s; uu := uu s; tao := tao s; gamma := gamma s;
     gamma_prime := gamma_prime s; gamma_primeprime := gamma_primeprime s;
     sigma := sigma s; r_norm_min := r_norm_min s; r_norm := v;
     r_norm_act := r_norm_act s; x_min := x_min s  |}.
Definition set_r_norm_act (v : V) (s : locals) : locals :=
  {| x := x s; rho0 := rho0 s; alpha := alpha s; omega := omega s;
     rho1 := rho1 s; r0 := r0 s; r := r s; u := u s; xx := xx s; Pv := Pv s;
     rr := rr s; uu := uu s; tao := tao s; gamma := gamma s;
     gamma_prime := gamma_prime s; gamma_primeprime := gamma_primeprime s;
     sigma := sigma s; r_norm_min := r_norm_min s; r_norm := r_norm s;
     r_norm_act := v; x_min := x_min s  |}.
Definition set_x_min (v : Vec) (s : locals) : locals :=
  {| x := x s; rho0 := rho0 s; alpha := alpha s; omega := omega s;
     rho1 := rho1 s; r0 := r0 s; r := r s; u := u s; xx := xx s; Pv := Pv s;
     rr := rr s; uu := uu s; tao := tao s; gamma := gamma s;
     gamma_prime := gamma_prime s; gamma_primeprime := gamma_primeprime s;
     sigma := sigma s; r_norm_min := r_norm_min s; r_norm := r_norm s;
     r_norm_act := r_norm_act s; x_min := v  |}.


End Locals.
Arguments locals : clear implicits.

(** ** The engine monad *)

Section Monad.
Context {E V Vec M : Type}.

(** A statement of the engine reads and writes the locals and the monitor,
    and may be cut short by a collaborator's exception. *)
Definition Eng (X : Type) : Type :=
  locals V Vec -> M -> outcome E (X * locals V Vec * M).

Definition ret {X : Type} (v : X) : Eng X := fun s m => Ok (v, s, m).

Definition bind {X Y : Type} (c : Eng X) (k : X -> Eng Y) : Eng Y :=
  fun s m =>
    match c s m with
    | Ok (v, s', m') => k v s' m'
    | Raise e => Raise e
    | Fuel => Fuel
    end.

(** Read the locals. *)
Definition gets {X : Type} (f : locals V Vec -> X) : Eng X :=
  fun s m => Ok (f s, s, m).

(** Assign to a local. *)
Definition assign (f : locals V Vec -> locals V Vec) : Eng unit :=
  fun s m => Ok (tt, f s, m).

(** Call a kernel on values read from the locals. *)
Definition exec {X : Type} (f : locals V Vec -> outcome E X) : Eng X :=
  fun s m =>
    match f s with
    | Ok v => Ok (v, s, m)
    | Raise e => Raise e
    | Fuel => Fuel
    end.

(** Call a [void] method of the monitor. *)
Definition call (f : M -> outcome E M) : Eng unit :=
  fun s m =>
    match f m with
    | Ok m' => Ok (tt, s, m')
    | Raise e => Raise e
    | Fuel => Fuel
    end.

(** Call a [bool] method of the monitor. *)
Definition query (f : M -> outcome E (bool * M)) : Eng bool :=
  fun s m =>
    match f m with
    | Ok a => Ok (fst a, s, snd a)
    | Raise e => Raise e
    | Fuel => Fuel
    end.

(** The two calls for a method that does not throw. *)
Definition tell (f : M -> M) : Eng unit := fun s m => Ok (tt, s, f m).

Definition ask (f : M -> bool * M) : Eng bool :=
  fun s m => Ok (fst (f m), s, snd (f m)).

End Monad.

Declare Scope eng_scope.
Delimit Scope eng_scope with eng.
Notation "v <- c ;; k" := (bind c (fun v => k))
  (at level 100, c at next level, right associativity) : eng_scope.
Notation "c ;; k" := (bind c (fun _ => k))
  (at level 100, right associativity) : eng_scope.
Local Open Scope eng_scope.

Section Loops.
Context {E V Vec M : Type}.
Local Abbreviation Eng := (@Eng E V Vec M).

(** [for (i = lo; i < lo + n; i++) body(i)], a body without [break]. *)
Fixpoint for_up (n lo : nat) (body : nat -> Eng unit) : Eng unit :=
  match n with
  | 0 => ret tt
  | S n' => body lo ;; for_up n' (S lo) body
  end.

(** [for (j = n; j > 0; j--) body(j)]. *)
Fixpoint for_down (n : nat) (body : nat -> Eng unit) : Eng unit :=
  match n with
  | 0 => ret tt
  | S n' => body n ;; for_down n' body
  end.

(** [for (j = lo; j < lo + n; j++) body(j)] where the body may [break]. *)
Fixpoint for_brk (n lo : nat) (body : nat -> Eng ctl) : Eng unit :=
  match n with
  | 0 => ret tt
  | S n' =>
      c <- body lo ;;
      match c with
      | Brk => ret tt
      | Next => for_brk n' (S lo) body
      end
  end.

(** [while (true) body], cut after [fuel] passes. *)
Fixpoint while_true (fuel : nat) (body : Eng ctl) : Eng unit :=
  match fuel with
  | 0 => fun _ _ => Fuel
  | S fuel' =>
      c <- body ;;
      match c with
      | Brk => ret tt
      | Next => while_true fuel' body
      end
  end.

End Loops.

(** ** The body of [bicgstabl] *)

Section Engine.
Context {E V Vec LinOp Precond M : Type}.
Context {SC : Scalar V} {K : Kernels E V Vec LinOp Precond} {Mon : MonitorCalls E V M}.
Local Abbreviation Eng := (@Eng E V Vec M).

(** Array reads.  Every index the engine uses is within the array; outside
    the list the reads give a zero and the writes ([<[i:=v]>]) do nothing. *)
Definition vec_at (l : list Vec) (i : nat) : Vec := default (zeros 0) (l !! i).
Definition val_at (l : list V) (i : nat) : V := default s_zero (l !! i).
Definition tao_at (t : list (list V)) (i j : nat) : V :=
  val_at (default [] (t !! i)) j.
Definition tao_set (i j : nat) (v : V) (t : list (list V)) : list (list V) :=
  <[i := <[j := v]> (default [] (t !! i))]> t.

(** The template parameter [L] and the arguments [A], [b], [P]. *)
Variable L : nat.
Variable A : LinOp.
Variable b : Vec.
Variable P : Precond.

(** Lines 42-69: the locals as declared.  [rho1], the coefficient arrays and
    the norms are declared without a value; they are written before they are
    read, and start at zero here. *)
Definition initial_locals (x0 : Vec) : locals V Vec :=
  let n := size b in
  {| x := x0;
     rho0 := s_one; alpha := s_zero; omega := s_one; rho1 := s_zero;
     r0 := zeros n; r := zeros n; u := zeros n; xx := zeros n; Pv := zeros n;
     rr := replicate (S L) (zeros n);
     uu := replicate (S L) (zeros n);
     tao := replicate (S L) (replicate (S L) s_zero);
     gamma := replicate (S (S L)) s_zero;
     gamma_prime := replicate (S (S L)) s_zero;
     gamma_primeprime := replicate (S (S L)) s_zero;
     sigma := replicate (S (S L)) s_zero;
     r_norm_min := s_zero; r_norm := s_zero; r_norm_act := s_zero;
     x_min := zeros n |}.

(** Lines 51-62: the storage of the work vectors.  Their contents are in
    [initial_locals]; here each construction is a call that may throw. *)
Definition declare : Eng unit :=
  exec (fun _ => allocate (size b)) ;;       (* r0(n) *)
  exec (fun _ => allocate (size b)) ;;       (* r(n) *)
  exec (fun _ => allocate (size b)) ;;       (* u(n, 0) *)
  exec (fun _ => allocate (size b)) ;;       (* xx(n) *)
  exec (fun _ => allocate (size b)) ;;       (* Pv(n) *)
  exec (fun _ => allocate (S L)) ;;          (* rr(L+1) *)
  exec (fun _ => allocate (S L)) ;;          (* uu(L+1) *)
  for_up (S L) 0 (fun _ =>
    exec (fun _ => allocate (size b)) ;;     (* rr[k].resize(n, 0) *)
    exec (fun _ => allocate (size b))).      (* uu[k].resize(n, 0) *)

(** Lines 71-89. *)
Definition init : Eng unit :=
  v <- exec (fun s => multiply_A A (x s)) ;;
  assign (set_r0 v) ;;
  v <- exec (fun s => axpby b (r0 s) s_one (s_neg s_one)) ;;
  assign (set_r0 v) ;;
  v <- exec (fun s => copy (r0 s) (r s)) ;;
  assign (set_r v) ;;
  t <- exec (fun s => zip_copy (u s) (x s) (r s)) ;;
  assign (fun s => set_uu (<[0 := fst (fst t)]> (uu s)) s) ;;
  assign (set_xx (snd (fst t))) ;;
  assign (fun s => set_rr (<[0 := snd t]> (rr s)) s) ;;
  v <- exec (fun s => nrm2 (r s)) ;;
  assign (set_r_norm_min v) ;;
  assign (fun s => set_r_norm (r_norm_min s) s) ;;
  assign (fun s => set_r_norm_act (r_norm s) s) ;;
  exec (fun _ => allocate (size b)) ;;       (* x_min(n, 0) *)
  assign (set_x_min (zeros (size b))).

(** *** The BiCG sub-phase, lines 97-174 *)

(** Lines 139-143. *)
Definition stagnation_bicg : Eng unit :=
  nu <- exec (fun s => nrm2 (vec_at (uu s) 0)) ;;
  nx <- exec (fun s => nrm2 (xx s)) ;;
  a <- gets alpha ;;
  if s_ltb (s_mul (s_fabs a) nu) (s_mul s_eps nx)
  then call monitor_incrementStag
  else call monitor_resetStag.

(** Lines 148-163. *)
Definition checkpoint_bicg : Eng ctl :=
  rn <- gets r_norm ;;
  need <- query (monitor_needCheckConvergence rn) ;;
  if need then
    exec (fun _ => allocate (size b)) ;;     (* Pxx(n) *)
    exec (fun _ => allocate (size b)) ;;     (* APxx(n) *)
    Pxx <- exec (fun s => multiply_P P (xx s)) ;;
    APxx <- exec (fun _ => multiply_A A Pxx) ;;
    v <- exec (fun _ => axpby b APxx s_one (s_neg s_one)) ;;
    assign (fun s => set_rr (<[0 := v]> (rr s)) s) ;;
    na <- exec (fun s => nrm2 (vec_at (rr s) 0)) ;;
    assign (set_r_norm_act na) ;;
    fin <- query (monitor_finished_norm na) ;;
    if fin then ret Brk else ret Next
  else ret Next.

(** Lines 165-169. *)
Definition update_min_bicg : Eng unit :=
  better <- gets (fun s => s_ltb (r_norm_act s) (r_norm_min s)) ;;
  if better then
    assign (fun s => set_r_norm_min (r_norm_act s) s) ;;
    v <- exec (fun s => copy (xx s) (x_min s)) ;;
    assign (set_x_min v)
  else ret tt.

(** Lines 106-119: from [beta] to the inner product [gamma]. *)
Definition bicg_direction (j : nat) : Eng V :=
  beta <- gets (fun s => s_div (s_mul (alpha s) (rho1 s)) (rho0 s)) ;;
  assign (fun s => set_rho0 (rho1 s) s) ;;
  for_up (S j) 0 (fun i =>
    v <- exec (fun s => axpby (vec_at (rr s) i) (vec_at (uu s) i) s_one (s_neg beta)) ;;
    assign (fun s => set_uu (<[i := v]> (uu s)) s)) ;;
  v <- exec (fun s => multiply_P P (vec_at (uu s) j)) ;;
  assign (set_Pv v) ;;
  v <- exec (fun s => multiply_A A (Pv s)) ;;
  assign (fun s => set_uu (<[S j := v]> (uu s)) s) ;;
  exec (fun s => dotc (vec_at (uu s) (S j)) (r0 s)).

(** Lines 148-173: the checkpoint, the update of the best iterate, the
    test that ends the step. *)
Definition bicg_site : Eng ctl :=
  c <- checkpoint_bicg ;;
  match c with
  | Brk => ret Brk
  | Next =>
      update_min_bicg ;;
      fin <- query monitor_finished ;;
      if fin then ret Brk else ret Next
  end.

(** Lines 126-173: the step once [gamma] is known to be nonzero. *)
Definition bicg_advance (j : nat) (gamma_j : V) : Eng ctl :=
  assign (fun s => set_alpha (s_div (rho0 s) gamma_j) s) ;;
  for_up (S j) 0 (fun i =>
    v <- exec (fun s => axpy (vec_at (uu s) (S i)) (vec_at (rr s) i) (s_neg (alpha s))) ;;
    assign (fun s => set_rr (<[i := v]> (rr s)) s)) ;;
  v <- exec (fun s => nrm2 (vec_at (rr s) 0)) ;;
  assign (set_r_norm v) ;;
  assign (fun s => set_r_norm_act (r_norm s) s) ;;
  v <- exec (fun s => multiply_P P (vec_at (rr s) j)) ;;
  assign (set_Pv v) ;;
  v <- exec (fun s => multiply_A A (Pv s)) ;;
  assign (fun s => set_rr (<[S j := v]> (rr s)) s) ;;
  stagnation_bicg ;;
  v <- exec (fun s => axpy (vec_at (uu s) 0) (xx s) (alpha s)) ;;
  assign (set_xx v) ;;
  bicg_site.

(** The body of the loop at line 97. *)
Definition bicg_step (j : nat) : Eng ctl :=
  v <- exec (fun s => dotc (vec_at (rr s) j) (r0 s)) ;;
  assign (set_rho1 v) ;;
  zero_rho <- gets (fun s => s_eqb (rho0 s) s_zero) ;;
  if zero_rho then
    call (monitor_stop (-10)%Z "rho0 is zero"%string) ;;
    ret Brk
  else
    gamma_j <- bicg_direction j ;;
    if s_eqb gamma_j s_zero then
      call (monitor_stop (-11)%Z "gamma is zero"%string) ;;
      ret Brk
    else bicg_advance j gamma_j.

(** *** The minimal-residual sub-phase, lines 181-300 *)

(** Lines 182-186: orthogonalise [rr[j]] against [rr[1..j-1]] and take the
    pivot [sigma[j]]. *)
Definition mr_pivot (j : nat) : Eng unit :=
  for_up (j - 1) 1 (fun i =>
    d <- exec (fun s => dotc (vec_at (rr s) j) (vec_at (rr s) i)) ;;
    assign (fun s => set_tao (tao_set i j (s_div d (val_at (sigma s) i)) (tao s)) s) ;;
    v <- exec (fun s => axpy (vec_at (rr s) i) (vec_at (rr s) j) (s_neg (tao_at (tao s) i j))) ;;
    assign (fun s => set_rr (<[j := v]> (rr s)) s)) ;;
  d <- exec (fun s => dotc (vec_at (rr s) j) (vec_at (rr s) j)) ;;
  assign (fun s => set_sigma (<[j := d]> (sigma s)) s).

(** The body of the loop at line 181; a zero pivot stops the solver. *)
Definition mr_orth (j : nat) : Eng ctl :=
  mr_pivot j ;;
  zero_sigma <- gets (fun s => s_eqb (val_at (sigma s) j) s_zero) ;;
  if zero_sigma then
    call (monitor_stop (-12)%Z "a sigma value is zero"%string) ;;
    ret Brk
  else
    d <- exec (fun s => dotc (vec_at (rr s) j) (vec_at (rr s) 0)) ;;
    assign (fun s => set_gamma_prime (<[j := s_div d (val_at (sigma s) j)]> (gamma_prime s)) s) ;;
    ret Next.

(** Lines 197-210: [gamma], [omega] and [gamma''] by substitution. *)
Definition mr_coefficients : Eng unit :=
  assign (fun s => set_gamma (<[L := val_at (gamma_prime s) L]> (gamma s)) s) ;;
  assign (fun s => set_omega (val_at (gamma s) L) s) ;;
  for_down (L - 1) (fun j =>
    assign (fun s => set_gamma (<[j := val_at (gamma_prime s) j]> (gamma s)) s) ;;
    for_up (L - j) (S j) (fun i =>
      assign (fun s =>
        set_gamma (<[j := s_sub (val_at (gamma s) j)
                                (s_mul (tao_at (tao s) j i) (val_at (gamma s) i))]> (gamma s)) s))) ;;
  for_up (L - 1) 1 (fun j =>
    assign (fun s => set_gamma_primeprime (<[j := val_at (gamma s) (S j)]> (gamma_primeprime s)) s) ;;
    for_up (L - S j) (S j) (fun i =>
      assign (fun s =>
        set_gamma_primeprime
          (<[j := s_add (val_at (gamma_primeprime s) j)
                        (s_mul (tao_at (tao s) j i) (val_at (gamma s) (S i)))]>
             (gamma_primeprime s)) s))).

(** Lines 212-216. *)
Definition stagnation_mr : Eng unit :=
  nr <- exec (fun s => nrm2 (vec_at (rr s) 0)) ;;
  nx <- exec (fun s => nrm2 (xx s)) ;;
  g <- gets (fun s => val_at (gamma s) 1) ;;
  if s_ltb (s_mul (s_fabs g) nr) (s_mul s_eps nx)
  then call monitor_incrementStag
  else call monitor_resetStag.

(** Lines 229-244. *)
Definition checkpoint_mr : Eng ctl :=
  rn <- gets r_norm ;;
  need <- query (monitor_needCheckConvergence rn) ;;
  if need then
    exec (fun _ => allocate (size b)) ;;     (* Pxx(n) *)
    exec (fun _ => allocate (size b)) ;;     (* APxx(n) *)
    Pxx <- exec (fun s => multiply_P P (xx s)) ;;
    APxx <- exec (fun _ => multiply_A A Pxx) ;;
    v <- exec (fun _ => axpby b APxx s_one (s_neg s_one)) ;;
    assign (fun s => set_rr (<[0 := v]> (rr s)) s) ;;
    na <- exec (fun s => nrm2 (vec_at (rr s) 0)) ;;
    assign (set_r_norm_act na) ;;
    fin <- query (monitor_finished_norm na) ;;
    if fin then ret Brk else ret Next
  else ret Next.

(** Lines 246-250. *)
Definition update_min_mr : Eng unit :=
  better <- gets (fun s => s_ltb (r_norm_act s) (r_norm_min s)) ;;
  if better then
    assign (fun s => set_r_norm_min (r_norm_act s) s) ;;
    v <- exec (fun s => copy (xx s) (x_min s)) ;;
    assign (set_x_min v)
  else ret tt.

(** Lines 264-268. *)
Definition stagnation_mr_inner (j : nat) : Eng unit :=
  nr <- exec (fun s => nrm2 (vec_at (rr s) j)) ;;
  nx <- exec (fun s => nrm2 (xx s)) ;;
  g <- gets (fun s => val_at (gamma_primeprime s) j) ;;
  if s_ltb (s_mul (s_fabs g) nr) (s_mul s_eps nx)
  then call monitor_incrementStag
  else call monitor_resetStag.

(** Lines 274-289. *)
Definition checkpoint_mr_inner : Eng ctl :=
  rn <- gets r_norm ;;
  need <- query (monitor_needCheckConvergence rn) ;;
  if need then
    exec (fun _ => allocate (size b)) ;;     (* Pxx(n) *)
    exec (fun _ => allocate (size b)) ;;     (* APxx(n) *)
    Pxx <- exec (fun s => multiply_P P (xx s)) ;;
    APxx <- exec (fun _ => multiply_A A Pxx) ;;
    v <- exec (fun _ => axpby b APxx s_one (s_neg s_one)) ;;
    assign (fun s => set_rr (<[0 := v]> (rr s)) s) ;;
    na <- exec (fun s => nrm2 (vec_at (rr s) 0)) ;;
    assign (set_r_norm_act na) ;;
    fin <- query (monitor_finished_norm na) ;;
    if fin then ret Brk else ret Next
  else ret Next.

(** Lines 291-295. *)
Definition update_min_mr_inner : Eng unit :=
  better <- gets (fun s => s_ltb (r_norm_act s) (r_norm_min s)) ;;
  if better then
    assign (fun s => set_r_norm_min (r_norm_act s) s) ;;
    v <- exec (fun s => copy (xx s) (x_min s)) ;;
    assign (set_x_min v)
  else ret tt.

(** Lines 274-299: the checkpoint, the update of the best iterate, the
    test that ends the step. *)
Definition mr_inner_site : Eng ctl :=
  c <- checkpoint_mr_inner ;;
  match c with
  | Brk => ret Brk
  | Next =>
      update_min_mr_inner ;;
      fin <- query monitor_finished ;;
      if fin then ret Brk else ret Next
  end.

(** The body of the loop at line 261. *)
Definition mr_update (j : nat) : Eng ctl :=
  v <- exec (fun s => axpy (vec_at (uu s) j) (vec_at (uu s) 0) (s_neg (val_at (gamma s) j))) ;;
  assign (fun s => set_uu (<[0 := v]> (uu s)) s) ;;
  stagnation_mr_inner j ;;
  v <- exec (fun s => axpy (vec_at (rr s) j) (xx s) (val_at (gamma_primeprime s) j)) ;;
  assign (set_xx v) ;;
  v <- exec (fun s => axpy (vec_at (rr s) j) (vec_at (rr s) 0) (s_neg (val_at (gamma_prime s) j))) ;;
  assign (fun s => set_rr (<[0 := v]> (rr s)) s) ;;
  v <- exec (fun s => nrm2 (vec_at (rr s) 0)) ;;
  assign (set_r_norm v) ;;
  assign (fun s => set_r_norm_act (r_norm s) s) ;;
  mr_inner_site.

(** *** One pass of the [while (true)] loop, lines 93-313

    The pass is written back to front, so that what remains of it from a
    given point on has a name. *)

(** Lines 302-313. *)
Definition pass_end : Eng ctl :=
  fin <- query monitor_finished ;;
  if fin then ret Brk
  else
    t <- exec (fun s => zip_copy (vec_at (uu s) 0) (xx s) (vec_at (rr s) 0)) ;;
    assign (set_u (fst (fst t))) ;;
    assign (set_x (snd (fst t))) ;;
    assign (set_r (snd t)) ;;
    call (monitor_increment 0.25%float) ;;
    ret Next.

(** Lines 229-300: the checkpoint, the update of the best iterate, the
    test, the loop at line 261; then [pass_end]. *)
Definition mr_site : Eng ctl :=
  c <- checkpoint_mr ;;
  match c with
  | Brk => ret Brk
  | Next =>
      update_min_mr ;;
      fin <- query monitor_finished ;;
      if fin then ret Brk
      else
        call (monitor_increment 0.25%float) ;;
        for_brk (L - 1) 1 mr_update ;;
        pass_end
  end.

(** Lines 212-227, then [mr_site]. *)
Definition pass_mix : Eng ctl :=
  stagnation_mr ;;
  v <- exec (fun s => axpy (vec_at (rr s) 0) (xx s) (val_at (gamma s) 1)) ;;
  assign (set_xx v) ;;
  v <- exec (fun s => axpy (vec_at (rr s) L) (vec_at (rr s) 0) (s_neg (val_at (gamma_prime s) L))) ;;
  assign (fun s => set_rr (<[0 := v]> (rr s)) s) ;;
  v <- exec (fun s => axpy (vec_at (uu s) L) (vec_at (uu s) 0) (s_neg (val_at (gamma s) L))) ;;
  assign (fun s => set_uu (<[0 := v]> (uu s)) s) ;;
  v <- exec (fun s => nrm2 (vec_at (rr s) 0)) ;;
  assign (set_r_norm v) ;;
  assign (fun s => set_r_norm_act (r_norm s) s) ;;
  call (monitor_increment 0.25%float) ;;
  mr_site.

(** The loop at line 181 with [n] indices left from [j] on, the test of
    line 193, then lines 197-313. *)
Definition pass_from_orth (n j : nat) : Eng ctl :=
  for_brk n j mr_orth ;;
  fin <- query monitor_finished ;;
  if fin then ret Brk
  else
    mr_coefficients ;;
    pass_mix.

(** The loop at line 97 with [n] indices left from [j] on, the test of
    line 176, then the minimal-residual sub-phase. *)
Definition pass_from_bicg (n j : nat) : Eng ctl :=
  for_brk n j bicg_step ;;
  fin <- query monitor_finished ;;
  if fin then ret Brk else pass_from_orth L 1.

(** Lines 93-95. *)
Definition pass_begin : Eng unit :=
  assign (fun s => set_rho0 (s_mul (s_neg (omega s)) (rho0 s)) s) ;;
  call (monitor_increment 0.25%float).

(** Lines 93-313. *)
Definition pass : Eng ctl :=
  pass_begin ;;
  pass_from_bicg L 0.

(** *** Finalization, lines 316-353 *)

Definition finalize : Eng unit :=
  conv <- query monitor_converged ;;
  if conv then
    v <- exec (fun s => multiply_P P (xx s)) ;;
    assign (set_x v)
  else
    exec (fun _ => allocate (size b)) ;;     (* Pxx(n) *)
    exec (fun _ => allocate (size b)) ;;     (* APxx(n) *)
    exec (fun _ => allocate (size b)) ;;     (* Pxmin(n) *)
    exec (fun _ => allocate (size b)) ;;     (* APxmin(n) *)
    exec (fun _ => allocate (size b)) ;;     (* r_comp(n) *)
    exec (fun _ => allocate (size b)) ;;     (* r_comp_min(n) *)
    Pxx <- exec (fun s => multiply_P P (xx s)) ;;
    APxx <- exec (fun _ => multiply_A A Pxx) ;;
    r_comp <- exec (fun _ => axpby b APxx s_one (s_neg s_one)) ;;
    Pxmin <- exec (fun s => multiply_P P (x_min s)) ;;
    APxmin <- exec (fun _ => multiply_A A Pxmin) ;;
    r_comp_min <- exec (fun _ => axpby b APxmin s_one (s_neg s_one)) ;;
    r_comp_norm <- exec (fun _ => nrm2 r_comp) ;;
    r_comp_min_norm <- exec (fun _ => nrm2 r_comp_min) ;;
    if s_ltb r_comp_norm r_comp_min_norm then
      v <- exec (fun s => copy Pxx (x s)) ;;
      assign (set_x v) ;;
      call (monitor_updateResidual r_comp_norm)
    else
      v <- exec (fun s => copy Pxmin (x s)) ;;
      assign (set_x v) ;;
      call (monitor_updateResidual r_comp_min_norm).

(** The whole body, on the locals. *)
Definition engine (fuel : nat) : Eng unit :=
  declare ;;
  init ;;
  while_true fuel pass ;;
  finalize.

End Engine.

(** ** The entry points *)

Section EntryPoints.
Context {E V Vec LinOp Precond M : Type}.
Context {SC : Scalar V} {K : Kernels E V Vec LinOp Precond} {Mon : MonitorCalls E V M}.

(** [bicgstabl<..., L>(A, x, b, monitor, P)]: what the call leaves in [x]
    and in the monitor.  [fuel] bounds the passes of the [while (true)]. *)
Definition bicgstabl (L fuel : nat) (A : LinOp) (x0 b : Vec) (monitor : M) (P : Precond)
    : outcome E (Vec * M) :=
  match engine L A b P fuel (initial_locals L b x0) monitor with
  | Ok (_, s, m) => Ok (x s, m)
  | Raise e => Raise e
  | Fuel => Fuel
  end.

(** Lines 357-365. *)
Definition bicgstab1 (fuel : nat) (A : LinOp) (x0 b : Vec) (monitor : M) (P : Precond)
    : outcome E (Vec * M) :=
  bicgstabl 1 fuel A x0 b monitor P.

(** Lines 368-376. *)
Definition bicgstab2 (fuel : nat) (A : LinOp) (x0 b : Vec) (monitor : M) (P : Precond)
    : outcome E (Vec * M) :=
  bicgstabl 2 fuel A x0 b monitor P.

End EntryPoints.

(** ** A concrete instance: binary64 scalars, dense matrices *)

Module Dense.

Definition float_scalar : Scalar float :=
  {| s_zero := 0%float;
     s_one := 1%float;
     s_eps := 1e-20%float;
     s_neg := PrimFloat.opp;
     s_fabs := PrimFloat.abs;
     s_add := PrimFloat.add;
     s_sub := PrimFloat.sub;
     s_mul := PrimFloat.mul;
     s_div := PrimFloat.div;
     s_eqb := PrimFloat.eqb;
     s_ltb := PrimFloat.ltb |}.

Definition vec : Type := list float.
Definition matrix : Type := list (list float).

Fixpoint dot (v w : vec) : float :=
  match v, w with
  | a :: v', c :: w' => PrimFloat.add (PrimFloat.mul a c) (dot v' w')
  | _, _ => 0%float
  end.

Fixpoint combine_with (f : float -> float -> float) (v w : vec) : vec :=
  match v, w with
  | a :: v', c :: w' => f a c :: combine_with f v' w'
  | _, _ => []
  end.

Definition mat_vec (m : matrix) (v : vec) : vec := map (fun row => dot row v) m.

Definition dense_kernels : PureKernels float vec matrix matrix :=
  {| p_size := @length float;
     p_zeros := fun n => replicate n 0%float;
     apply_A := mat_vec;
     apply_P := mat_vec;
     p_axpby := fun v w a c =>
       combine_with (fun p q => PrimFloat.add (PrimFloat.mul a p) (PrimFloat.mul c q)) v w;
     p_axpy := fun v w a =>
       combine_with (fun p q => PrimFloat.add q (PrimFloat.mul a p)) v w;
     p_dotc := dot;
     p_nrm2 := fun v => PrimFloat.sqrt (dot v v) |}.

(** Modelled from the spec: the monitor class of [sap/monitor.h], which is
    not among the sources; only the contract of section 4.2 is known.  This
    monitor keeps the work done, a stagnation counter, the last residual
    norm reported and a status (0 while running, 1 once converged, the
    [stop] code after a breakdown, -1 once the work budget is spent).  It
    asks for a check when the cheap norm is within [check_below] or the
    budget is spent. *)
Record monitor_state : Type := MonitorState {
  work : float;
  max_work : float;
  tolerance : float;
  check_below : float;
  status : Z;
  message : string;
  stag : nat;
  residual : float
}.

Definition new_monitor (max_work tolerance check_below : float) : monitor_state :=
  {| work := 0%float; max_work := max_work; tolerance := tolerance;
     check_below := check_below; status := 0%Z; message := EmptyString; stag := 0;
     residual := 0%float |}.

Definition with_status (c : Z) (msg : string) (m : monitor_state) : monitor_state :=
  {| work := work m; max_work := max_work m; tolerance := tolerance m;
     check_below := check_below m; status := c; message := msg; stag := stag m;
     residual := residual m |}.

Definition with_residual (rn : float) (m : monitor_state) : monitor_state :=
  {| work := work m; max_work := max_work m; tolerance := tolerance m;
     check_below := check_below m; status := status m; message := message m;
     stag := stag m; residual := rn |}.

Definition with_work (w : float) (m : monitor_state) : monitor_state :=
  {| work := w; max_work := max_work m; tolerance := tolerance m;
     check_below := check_below m; status := status m; message := message m;
     stag := stag m; residual := residual m |}.

Definition with_stag (n : nat) (m : monitor_state) : monitor_state :=
  {| work := work m; max_work := max_work m; tolerance := tolerance m;
     check_below := check_below m; status := status m; message := message m;
     stag := n; residual := residual m |}.

Definition judge (rn : float) (m : monitor_state) : monitor_state :=
  if PrimFloat.leb rn (tolerance m) then with_status 1%Z "converged"%string (with_residual rn m)
  else if PrimFloat.leb (max_work m) (work m)
       then with_status (-1)%Z "work budget spent"%string (with_residual rn m)
       else with_residual rn m.

Definition simple_monitor : Monitor float monitor_state :=
  {| increment := fun w m => with_work (PrimFloat.add (work m) w) m;
     needCheckConvergence := fun rn m =>
       (PrimFloat.leb rn (check_below m) || PrimFloat.leb (max_work m) (work m), m);
     finished_norm := fun rn m => (negb (Z.eqb (status (judge rn m)) 0), judge rn m);
     finished := fun m => (negb (Z.eqb (status m) 0), m);
     stop := with_status;
     incrementStag := fun m => with_stag (S (stag m)) m;
     resetStag := with_stag 0;
     converged := fun m => (Z.eqb (status m) 1, m);
     updateResidual := with_residual |}.

(** The solver on dense data with no exception raised, the monitor's calls
    recorded. *)
Definition solve (L fuel : nat) (A : matrix) (x0 b : vec) (m : monitor_state) (P : matrix)
    : outcome Empty_set (vec * (monitor_state * list (event float))) :=
  @bicgstabl Empty_set float vec matrix matrix _ float_scalar
    (lift_kernels Empty_set dense_kernels) (logged simple_monitor)
    L fuel A x0 b (m, []) P.

Definition identity3 : matrix :=
  [[1; 0; 0]; [0; 1; 0]; [0; 0; 1]]%float.

End Dense.

(** ** The library's exception type, [sap/exception.h] *)

Module Exception.

Inductive Reason : Type :=
| Zero_pivoting
| Negative_DB_weight
| Illegal_update
| Illegal_solve
| Matrix_singular.

Definition reason_code (r : Reason) : Z :=
  match r with
  | Zero_pivoting => -1
  | Negative_DB_weight => -2
  | Illegal_update => -3
  | Illegal_solve => -4
  | Matrix_singular => -5
  end%Z.

Record system_error : Type := SystemError {
  m_reason : Reason;
  what : string
}.

Definition reason (e : system_error) : Reason := m_reason e.

End Exception.

(** Dense kernels whose preconditioner throws [system_error] when it is
    applied before it has been set up (an empty matrix). *)
Definition guarded_kernels : Kernels Exception.system_error float Dense.vec Dense.matrix Dense.matrix :=
  {| size := @length float;
     zeros := fun n => replicate n 0%float;
     allocate := fun _ => Ok tt;
     multiply_A := fun A v => Ok (Dense.mat_vec A v);
     multiply_P := fun P v =>
       match P with
       | [] => Raise (Exception.SystemError Exception.Illegal_solve "solve before setup"%string)
       | _ => Ok (Dense.mat_vec P v)
       end;
     axpby := fun v w a c => Ok (p_axpby (PureKernels := Dense.dense_kernels) v w a c);
     axpy := fun v w a => Ok (p_axpy (PureKernels := Dense.dense_kernels) v w a);
     dotc := fun v w => Ok (Dense.dot v w);
     nrm2 := fun v => Ok (PrimFloat.sqrt (Dense.dot v v));
     copy := fun src _ => Ok src;
     zip_copy := fun a b c => Ok (a, b, c) |}.

(** ** Notions used in the statements *)

Section Notions.
Context {E V Vec LinOp Precond M : Type}.
Context {SC : Scalar V} {K : Kernels E V Vec LinOp Precond} {Mon : Monitor V M}.

(** A piece of the engine keeps a relation between the locals before and
    after it, and lets out only exceptions of a given kind. *)
Definition respects (R : locals V Vec -> locals V Vec -> Prop) (X : E -> Prop)
    {T : Type} (c : @Eng E V Vec M T) : Prop :=
  forall s m,
    match c s m with
    | Ok (_, s', _) => R s s'
    | Raise e => X e
    | Fuel => True
    end.

(** [lowered a c]: [c] is [a], or was reached from [a] by replacing the
    value, any number of times, by one that compares strictly smaller. *)
Inductive lowered : V -> V -> Prop :=
| lowered_same (a : V) : lowered a a
| lowered_again (a c d : V) : lowered a c -> s_ltb d c = true -> lowered a d.

(** The exception [e] is one that a call of the operator [A], of the
    preconditioner [P] or of a vector kernel, the construction of an array
    included, ended with. *)
Inductive thrown_by_collaborator (A : LinOp) (P : Precond) (e : E) : Prop :=
| thrown_by_operator (v : Vec) : multiply_A A v = Raise e -> thrown_by_collaborator A P e
| thrown_by_preconditioner (v : Vec) : multiply_P P v = Raise e -> thrown_by_collaborator A P e
| thrown_by_axpby (v w : Vec) (a c : V) : axpby v w a c = Raise e -> thrown_by_collaborator A P e
| thrown_by_axpy (v w : Vec) (a : V) : axpy v w a = Raise e -> thrown_by_collaborator A P e
| thrown_by_dotc (v w : Vec) : dotc v w = Raise e -> thrown_by_collaborator A P e
| thrown_by_nrm2 (v : Vec) : nrm2 v = Raise e -> thrown_by_collaborator A P e
| thrown_by_copy (v w : Vec) : copy v w = Raise e -> thrown_by_collaborator A P e
| thrown_by_zip_copy (v w t : Vec) : zip_copy v w t = Raise e -> thrown_by_collaborator A P e
| thrown_by_allocate (n : nat) : allocate n = Raise e -> thrown_by_collaborator A P e.

(** The monitor contract the engine relies on after a breakdown: once
    [stop] was called with a failure code, [finished()] answers true. *)
Definition stop_finishes : Prop :=
  forall (c : Z) (msg : string) (m : M), (c < 0)%Z -> fst (finished (stop c msg m)) = true.

End Notions.

Section MonitorFaults.
Context {E V M : Type} {Mon : MonitorCalls E V M}.

(** The exception [e] is one that a call of a method of the monitor ended
    with. *)
Inductive thrown_by_monitor (e : E) : Prop :=
| thrown_by_increment (w : float) (m : M) :
    monitor_increment w m = Raise e -> thrown_by_monitor e
| thrown_by_needCheckConvergence (rn : V) (m : M) :
    monitor_needCheckConvergence rn m = Raise e -> thrown_by_monitor e
| thrown_by_finished_norm (rn : V) (m : M) :
    monitor_finished_norm rn m = Raise e -> thrown_by_monitor e
| thrown_by_finished (m : M) :
    monitor_finished m = Raise e -> thrown_by_monitor e
| thrown_by_stop (c : Z) (msg : string) (m : M) :
    monitor_stop c msg m = Raise e -> thrown_by_monitor e
| thrown_by_incrementStag (m : M) :
    monitor_incrementStag m = Raise e -> thrown_by_monitor e
| thrown_by_resetStag (m : M) :
    monitor_resetStag m = Raise e -> thrown_by_monitor e
| thrown_by_converged (m : M) :
    monitor_converged m = Raise e -> thrown_by_monitor e
| thrown_by_updateResidual (rn : V) (m : M) :
    monitor_updateResidual rn m = Raise e -> thrown_by_monitor e.

End MonitorFaults.


(** ** The finalization in the words of the specification *)

Section Returned.
Context {V Vec LinOp Precond : Type}.
Context {SC : Scalar V} {PK : PureKernels V Vec LinOp Precond}.
Variable A : LinOp.
Variable b : Vec.
Variable P : Precond.

(** The norm of [b - A (P^-1 v)]: one preconditioner and one operator
    application. *)
Definition true_residual_norm (v : Vec) : V :=
  p_nrm2 (p_axpby b (apply_A A (apply_P P v)) s_one (s_neg s_one)).

(** Of the final iterate and the best one seen, is it the final one that
    has the strictly smaller true residual? *)
Definition final_is_better (xx_final x_best : Vec) : bool :=
  s_ltb (true_residual_norm xx_final) (true_residual_norm x_best).

(** What is returned in [x]: [P^-1 xx] after convergence, otherwise the
    preconditioned iterate with the smaller true residual. *)
Definition returned_iterate (conv : bool) (xx_final x_best : Vec) : Vec :=
  if conv then apply_P P xx_final
  else if final_is_better xx_final x_best
       then apply_P P xx_final
       else apply_P P x_best.

(** The residual norm reported to the monitor when the run did not
    converge. *)
Definition reported_norm (xx_final x_best : Vec) : V :=
  if final_is_better xx_final x_best
  then true_residual_norm xx_final
  else true_residual_norm x_best.

(** The inner product [gamma = <uu[1], r0>] of the first lookahead step of
    the first pass, from the data: [rho0] is [-(1) * 1] there, [alpha] is
    zero, [uu[0]] starts as the zero vector and [rr[0]] as [r0]. *)
Definition first_gamma (x0 : Vec) : V :=
  let r0 := p_axpby b (apply_A A x0) s_one (s_neg s_one) in
  let beta := s_div (s_mul s_zero (p_dotc r0 r0)) (s_mul (s_neg s_one) s_one) in
  let u0 := p_axpby r0 (p_zeros (p_size b)) s_one (s_neg beta) in
  p_dotc (apply_A A (apply_P P u0)) r0.

End Returned.

(** ** Concrete runs *)

Module Cases.
Import Dense.

#[local] Existing Instance float_scalar.
#[local] Instance dense_no_throw : Kernels Empty_set float vec matrix matrix :=
  no_throw dense_kernels.
#[local] Instance recording : Monitor float (monitor_state * list (event float)) :=
  logged simple_monitor.

(** Pieces of the engine on dense data, the monitor's calls recorded. *)
Definition Run (X : Type) : Type :=
  @Eng Empty_set float vec (monitor_state * list (event float)) X.

(** A piece run from the locals as declared, with a fresh record. *)
Definition enter {X : Type} (L : nat) (b x0 : vec) (m : monitor_state) (c : Run X)
    : outcome Empty_set (X * locals float vec * (monitor_state * list (event float))) :=
  c (initial_locals L b x0) (m, []).

Definition identity2 : matrix := [[1; 0]; [0; 1]]%float.

(** A monitor with work budget 100, tolerance 1e-10, asking for a check
    when the cheap norm is at most 1e-8. *)
Definition watch : monitor_state := new_monitor 100 1e-10 1e-8.

(** The scenario of the specification: [diag(2,4,8) x = (2,4,8)], started
    at zero or at the solution. *)
Definition A_diag : matrix := [[2; 0; 0]; [0; 4; 0]; [0; 0; 8]]%float.
Definition b_diag : vec := [2; 4; 8]%float.
Definition x_zero : vec := [0; 0; 0]%float.
Definition x_exact : vec := [1; 1; 1]%float.

(** The same system with the preconditioner [P^-1 = I/2] and a nonzero
    initial guess. *)
Definition P_half : matrix := [[0.5; 0; 0]; [0; 0.5; 0]; [0; 0; 0.5]]%float.
Definition x_guess : vec := [1; 0; 0]%float.




(** A badly scaled system: a huge operator and a tiny right-hand side, and
    a monitor whose tolerances are scaled accordingly. *)
Definition A_huge : matrix := [[1e200; 0]; [0; 2e200]]%float.
Definition b_tiny : vec := [1e-100; 1e-100]%float.
Definition watch_tiny : monitor_state := new_monitor 100 1e-300 1e-300.

(** Lines 71-313 for it, degree 1: the first pass. *)
Definition first_pass : Run ctl :=
  init A_huge b_tiny ;; pass 1 A_huge b_tiny identity2.

(** Lines 93-104 after it: the start of the second pass. *)
Definition second_pass_start : Run ctl :=
  pass_begin ;; bicg_step A_huge b_tiny identity2 0.

(** The locals and the monitor when the loop is entered, specification
    scenario started at zero. *)
Definition entered : locals float vec * (monitor_state * list (event float)) :=
  Eval vm_compute in
    match enter 1 b_diag x_zero watch (init A_diag b_diag) with
    | Ok (_, s, m) => (s, m)
    | _ => (initial_locals 1 b_diag x_zero, (watch, []))
    end.



(** A monitor that turns a breakdown into an exception: its [stop] throws
    the message it is given; its other methods are those of
    [simple_monitor]. *)
Definition throwing_monitor : MonitorCalls string float monitor_state :=
  {| monitor_increment := fun w m => Ok (increment (Monitor := simple_monitor) w m);
     monitor_needCheckConvergence := fun rn m =>
       Ok (needCheckConvergence (Monitor := simple_monitor) rn m);
     monitor_finished_norm := fun rn m => Ok (finished_norm (Monitor := simple_monitor) rn m);
     monitor_finished := fun m => Ok (finished (Monitor := simple_monitor) m);
     monitor_stop := fun _ msg _ => Raise msg;
     monitor_incrementStag := fun m => Ok (incrementStag (Monitor := simple_monitor) m);
     monitor_resetStag := fun m => Ok (resetStag (Monitor := simple_monitor) m);
     monitor_converged := fun m => Ok (converged (Monitor := simple_monitor) m);
     monitor_updateResidual := fun rn m =>
       Ok (updateResidual (Monitor := simple_monitor) rn m) |}.

(** The dense kernels, which do not throw, beside that monitor. *)
Definition dense_beside_throwing : Kernels string float vec matrix matrix :=
  lift_kernels string dense_kernels.

End Cases.


(** ** Further notions: the shape of the locals, the monitor protocol *)

Section Shape.
Context {V Vec : Type}.

(** Two sets of locals with the same shadow residual and arrays of the same
    sizes. *)
Definition same_shape (s s' : locals V Vec) : Prop :=
  r0 s' = r0 s
  /\ length (rr s') = length (rr s)
  /\ length (uu s') = length (uu s)
  /\ length (tao s') = length (tao s)
  /\ length (gamma s') = length (gamma s)
  /\ length (gamma_prime s') = length (gamma_prime s)
  /\ length (gamma_primeprime s') = length (gamma_primeprime s)
  /\ length (sigma s') = length (sigma s).

(** The sizes with which the arrays are declared at lines 57-69. *)
Definition declared_sizes (L : nat) (s : locals V Vec) : Prop :=
  length (rr s) = S L
  /\ length (uu s) = S L
  /\ length (tao s) = S L
  /\ length (gamma s) = S (S L)
  /\ length (gamma_prime s) = S (S L)
  /\ length (gamma_primeprime s) = S (S L)
  /\ length (sigma s) = S (S L).

(** The three vectors of the caller's side, [x], [u] and [r], are what they
    were. *)
Definition outputs_kept (s s' : locals V Vec) : Prop :=
  x s' = x s /\ u s' = u s /\ r s' = r s.

End Shape.

Section Coefficients.
Context {V : Type} {SC : Scalar V}.

(** [gamma'[j] - tao[j][j+1] gamma[j+1] - ... - tao[j][L] gamma[L]], the
    terms subtracted in this order. *)
Definition back_substituted (L j : nat) (t : list (list V)) (gp g : list V) : V :=
  fold_left (fun acc i => s_sub acc (s_mul (tao_at t j i) (val_at g i)))
    (seq (S j) (L - j)) (val_at gp j).

(** [gamma[j+1] + tao[j][j+1] gamma[j+2] + ... + tao[j][L-1] gamma[L]], the
    terms added in this order. *)
Definition shifted_sum (L j : nat) (t : list (list V)) (g : list V) : V :=
  fold_left (fun acc i => s_add acc (s_mul (tao_at t j i) (val_at g (S i))))
    (seq (S j) (L - S j)) (val_at g (S j)).

End Coefficients.

Section Residual.
Context {V Vec LinOp Precond : Type}.
Context {SC : Scalar V} {PK : PureKernels V Vec LinOp Precond}.

(** The norm of [b - A x], for the [x] that is handed back. *)
Definition residual_norm (A : LinOp) (b x : Vec) : V :=
  p_nrm2 (p_axpby b (apply_A A x) s_one (s_neg s_one)).

End Residual.

Section Protocol.
Context {E V Vec M : Type}.

(** A piece of the engine keeps a relation between the monitor before and
    after it. *)
Definition respects_monitor (R : M -> M -> Prop) {T : Type} (c : @Eng E V Vec M T) : Prop :=
  forall s m,
    match c s m with
    | Ok (_, _, m') => R m m'
    | Raise _ => True
    | Fuel => True
    end.

(** The two answers of the monitor that end the loop. *)
Definition says_finished (e : event V) : Prop :=
  e = EFinished true \/ exists rn, e = EFinishedNorm rn true.

(** A record of calls that ends with the monitor accepting the norm [rn]:
    [finished(rn)] answered true, followed at most by [finished()]
    answering true. *)
Definition accepted (rn : V) (tr : list (event V)) : Prop :=
  exists pre,
    tr = pre ++ [EFinishedNorm rn true]
    \/ tr = pre ++ [EFinishedNorm rn true; EFinished true].

(** The amounts handed to [increment], in the order of the calls. *)
Definition work_calls (tr : list (event V)) : list float :=
  flat_map (fun e => match e with EIncrement w => [w] | _ => [] end) tr.

(** The codes and messages of the three breakdowns, lines 101-104, 121-124
    and 187-190. *)
Definition breakdowns : list (Z * string) :=
  [((-10)%Z, "rho0 is zero"%string);
   ((-11)%Z, "gamma is zero"%string);
   ((-12)%Z, "a sigma value is zero"%string)].

(** Between two states of a recording monitor calls were only added, and
    every [stop] among them is one of the breakdowns. *)
Definition stops_known (m m' : M * list (event V)) : Prop :=
  exists new,
    snd m' = snd m ++ new
    /\ Forall (fun e => forall code msg, e = EStop code msg -> In (code, msg) breakdowns) new.

(** Between two states of a recording monitor no [increment] was called. *)
Definition same_work (m m' : M * list (event V)) : Prop :=
  work_calls (snd m') = work_calls (snd m).

(** A piece of the engine calls [increment] a number of times that depends
    on its result as [Q] says, each time with a quarter. *)
Definition adds_work {T : Type} (Q : T -> nat -> Prop)
    (c : @Eng E V Vec (M * list (event V)) T) : Prop :=
  forall s m,
    match c s m with
    | Ok (v, _, m') =>
        exists k, work_calls (snd m') = work_calls (snd m) ++ replicate k 0.25%float /\ Q v k
    | Raise _ => True
    | Fuel => True
    end.

(** A piece of the engine relates its result, the locals before and the
    locals after as [Q] says. *)
Definition leaves {T : Type} (Q : T -> locals V Vec -> locals V Vec -> Prop)
    (c : @Eng E V Vec M T) : Prop :=
  forall s m,
    match c s m with
    | Ok (v, s', _) => Q v s s'
    | Raise _ => True
    | Fuel => True
    end.

End Protocol.

(** ** Further runs on dense data *)

Module Runs.
Import Dense Cases.

#[local] Existing Instance float_scalar.

(** The scenario of the specification with degree 2, started at zero: the
    monitor accepts a residual norm in the second pass. *)
Definition converging_run : outcome Empty_set (vec * (monitor_state * list (event float))) :=
  bicgstabl (K := no_throw dense_kernels) (Mon := logged simple_monitor)
    2 5 A_diag x_zero b_diag (watch, []) identity3.

(** The calls of that run before [converged()]. *)
Definition converging_record : list (event float) :=
  Eval vm_compute in
    match converging_run with
    | Ok (_, m) => removelast (snd m)
    | _ => []
    end.

(** The same system with [P^-1 = I/2] and a nonzero guess, degree 1: the
    run ends at a breakdown in its second pass. *)
Definition breaking_run : outcome Empty_set (vec * (monitor_state * list (event float))) :=
  bicgstabl (K := no_throw dense_kernels) (Mon := logged simple_monitor)
    1 5 A_diag x_guess b_diag (watch, []) P_half.

(** That run with kernels that may throw [system_error]. *)
Definition guarded_run
    : outcome Exception.system_error (vec * (monitor_state * list (event float))) :=
  bicgstabl (K := guarded_kernels) (Mon := logged simple_monitor)
    1 5 A_diag x_guess b_diag (watch, []) P_half.

End Runs.
(** ** Composition rules for [respects] *)

Section Respects.
Context {E V Vec M : Type}.
Variable R : locals V Vec -> locals V Vec -> Prop.
Variable X : E -> Prop.
Hypothesis R_refl : forall s, R s s.
Hypothesis R_trans : forall s1 s2 s3, R s1 s2 -> R s2 s3 -> R s1 s3.
Local Abbreviation Eng := (@Eng E V Vec M).
Local Abbreviation respects := (@respects E V Vec M R X).

Lemma respects_ret {T : Type} (v : T) : respects (ret v).
Proof. intros s m. apply R_refl. Qed.

Lemma respects_bind {T U : Type} (c : Eng T) (k : T -> Eng U) :
  respects c -> (forall v, respects (k v)) -> respects (bind c k).
Proof.
  intros Hc Hk s m. unfold bind.
  specialize (Hc s m).
  destruct (c s m) as [[[v s1] m1] | e | ]; [ | exact Hc | exact I].
  specialize (Hk v s1 m1).
  destruct (k v s1 m1) as [[[w s2] m2] | e | ]; [ | exact Hk | exact I].
  eapply R_trans; eassumption.
Qed.

Lemma respects_gets {T : Type} (f : locals V Vec -> T) : respects (gets f).
Proof. intros s m. apply R_refl. Qed.

Lemma respects_tell (f : M -> M) : respects (tell f).
Proof. intros s m. apply R_refl. Qed.

Lemma respects_ask (f : M -> bool * M) : respects (ask f).
Proof. intros s m. apply R_refl. Qed.

Lemma respects_call (f : M -> outcome E M) :
  (forall m e, f m = Raise e -> X e) -> respects (call f).
Proof.
  intros Hf s m. unfold call.
  destruct (f m) as [m' | e | ] eqn:Hfm; [apply R_refl | eauto | exact I].
Qed.

Lemma respects_query (f : M -> outcome E (bool * M)) :
  (forall m e, f m = Raise e -> X e) -> respects (query f).
Proof.
  intros Hf s m. unfold query.
  destruct (f m) as [a | e | ] eqn:Hfm; [apply R_refl | eauto | exact I].
Qed.

Lemma respects_assign (f : locals V Vec -> locals V Vec) :
  (forall s, R s (f s)) -> respects (assign f).
Proof. intros Hf s m. apply Hf. Qed.

Lemma respects_exec {T : Type} (f : locals V Vec -> outcome E T) :
  (forall s e, f s = Raise e -> X e) -> respects (exec f).
Proof.
  intros Hf s m. unfold exec.
  destruct (f s) as [v | e | ] eqn:Hfs; [apply R_refl | eauto | exact I].
Qed.

Lemma respects_for_up (body : nat -> Eng unit) :
  (forall i, respects (body i)) -> forall n lo, respects (for_up n lo body).
Proof.
  intros Hb n. induction n as [ | n IH]; intros lo; simpl.
  - apply respects_ret.
  - apply respects_bind; [apply Hb | intros _; apply IH].
Qed.

Lemma respects_for_down (body : nat -> Eng unit) :
  (forall i, respects (body i)) -> forall n, respects (for_down n body).
Proof.
  intros Hb n. induction n as [ | n IH]; simpl.
  - apply respects_ret.
  - apply respects_bind; [apply Hb | intros _; apply IH].
Qed.

Lemma respects_for_brk (body : nat -> Eng ctl) :
  (forall j, respects (body j)) -> forall n lo, respects (for_brk n lo body).
Proof.
  intros Hb n. induction n as [ | n IH]; intros lo; simpl.
  - apply respects_ret.
  - apply respects_bind; [apply Hb | intros [ | ]; [apply IH | apply respects_ret]].
Qed.

Lemma respects_while_true (body : Eng ctl) :
  respects body -> forall fuel, respects (while_true fuel body).
Proof.
  intros Hb fuel. induction fuel as [ | fuel IH]; simpl.
  - intros s m. exact I.
  - apply respects_bind; [apply Hb | intros [ | ]; [apply IH | apply respects_ret]].
Qed.

End Respects.

(** Decomposes a goal [respects R X c] along the statements of [c]; what is
    left are the assignments and the calls of kernels and monitor. *)
Ltac respects_walk Hrefl Htrans :=
  repeat lazymatch goal with
  | |- respects _ _ (bind _ _) => apply (respects_bind _ _ Htrans); [ | intros ? ]
  | |- respects _ _ (ret _) => apply (respects_ret _ _ Hrefl)
  | |- respects _ _ (gets _) => apply (respects_gets _ _ Hrefl)
  | |- respects _ _ (tell _) => apply (respects_tell _ _ Hrefl)
  | |- respects _ _ (ask _) => apply (respects_ask _ _ Hrefl)
  | |- respects _ _ (call _) => apply (respects_call _ _ Hrefl); intros ? ? ?
  | |- respects _ _ (query _) => apply (respects_query _ _ Hrefl); intros ? ? ?
  | |- respects _ _ (assign _) => apply respects_assign; intros ?
  | |- respects _ _ (exec _) => apply (respects_exec _ _ Hrefl); intros ? ? ?
  | |- respects _ _ (for_up _ _ _) => apply (respects_for_up _ _ Hrefl Htrans); intros ?
  | |- respects _ _ (for_down _ _) => apply (respects_for_down _ _ Hrefl Htrans); intros ?
  | |- respects _ _ (for_brk _ _ _) => apply (respects_for_brk _ _ Hrefl Htrans); intros ?
  | |- respects _ _ (while_true _ _) => apply (respects_while_true _ _ Hrefl Htrans)
  | |- respects _ _ (if ?c then _ else _) => destruct c
  | |- respects _ _ (match ?c with Next => _ | Brk => _ end) => destruct c
  end.

(** ** Exceptions: only what a kernel or the monitor threw gets out *)

Create HintDb quiet.

Section Propagation.
Context {E V Vec LinOp Precond M : Type}.
Context {SC : Scalar V} {K : Kernels E V Vec LinOp Precond} {Mon : MonitorCalls E V M}.
Variable L : nat.
Variable A : LinOp.
Variable b : Vec.
Variable P : Precond.

Local Abbreviation any := (fun _ _ : locals V Vec => True).
Local Abbreviation quiet :=
  (@respects E V Vec M any (fun e => thrown_by_collaborator A P e \/ thrown_by_monitor e)).

Lemma any_refl : forall s : locals V Vec, any s s.
Proof. intros s. exact I. Qed.

Lemma any_trans : forall s1 s2 s3 : locals V Vec, any s1 s2 -> any s2 s3 -> any s1 s3.
Proof. intros s1 s2 s3 _ _. exact I. Qed.

Ltac quiet_walk :=
  respects_walk any_refl any_trans;
  try exact I;
  try solve [left; econstructor; eassumption | right; econstructor; eassumption];
  auto with quiet.

Lemma declare_quiet : quiet (declare L b).
Proof. unfold declare. quiet_walk. Qed.

Lemma init_quiet : quiet (init A b).
Proof. unfold init. quiet_walk. Qed.

Lemma stagnation_bicg_quiet : quiet stagnation_bicg.
Proof. unfold stagnation_bicg. quiet_walk. Qed.

Lemma checkpoint_bicg_quiet : quiet (checkpoint_bicg A b P).
Proof. unfold checkpoint_bicg. quiet_walk. Qed.

Lemma update_min_bicg_quiet : quiet update_min_bicg.
Proof. unfold update_min_bicg. quiet_walk. Qed.

Lemma bicg_direction_quiet j : quiet (bicg_direction A P j).
Proof. unfold bicg_direction. quiet_walk. Qed.

#[local] Hint Resolve stagnation_bicg_quiet checkpoint_bicg_quiet update_min_bicg_quiet
  bicg_direction_quiet : quiet.

Lemma bicg_site_quiet : quiet (bicg_site A b P).
Proof. unfold bicg_site. quiet_walk. Qed.

#[local] Hint Resolve bicg_site_quiet : quiet.

Lemma bicg_advance_quiet j g : quiet (bicg_advance A b P j g).
Proof. unfold bicg_advance. quiet_walk. Qed.

#[local] Hint Resolve bicg_advance_quiet : quiet.

Lemma bicg_step_quiet j : quiet (bicg_step A b P j).
Proof. unfold bicg_step. quiet_walk. Qed.

Lemma mr_pivot_quiet j : quiet (mr_pivot j).
Proof. unfold mr_pivot. quiet_walk. Qed.

#[local] Hint Resolve bicg_step_quiet mr_pivot_quiet : quiet.

Lemma mr_orth_quiet j : quiet (mr_orth j).
Proof. unfold mr_orth. quiet_walk. Qed.

Lemma mr_coefficients_quiet : quiet (mr_coefficients L).
Proof. unfold mr_coefficients. quiet_walk. Qed.

Lemma stagnation_mr_quiet : quiet stagnation_mr.
Proof. unfold stagnation_mr. quiet_walk. Qed.

Lemma checkpoint_mr_quiet : quiet (checkpoint_mr A b P).
Proof. unfold checkpoint_mr. quiet_walk. Qed.

Lemma update_min_mr_quiet : quiet update_min_mr.
Proof. unfold update_min_mr. quiet_walk. Qed.

Lemma stagnation_mr_inner_quiet j : quiet (stagnation_mr_inner j).
Proof. unfold stagnation_mr_inner. quiet_walk. Qed.

Lemma checkpoint_mr_inner_quiet : quiet (checkpoint_mr_inner A b P).
Proof. unfold checkpoint_mr_inner. quiet_walk. Qed.

Lemma update_min_mr_inner_quiet : quiet update_min_mr_inner.
Proof. unfold update_min_mr_inner. quiet_walk. Qed.

#[local] Hint Resolve mr_orth_quiet mr_coefficients_quiet stagnation_mr_quiet
  checkpoint_mr_quiet update_min_mr_quiet stagnation_mr_inner_quiet
  checkpoint_mr_inner_quiet update_min_mr_inner_quiet : quiet.

Lemma mr_inner_site_quiet : quiet (mr_inner_site A b P).
Proof. unfold mr_inner_site. quiet_walk. Qed.

#[local] Hint Resolve mr_inner_site_quiet : quiet.

Lemma mr_update_quiet j : quiet (mr_update A b P j).
Proof. unfold mr_update. quiet_walk. Qed.

Lemma pass_end_quiet : quiet pass_end.
Proof. unfold pass_end. quiet_walk. Qed.

#[local] Hint Resolve mr_update_quiet pass_end_quiet : quiet.

Lemma mr_site_quiet : quiet (mr_site L A b P).
Proof. unfold mr_site. quiet_walk. Qed.

#[local] Hint Resolve mr_site_quiet : quiet.

Lemma pass_mix_quiet : quiet (pass_mix L A b P).
Proof. unfold pass_mix. quiet_walk. Qed.

#[local] Hint Resolve pass_mix_quiet : quiet.

Lemma pass_from_orth_quiet n j : quiet (pass_from_orth L A b P n j).
Proof. unfold pass_from_orth. quiet_walk. Qed.

#[local] Hint Resolve pass_from_orth_quiet : quiet.

Lemma pass_from_bicg_quiet n j : quiet (pass_from_bicg L A b P n j).
Proof. unfold pass_from_bicg. quiet_walk. Qed.

Lemma pass_begin_quiet : quiet pass_begin.
Proof. unfold pass_begin. quiet_walk. Qed.

#[local] Hint Resolve pass_from_bicg_quiet pass_begin_quiet : quiet.

Lemma pass_quiet : quiet (pass L A b P).
Proof. unfold pass. quiet_walk. Qed.

Lemma finalize_quiet : quiet (finalize A b P).
Proof. unfold finalize. quiet_walk. Qed.

#[local] Hint Resolve declare_quiet init_quiet pass_quiet finalize_quiet : quiet.

Lemma engine_quiet fuel : quiet (engine L A b P fuel).
Proof. unfold engine. quiet_walk. Qed.

End Propagation.

(** ** The best norm seen is only ever lowered *)

Create HintDb lowers.

Section Lowering.
Context {E V Vec LinOp Precond M : Type}.
Context {SC : Scalar V} {K : Kernels E V Vec LinOp Precond} {Mon : MonitorCalls E V M}.
Variable L : nat.
Variable A : LinOp.
Variable b : Vec.
Variable P : Precond.

Local Abbreviation best_lowered :=
  (fun s s' : locals V Vec => lowered (r_norm_min s) (r_norm_min s')).
Local Abbreviation lowers := (@respects E V Vec M best_lowered (fun _ => True)).

Lemma lowered_trans (a c d : V) : lowered a c -> lowered c d -> lowered a d.
Proof.
  intros Hac Hcd. induction Hcd as [ | c d d' Hcd IH Hlt].
  - exact Hac.
  - eapply lowered_again; [apply IH; exact Hac | exact Hlt].
Qed.

Lemma best_lowered_refl : forall s : locals V Vec, best_lowered s s.
Proof. intros s. apply lowered_same. Qed.

Lemma best_lowered_trans :
  forall s1 s2 s3 : locals V Vec, best_lowered s1 s2 -> best_lowered s2 s3 -> best_lowered s1 s3.
Proof. intros s1 s2 s3. apply lowered_trans. Qed.

Ltac lowers_walk :=
  respects_walk best_lowered_refl best_lowered_trans;
  try exact I;
  try apply lowered_same;
  auto with lowers.

(** The three sites that write [r_norm_min] do it under the guard
    [r_norm_act < r_norm_min]. *)
Ltac lowers_site :=
  intros s m; cbv beta delta [bind gets assign exec ret]; cbn beta iota;
  destruct (s_ltb (r_norm_act s) (r_norm_min s)) eqn:Hlt;
  [ destruct (copy _ _) as [v | e | ]; cbn;
    [ eapply lowered_again; [apply lowered_same | exact Hlt] | exact I | exact I ]
  | apply lowered_same ].

Lemma update_min_bicg_lowers : lowers update_min_bicg.
Proof. unfold update_min_bicg. lowers_site. Qed.

Lemma update_min_mr_lowers : lowers update_min_mr.
Proof. unfold update_min_mr. lowers_site. Qed.

Lemma update_min_mr_inner_lowers : lowers update_min_mr_inner.
Proof. unfold update_min_mr_inner. lowers_site. Qed.

Lemma stagnation_bicg_lowers : lowers stagnation_bicg.
Proof. unfold stagnation_bicg. lowers_walk. Qed.

Lemma checkpoint_bicg_lowers : lowers (checkpoint_bicg A b P).
Proof. unfold checkpoint_bicg. lowers_walk. Qed.

Lemma bicg_direction_lowers j : lowers (bicg_direction A P j).
Proof. unfold bicg_direction. lowers_walk. Qed.

#[local] Hint Resolve update_min_bicg_lowers update_min_mr_lowers update_min_mr_inner_lowers
  stagnation_bicg_lowers checkpoint_bicg_lowers bicg_direction_lowers : lowers.

Lemma bicg_site_lowers : lowers (bicg_site A b P).
Proof. unfold bicg_site. lowers_walk. Qed.

#[local] Hint Resolve bicg_site_lowers : lowers.

Lemma bicg_advance_lowers j g : lowers (bicg_advance A b P j g).
Proof. unfold bicg_advance. lowers_walk. Qed.

#[local] Hint Resolve bicg_advance_lowers : lowers.

Lemma bicg_step_lowers j : lowers (bicg_step A b P j).
Proof. unfold bicg_step. lowers_walk. Qed.

Lemma mr_pivot_lowers j : lowers (mr_pivot j).
Proof. unfold mr_pivot. lowers_walk. Qed.

#[local] Hint Resolve bicg_step_lowers mr_pivot_lowers : lowers.

Lemma mr_orth_lowers j : lowers (mr_orth j).
Proof. unfold mr_orth. lowers_walk. Qed.

Lemma mr_coefficients_lowers : lowers (mr_coefficients L).
Proof. unfold mr_coefficients. lowers_walk. Qed.

Lemma stagnation_mr_lowers : lowers stagnation_mr.
Proof. unfold stagnation_mr. lowers_walk. Qed.

Lemma checkpoint_mr_lowers : lowers (checkpoint_mr A b P).
Proof. unfold checkpoint_mr. lowers_walk. Qed.

Lemma stagnation_mr_inner_lowers j : lowers (stagnation_mr_inner j).
Proof. unfold stagnation_mr_inner. lowers_walk. Qed.

Lemma checkpoint_mr_inner_lowers : lowers (checkpoint_mr_inner A b P).
Proof. unfold checkpoint_mr_inner. lowers_walk. Qed.

#[local] Hint Resolve mr_orth_lowers mr_coefficients_lowers stagnation_mr_lowers
  checkpoint_mr_lowers stagnation_mr_inner_lowers checkpoint_mr_inner_lowers : lowers.

Lemma mr_inner_site_lowers : lowers (mr_inner_site A b P).
Proof. unfold mr_inner_site. lowers_walk. Qed.

#[local] Hint Resolve mr_inner_site_lowers : lowers.

Lemma mr_update_lowers j : lowers (mr_update A b P j).
Proof. unfold mr_update. lowers_walk. Qed.

Lemma pass_end_lowers : lowers pass_end.
Proof. unfold pass_end. lowers_walk. Qed.

#[local] Hint Resolve mr_update_lowers pass_end_lowers : lowers.

Lemma mr_site_lowers : lowers (mr_site L A b P).
Proof. unfold mr_site. lowers_walk. Qed.

#[local] Hint Resolve mr_site_lowers : lowers.

Lemma pass_mix_lowers : lowers (pass_mix L A b P).
Proof. unfold pass_mix. lowers_walk. Qed.

#[local] Hint Resolve pass_mix_lowers : lowers.

Lemma pass_from_orth_lowers n j : lowers (pass_from_orth L A b P n j).
Proof. unfold pass_from_orth. lowers_walk. Qed.

#[local] Hint Resolve pass_from_orth_lowers : lowers.

Lemma pass_from_bicg_lowers n j : lowers (pass_from_bicg L A b P n j).
Proof. unfold pass_from_bicg. lowers_walk. Qed.

Lemma pass_begin_lowers : lowers pass_begin.
Proof. unfold pass_begin. lowers_walk. Qed.

#[local] Hint Resolve pass_from_bicg_lowers pass_begin_lowers : lowers.

Lemma pass_lowers : lowers (pass L A b P).
Proof. unfold pass. lowers_walk. Qed.

#[local] Hint Resolve pass_lowers : lowers.

Lemma loop_lowers fuel : lowers (while_true fuel (pass L A b P)).
Proof. lowers_walk. Qed.

Lemma finalize_lowers : lowers (finalize A b P).
Proof. unfold finalize. lowers_walk. Qed.

End Lowering.

(** ** Runs with collaborators that do not throw *)

Section Pure.
Context {V Vec LinOp Precond M : Type}.
Context {SC : Scalar V} {PK : PureKernels V Vec LinOp Precond} {Mon : Monitor V M}.
#[local] Existing Instance no_throw.
Variable L : nat.
Variable A : LinOp.
Variable b : Vec.
Variable P : Precond.

(** [b - A (P^-1 v)], the residual from its definition, of an iterate [v]
    of the preconditioned space. *)
Local Abbreviation true_residual v :=
  (p_axpby b (apply_A A (apply_P P v)) s_one (s_neg s_one)).

Ltac run_engine :=
  cbv beta delta [bind gets assign exec call query tell ask ret]; cbn.

Lemma vec_at_insert_head (l : list Vec) (v : Vec) :
  l <> [] -> vec_at (<[0 := v]> l) 0 = v.
Proof. destruct l as [ | w l]; [congruence | reflexivity]. Qed.

(** With storage that is always there, the declarations do nothing
    else. *)
Lemma declare_run (s : locals V Vec) (m : M) : declare L b s m = Ok (tt, s, m).
Proof.
  assert (Hloop : forall n lo,
             for_up (E := Empty_set) n lo
               (fun _ => exec (fun _ => allocate (size b)) ;;
                         exec (fun _ => allocate (size b))) s m = Ok (tt, s, m)).
  { intros n. induction n as [ | n IH]; intros lo; [reflexivity | ].
    cbn [for_up]. unfold bind at 1. exact (IH (S lo)). }
  unfold declare. cbv beta delta [bind exec]. cbn beta iota. exact (Hloop (S L) 0).
Qed.

(** *** The checkpoints *)

Lemma checkpoint_bicg_checks (s : locals V Vec) (m : M) :
  rr s <> [] ->
  fst (needCheckConvergence (r_norm s) m) = true ->
  checkpoint_bicg A b P s m =
    Ok (if fst (finished_norm (p_nrm2 (true_residual (xx s)))
                              (snd (needCheckConvergence (r_norm s) m)))
        then Brk else Next,
        set_r_norm_act (p_nrm2 (true_residual (xx s)))
          (set_rr (<[0 := true_residual (xx s)]> (rr s)) s),
        snd (finished_norm (p_nrm2 (true_residual (xx s)))
                           (snd (needCheckConvergence (r_norm s) m)))).
Proof.
  intros Hrr Hneed. unfold checkpoint_bicg. run_engine.
  rewrite Hneed. run_engine. rewrite (vec_at_insert_head _ _ Hrr).
  destruct (fst (finished_norm _ _)); reflexivity.
Qed.

Lemma checkpoint_bicg_skips (s : locals V Vec) (m : M) :
  fst (needCheckConvergence (r_norm s) m) = false ->
  checkpoint_bicg A b P s m = Ok (Next, s, snd (needCheckConvergence (r_norm s) m)).
Proof.
  intros Hneed. unfold checkpoint_bicg. run_engine. rewrite Hneed. reflexivity.
Qed.



(** *** The sites that record the best iterate *)

Lemma update_min_bicg_run (s : locals V Vec) (m : M) :
  update_min_bicg s m =
    Ok (tt,
        if s_ltb (r_norm_act s) (r_norm_min s)
        then set_x_min (xx s) (set_r_norm_min (r_norm_act s) s)
        else s,
        m).
Proof.
  unfold update_min_bicg. run_engine.
  destruct (s_ltb (r_norm_act s) (r_norm_min s)); reflexivity.
Qed.

Lemma update_min_sites_agree (s : locals V Vec) (m : M) :
  update_min_mr s m = update_min_bicg s m
  /\ update_min_mr_inner s m = update_min_bicg s m.
Proof. split; reflexivity. Qed.


(** *** The stagnation tests *)

Lemma stagnation_bicg_run (s : locals V Vec) (m : M) :
  stagnation_bicg s m =
    Ok (tt, s,
        if s_ltb (s_mul (s_fabs (alpha s)) (p_nrm2 (vec_at (uu s) 0)))
                 (s_mul s_eps (p_nrm2 (xx s)))
        then incrementStag m else resetStag m).
Proof. unfold stagnation_bicg. run_engine. destruct (s_ltb _ _); reflexivity. Qed.

Lemma stagnation_mr_run (s : locals V Vec) (m : M) :
  stagnation_mr s m =
    Ok (tt, s,
        if s_ltb (s_mul (s_fabs (val_at (gamma s) 1)) (p_nrm2 (vec_at (rr s) 0)))
                 (s_mul s_eps (p_nrm2 (xx s)))
        then incrementStag m else resetStag m).
Proof. unfold stagnation_mr. run_engine. destruct (s_ltb _ _); reflexivity. Qed.

Lemma stagnation_mr_inner_run (j : nat) (s : locals V Vec) (m : M) :
  stagnation_mr_inner j s m =
    Ok (tt, s,
        if s_ltb (s_mul (s_fabs (val_at (gamma_primeprime s) j)) (p_nrm2 (vec_at (rr s) j)))
                 (s_mul s_eps (p_nrm2 (xx s)))
        then incrementStag m else resetStag m).
Proof. unfold stagnation_mr_inner. run_engine. destruct (s_ltb _ _); reflexivity. Qed.


(** *** Breakdowns *)

Lemma bind_ok {T U : Type} (c : @Eng Empty_set V Vec M T) (k : T -> @Eng Empty_set V Vec M U)
    (s : locals V Vec) (m : M) (r : U * locals V Vec * M) :
  bind c k s m = Ok r ->
  exists v s' m', c s m = Ok (v, s', m') /\ k v s' m' = Ok r.
Proof.
  unfold bind. destruct (c s m) as [[[v s'] m'] | e | ]; [ | discriminate | discriminate].
  intros Hk. exists v, s', m'. split; [reflexivity | exact Hk].
Qed.

(** The body of the BiCG loop: the test of [rho0] decides alone between
    the breakdown and the rest of the step. *)
Lemma bicg_step_run (j : nat) (s : locals V Vec) (m : M) :
  bicg_step A b P j s m =
    if s_eqb (rho0 s) s_zero
    then Ok (Brk, set_rho1 (p_dotc (vec_at (rr s) j) (r0 s)) s,
             stop (-10)%Z "rho0 is zero"%string m)
    else (gamma_j <- bicg_direction A P j ;;
          if s_eqb gamma_j s_zero then
            tell (stop (-11)%Z "gamma is zero"%string) ;;
            ret Brk
          else bicg_advance A b P j gamma_j)
           (set_rho1 (p_dotc (vec_at (rr s) j) (r0 s)) s) m.
Proof.
  unfold bicg_step.
  change (bind ?c ?k s m)
    with (k (p_dotc (vec_at (rr s) j) (r0 s)) s m) at 1.
  cbv beta.
  change (bind (assign ?f) ?k s m) with (k tt (f s) m) at 1.
  cbv beta.
  change (bind (gets ?f) ?k ?t m) with (k (f t) t m) at 1.
  cbn beta iota delta [rho0 set_rho1].
  destruct (s_eqb (rho0 s) s_zero); reflexivity.
Qed.

Lemma bicg_direction_gamma (j : nat) (s s1 : locals V Vec) (m m1 : M) (g : V) :
  bicg_direction A P j s m = Ok (g, s1, m1) ->
  g = p_dotc (vec_at (uu s1) (S j)) (r0 s1).
Proof.
  unfold bicg_direction. intros H.
  repeat (apply bind_ok in H; destruct H as (? & ? & ? & _ & H)).
  cbn in H. injection H as Hg Hs _. subst. reflexivity.
Qed.

Lemma bicg_step_gamma_zero (j : nat) (s s1 : locals V Vec) (m m1 : M) (g : V) :
  s_eqb (rho0 s) s_zero = false ->
  bicg_direction A P j (set_rho1 (p_dotc (vec_at (rr s) j) (r0 s)) s) m = Ok (g, s1, m1) ->
  s_eqb g s_zero = true ->
  bicg_step A b P j s m = Ok (Brk, s1, stop (-11)%Z "gamma is zero"%string m1).
Proof.
  intros Hrho Hdir Hg. rewrite bicg_step_run, Hrho.
  unfold bind at 1. rewrite Hdir, Hg. reflexivity.
Qed.

Lemma mr_orth_sigma_zero (j : nat) (s s1 : locals V Vec) (m m1 : M) :
  mr_pivot j s m = Ok (tt, s1, m1) ->
  s_eqb (val_at (sigma s1) j) s_zero = true ->
  mr_orth j s m = Ok (Brk, s1, stop (-12)%Z "a sigma value is zero"%string m1).
Proof.
  intros Hpiv Hz. unfold mr_orth. unfold bind at 1. rewrite Hpiv.
  run_engine. rewrite Hz. reflexivity.
Qed.

(** The pivot that [mr_pivot] leaves in [sigma[j]] is [<rr[j], rr[j]>]. *)
Lemma mr_pivot_sigma (j : nat) (s s1 : locals V Vec) (m m1 : M) :
  mr_pivot j s m = Ok (tt, s1, m1) ->
  j < length (sigma s) ->
  val_at (sigma s1) j = p_dotc (vec_at (rr s1) j) (vec_at (rr s1) j).
Proof.
  unfold mr_pivot. intros H Hj.
  apply bind_ok in H. destruct H as (? & s' & m' & Hloop & H).
  assert (Hsigma : sigma s' = sigma s).
  { match type of Hloop with
    | ?c s m = Ok _ =>
        assert (Hk : @respects Empty_set V Vec M (fun t t' => sigma t' = sigma t)
                       (fun _ => True) unit c)
    end.
    { respects_walk (fun t : locals V Vec => @eq_refl _ (sigma t))
                    (fun (t1 t2 t3 : locals V Vec) (H12 : sigma t2 = sigma t1)
                         (H23 : sigma t3 = sigma t2) => eq_trans H23 H12);
        try exact I; reflexivity. }
    specialize (Hk s m). rewrite Hloop in Hk. exact Hk. }
  apply bind_ok in H. destruct H as (d & s2 & m2 & Hdot & H).
  cbv beta delta [exec] in Hdot. cbn in Hdot. injection Hdot; intros; subst.
  cbv beta delta [assign] in H. injection H; intros; subst.
  cbn. unfold val_at. rewrite list_lookup_insert_eq; [reflexivity | ].
  rewrite Hsigma. exact Hj.
Qed.

(** A [break] out of the BiCG loop, then [finished()] answering true,
    ends the pass. *)
Lemma pass_from_bicg_breaks (n j : nat) (s s1 : locals V Vec) (m m1 : M) :
  bicg_step A b P j s m = Ok (Brk, s1, m1) ->
  fst (finished m1) = true ->
  pass_from_bicg L A b P (S n) j s m = Ok (Brk, s1, snd (finished m1)).
Proof.
  intros Hstep Hfin. unfold pass_from_bicg. cbn [for_brk].
  unfold bind at 1 2. rewrite Hstep. run_engine. rewrite Hfin. reflexivity.
Qed.

Lemma pass_from_orth_breaks (n j : nat) (s s1 : locals V Vec) (m m1 : M) :
  mr_orth j s m = Ok (Brk, s1, m1) ->
  fst (finished m1) = true ->
  pass_from_orth L A b P (S n) j s m = Ok (Brk, s1, snd (finished m1)).
Proof.
  intros Hstep Hfin. unfold pass_from_orth. cbn [for_brk].
  unfold bind at 1 2. rewrite Hstep. run_engine. rewrite Hfin. reflexivity.
Qed.

(** C3. With a monitor that answers [finished()] with true once it was
    stopped: at any lookahead step [j] of the BiCG loop, a zero [rho0] makes
    the engine call [stop(-10, "rho0 is zero")] and a zero
    [gamma = <uu[j+1], r0>] makes it call [stop(-11, "gamma is zero")]; at
    any index [j] of the orthogonalisation loop a zero pivot [sigma[j]]
    makes it call [stop(-12, "a sigma value is zero")].  In each case the
    only thing that follows in the pass is the question [finished()], and
    the pass ends with [break]: the loop is left for the finalization. *)
Theorem breakdowns_stop_the_solver :
  stop_finishes ->
  (forall n j s m,
     s_eqb (rho0 s) s_zero = true ->
     pass_from_bicg L A b P (S n) j s m =
       Ok (Brk, set_rho1 (p_dotc (vec_at (rr s) j) (r0 s)) s,
           snd (finished (stop (-10)%Z "rho0 is zero"%string m))))
  /\ (forall n j s m g s1 m1,
        s_eqb (rho0 s) s_zero = false ->
        bicg_direction A P j (set_rho1 (p_dotc (vec_at (rr s) j) (r0 s)) s) m
          = Ok (g, s1, m1) ->
        s_eqb g s_zero = true ->
        g = p_dotc (vec_at (uu s1) (S j)) (r0 s1)
        /\ pass_from_bicg L A b P (S n) j s m =
             Ok (Brk, s1, snd (finished (stop (-11)%Z "gamma is zero"%string m1))))
  /\ (forall n j s m s1 m1,
        mr_pivot j s m = Ok (tt, s1, m1) ->
        s_eqb (val_at (sigma s1) j) s_zero = true ->
        (j < length (sigma s) ->
         val_at (sigma s1) j = p_dotc (vec_at (rr s1) j) (vec_at (rr s1) j))
        /\ pass_from_orth L A b P (S n) j s m =
             Ok (Brk, s1, snd (finished (stop (-12)%Z "a sigma value is zero"%string m1)))).
Proof.
  intros Hstop. repeat split.
  - intros n j s m Hz. apply pass_from_bicg_breaks.
    + rewrite bicg_step_run, Hz. reflexivity.
    + apply Hstop. reflexivity.
  - eapply bicg_direction_gamma; eassumption.
  - apply pass_from_bicg_breaks.
    + eapply bicg_step_gamma_zero; eassumption.
    + apply Hstop. reflexivity.
  - eapply mr_pivot_sigma; eassumption.
  - apply pass_from_orth_breaks.
    + apply mr_orth_sigma_zero; assumption.
    + apply Hstop. reflexivity.
Qed.


(** *** How the checkpoints are entered *)






(** *** Finalization *)

Lemma finalize_run (s : locals V Vec) (m : M) :
  finalize A b P s m =
    Ok (tt,
        set_x (returned_iterate A b P (fst (converged m)) (xx s) (x_min s)) s,
        if fst (converged m) then snd (converged m)
        else updateResidual (reported_norm A b P (xx s) (x_min s)) (snd (converged m))).
Proof.
  unfold finalize, returned_iterate, reported_norm, final_is_better, true_residual_norm.
  run_engine.
  destruct (fst (converged m)); [reflexivity | ].
  run_engine. destruct (s_ltb _ _); reflexivity.
Qed.

(** C2. The lines after the loop always complete.  If [converged()] answers
    true, [x] receives [P^-1 xx].  Otherwise the true residual norms of [xx]
    and of [x_min] are recomputed, [x] receives [P^-1 xx] when the norm of
    [xx] is strictly the smaller one and [P^-1 x_min] when it is not, and
    that iterate's norm goes to [updateResidual].  So whenever the loop is
    left, [bicgstabl] returns with [x] set to one of these iterates. *)
Theorem finalization_returns_best (fuel : nat) (x0 : Vec) (s : locals V Vec) (m : M) :
  finalize A b P s m =
    Ok (tt,
        set_x (returned_iterate A b P (fst (converged m)) (xx s) (x_min s)) s,
        if fst (converged m) then snd (converged m)
        else updateResidual (reported_norm A b P (xx s) (x_min s)) (snd (converged m)))
  /\ bicgstabl L fuel A x0 b m P =
       match (init A b ;; while_true fuel (pass L A b P)) (initial_locals L b x0) m with
       | Ok (_, s1, m1) =>
           Ok (returned_iterate A b P (fst (converged m1)) (xx s1) (x_min s1),
               if fst (converged m1) then snd (converged m1)
               else updateResidual (reported_norm A b P (xx s1) (x_min s1))
                                   (snd (converged m1)))
       | Raise e => Raise e
       | Fuel => Fuel
       end.
Proof.
  split; [apply finalize_run | ].
  unfold bicgstabl, engine. unfold bind at 1. rewrite declare_run. unfold bind.
  destruct (init A b (initial_locals L b x0) m) as [[[[] s1] m1] | e | ]; [ | destruct e | reflexivity].
  destruct (while_true fuel (pass L A b P) s1 m1) as [[[[] s2] m2] | e | ];
    [ | destruct e | reflexivity].
  rewrite finalize_run. reflexivity.
Qed.


(** *** The first pass *)

Lemma bicgstabl_run (fuel : nat) (x0 : Vec) (m : M) :
  bicgstabl L fuel A x0 b m P =
    match (init A b ;; while_true fuel (pass L A b P)) (initial_locals L b x0) m with
    | Ok (_, s1, m1) =>
        Ok (returned_iterate A b P (fst (converged m1)) (xx s1) (x_min s1),
            if fst (converged m1) then snd (converged m1)
            else updateResidual (reported_norm A b P (xx s1) (x_min s1))
                                (snd (converged m1)))
    | Raise e => Raise e
    | Fuel => Fuel
    end.
Proof.
  unfold bicgstabl, engine. unfold bind at 1. rewrite declare_run. unfold bind.
  destruct (init A b (initial_locals L b x0) m) as [[[[] s1] m1] | e | ]; [ | destruct e | reflexivity].
  destruct (while_true fuel (pass L A b P) s1 m1) as [[[[] s2] m2] | e | ];
    [ | destruct e | reflexivity].
  rewrite finalize_run. reflexivity.
Qed.

(** The locals when the loop is entered. *)
Lemma init_run (x0 : Vec) (m : M) :
  exists s1,
    init A b (initial_locals L b x0) m = Ok (tt, s1, m)
    /\ rho0 s1 = s_one /\ omega s1 = s_one /\ alpha s1 = s_zero
    /\ r0 s1 = p_axpby b (apply_A A x0) s_one (s_neg s_one)
    /\ xx s1 = x0
    /\ x_min s1 = p_zeros (p_size b)
    /\ rr s1 = p_axpby b (apply_A A x0) s_one (s_neg s_one) :: replicate L (p_zeros (p_size b))
    /\ uu s1 = replicate (S L) (p_zeros (p_size b))
    /\ r_norm_min s1 = p_nrm2 (p_axpby b (apply_A A x0) s_one (s_neg s_one)).
Proof.
  eexists. split; [unfold init; run_engine; reflexivity | ].
  cbn. repeat split; reflexivity.
Qed.

Lemma pass_begin_run (s : locals V Vec) (m : M) :
  @pass_begin Empty_set V Vec M SC Mon s m =
    Ok (tt, set_rho0 (s_mul (s_neg (omega s)) (rho0 s)) s, increment 0.25%float m).
Proof. reflexivity. Qed.

Lemma first_direction (s : locals V Vec) (m : M) (w0 w1 : Vec) (ws : list Vec) :
  uu s = w0 :: w1 :: ws ->
  bicg_direction A P 0 s m =
    Ok (p_dotc
          (apply_A A (apply_P P
             (p_axpby (vec_at (rr s) 0) w0 s_one
                (s_neg (s_div (s_mul (alpha s) (rho1 s)) (rho0 s))))))
          (r0 s),
        set_uu
          (p_axpby (vec_at (rr s) 0) w0 s_one
             (s_neg (s_div (s_mul (alpha s) (rho1 s)) (rho0 s)))
           :: apply_A A (apply_P P
                (p_axpby (vec_at (rr s) 0) w0 s_one
                   (s_neg (s_div (s_mul (alpha s) (rho1 s)) (rho0 s)))))
           :: ws)
          (set_Pv
             (apply_P P
                (p_axpby (vec_at (rr s) 0) w0 s_one
                   (s_neg (s_div (s_mul (alpha s) (rho1 s)) (rho0 s)))))
             (set_rho0 (rho1 s) s)),
        m).
Proof.
  intros Huu. unfold bicg_direction. run_engine. rewrite Huu. reflexivity.
Qed.

Lemma pass_unfold (n : nat) :
  L = S n -> pass L A b P = (pass_begin ;; pass_from_bicg L A b P (S n) 0).
Proof. intros H. unfold pass. rewrite <- H. reflexivity. Qed.

(** C5, as amended.  Let the first inner product [gamma] be zero, as it is
    when [x0] solves the system exactly and the initial residual
    [b - A x0] is the zero vector.  Then for every degree [L >= 1] and
    every preconditioner the engine asks for no convergence check: after
    [increment(0.25)] the first lookahead step calls
    [stop(-11, "gamma is zero")], [finished()] ends the loop, and the
    finalization decides what is returned: [P^-1 x0] if the monitor then
    says it has converged, otherwise [P^-1 x0] or [P^-1 0], whichever has
    the smaller true residual, its norm being reported with
    [updateResidual]. *)
Theorem exact_initial_guess_breaks_down (fuel : nat) (x0 : Vec) (m : M) :
  L <> 0 ->
  stop_finishes ->
  s_eqb (s_mul (s_neg s_one) s_one) s_zero = false ->
  s_eqb (first_gamma A b P x0) s_zero = true ->
  bicgstabl L (S fuel) A x0 b m P =
    Ok (returned_iterate A b P
          (fst (converged (snd (finished (stop (-11)%Z "gamma is zero"%string
                                            (increment 0.25%float m))))))
          x0 (p_zeros (p_size b)),
        if fst (converged (snd (finished (stop (-11)%Z "gamma is zero"%string
                                            (increment 0.25%float m)))))
        then snd (converged (snd (finished (stop (-11)%Z "gamma is zero"%string
                                              (increment 0.25%float m)))))
        else updateResidual (reported_norm A b P x0 (p_zeros (p_size b)))
               (snd (converged (snd (finished (stop (-11)%Z "gamma is zero"%string
                                                 (increment 0.25%float m))))))).
Proof.
  intros HL Hstop Hone Hgamma.
  apply Nat.neq_0_r in HL. destruct HL as [L' HL].
  rewrite bicgstabl_run. unfold bind at 1.
  destruct (init_run x0 m)
    as (s1 & Hinit & Hrho & Homega & Halpha & Hr0 & Hxx & Hmin & Hrr & Huu & _).
  rewrite Hinit. cbn [while_true]. unfold bind at 1.
  rewrite (pass_unfold L' HL). unfold bind at 1. rewrite pass_begin_run.
  set (s1' := set_rho0 (s_mul (s_neg (omega s1)) (rho0 s1)) s1).
  set (s1'' := set_rho1 (p_dotc (vec_at (rr s1') 0) (r0 s1')) s1').
  assert (Huu' : uu s1'' =
                 p_zeros (p_size b) :: p_zeros (p_size b) :: replicate L' (p_zeros (p_size b))).
  { subst s1'' s1'. cbn. rewrite Huu, HL. reflexivity. }
  pose proof (first_direction s1'' (increment 0.25%float m) _ _ _ Huu') as Hdir.
  assert (Hstep : exists s2,
             bicg_step A b P 0 s1' (increment 0.25%float m) =
               Ok (Brk, s2, stop (-11)%Z "gamma is zero"%string (increment 0.25%float m))
             /\ xx s2 = xx s1 /\ x_min s2 = x_min s1).
  { eexists. split; [ | split].
    - eapply bicg_step_gamma_zero.
      + subst s1'. cbn. rewrite Homega, Hrho. exact Hone.
      + exact Hdir.
      + subst s1'' s1'. cbn. rewrite Hrr, Hr0, Halpha, Homega, Hrho. exact Hgamma.
    - reflexivity.
    - reflexivity. }
  destruct Hstep as (s2 & Hstep & Hxx2 & Hmin2).
  rewrite (pass_from_bicg_breaks L' 0 s1' s2 _ _ Hstep
             (Hstop (-11)%Z "gamma is zero"%string _ eq_refl)).
  cbn. rewrite Hxx2, Hmin2, Hxx, Hmin. reflexivity.
Qed.

(** *** Which [rho0] the breakdown test sees *)

Create HintDb rho.

Local Abbreviation same_rho :=
  (fun s s' : locals V Vec => rho0 s' = rho0 s /\ rho1 s' = rho1 s).
Local Abbreviation keeps_rho := (@respects Empty_set V Vec M same_rho (fun _ => True)).

Lemma same_rho_refl : forall s : locals V Vec, same_rho s s.
Proof. intros s. split; reflexivity. Qed.

Lemma same_rho_trans :
  forall s1 s2 s3 : locals V Vec, same_rho s1 s2 -> same_rho s2 s3 -> same_rho s1 s3.
Proof. intros s1 s2 s3 [H0 H1] [H0' H1']. split; congruence. Qed.

Ltac rho_walk :=
  respects_walk same_rho_refl same_rho_trans;
  try exact I;
  try (split; reflexivity);
  auto with rho.

Lemma stagnation_bicg_keeps_rho : keeps_rho stagnation_bicg.
Proof. unfold stagnation_bicg. rho_walk. Qed.

Lemma checkpoint_bicg_keeps_rho : keeps_rho (checkpoint_bicg A b P).
Proof. unfold checkpoint_bicg. rho_walk. Qed.

Lemma update_min_bicg_keeps_rho : keeps_rho update_min_bicg.
Proof. unfold update_min_bicg. rho_walk. Qed.

#[local] Hint Resolve stagnation_bicg_keeps_rho checkpoint_bicg_keeps_rho
  update_min_bicg_keeps_rho : rho.

Lemma bicg_site_keeps_rho : keeps_rho (bicg_site A b P).
Proof. unfold bicg_site. rho_walk. Qed.

#[local] Hint Resolve bicg_site_keeps_rho : rho.

Lemma bicg_advance_keeps_rho j g : keeps_rho (bicg_advance A b P j g).
Proof. unfold bicg_advance. rho_walk. Qed.

Lemma bicg_direction_rho (j : nat) (s s1 : locals V Vec) (m m1 : M) (g : V) :
  bicg_direction A P j s m = Ok (g, s1, m1) ->
  rho0 s1 = rho1 s /\ rho1 s1 = rho1 s.
Proof.
  unfold bicg_direction.
  change (bind (gets ?f) ?k s m) with (k (f s) s m). cbv beta.
  change (bind (assign ?f) ?k s m) with (k tt (f s) m). cbv beta.
  intros H.
  match type of H with
  | ?c ?t m = Ok _ => assert (Hk : keeps_rho c) by rho_walk; specialize (Hk t m)
  end.
  rewrite H in Hk. exact Hk.
Qed.

Lemma bicg_step_next_rho (j : nat) (s s' : locals V Vec) (m m' : M) :
  bicg_step A b P j s m = Ok (Next, s', m') ->
  rho0 s' = rho1 s' /\ rho1 s' = p_dotc (vec_at (rr s) j) (r0 s).
Proof.
  rewrite bicg_step_run. destruct (s_eqb (rho0 s) s_zero); [discriminate | ].
  intros H. apply bind_ok in H. destruct H as (g & s1 & m1 & Hdir & H).
  apply bicg_direction_rho in Hdir. cbn in Hdir. destruct Hdir as [H0 H1].
  destruct (s_eqb g s_zero); [discriminate | ].
  pose proof (bicg_advance_keeps_rho j g s1 m1) as Hk. rewrite H in Hk.
  destruct Hk as [H0' H1']. split; congruence.
Qed.

(** C10, as amended.  The test [rho0 == 0] alone decides whether a
    lookahead step stops with "rho0 is zero".  When the loop is entered for
    the first time the value tested at [j = 0] is [-(1) * 1], for every
    input, so with scalars for which that product is not zero the
    breakdown is not taken on that step.  After a step that lets the loop
    go on, [rho0] is the [rho1] that step computed, and this is what the
    next step tests; at [j = 0] of a later pass the value tested is the
    product [-omega * rho0] formed at line 93. *)
Theorem rho0_breakdown_reach :
  (forall j s m,
     bicg_step A b P j s m =
       if s_eqb (rho0 s) s_zero
       then Ok (Brk, set_rho1 (p_dotc (vec_at (rr s) j) (r0 s)) s,
                stop (-10)%Z "rho0 is zero"%string m)
       else (gamma_j <- bicg_direction A P j ;;
             if s_eqb gamma_j s_zero then
               tell (stop (-11)%Z "gamma is zero"%string) ;;
               ret Brk
             else bicg_advance A b P j gamma_j)
              (set_rho1 (p_dotc (vec_at (rr s) j) (r0 s)) s) m)
  /\ (forall x0 m,
        exists s1,
          (init A b ;; pass_begin) (initial_locals L b x0) m
            = Ok (tt, s1, increment 0.25%float m)
          /\ rho0 s1 = s_mul (s_neg s_one) s_one
          /\ (s_eqb (s_mul (s_neg s_one) s_one) s_zero = false ->
              bicg_step A b P 0 s1 (increment 0.25%float m) =
                (gamma_j <- bicg_direction A P 0 ;;
                 if s_eqb gamma_j s_zero then
                   tell (stop (-11)%Z "gamma is zero"%string) ;;
                   ret Brk
                 else bicg_advance A b P 0 gamma_j)
                  (set_rho1 (p_dotc (vec_at (rr s1) 0) (r0 s1)) s1)
                  (increment 0.25%float m)))
  /\ (forall j s m s' m',
        bicg_step A b P j s m = Ok (Next, s', m') ->
        rho0 s' = rho1 s' /\ rho1 s' = p_dotc (vec_at (rr s) j) (r0 s))
  /\ (forall s m,
        @pass_begin Empty_set V Vec M SC Mon s m =
          Ok (tt, set_rho0 (s_mul (s_neg (omega s)) (rho0 s)) s, increment 0.25%float m)).
Proof.
  split; [exact bicg_step_run | split; [ | split; [ | exact pass_begin_run]]];
    [ | intros j s m s' m'; apply bicg_step_next_rho].
  intros x0 m.
  destruct (init_run x0 m) as (s1 & Hinit & Hrho & Homega & _).
  exists (set_rho0 (s_mul (s_neg (omega s1)) (rho0 s1)) s1).
  split; [ | split].
  - unfold bind. rewrite Hinit. apply pass_begin_run.
  - cbn. rewrite Homega, Hrho. reflexivity.
  - intros Hone. rewrite bicg_step_run. cbn [rho0 set_rho0].
    rewrite Homega, Hrho, Hone. reflexivity.
Qed.

(** *** The best norm over a run *)

(** C6.  [r_norm_min] starts as the norm of [r0 = b - A x0].  Each of the
    three sites that write it (lines 165-169, 246-250, 291-295) replaces it
    by [r_norm_act] when [r_norm_act < r_norm_min] and leaves it alone
    otherwise.  Hence over a pass of the loop, and over any number of
    passes, its value is only ever replaced by strictly smaller ones, and
    the finalization does not touch it: at the end of a call it is the
    initial norm or was reached from it by strict decreases. *)
Theorem r_norm_min_never_increases :
  (forall (x0 : Vec) (m : M),
     exists s1,
       init A b (initial_locals L b x0) m = Ok (tt, s1, m)
       /\ r_norm_min s1 = p_nrm2 (p_axpby b (apply_A A x0) s_one (s_neg s_one)))
  /\ (forall (s : locals V Vec) (m : M),
        exists s',
          update_min_bicg s m = Ok (tt, s', m)
          /\ update_min_mr s m = Ok (tt, s', m)
          /\ update_min_mr_inner s m = Ok (tt, s', m)
          /\ r_norm_min s' =
               if s_ltb (r_norm_act s) (r_norm_min s) then r_norm_act s else r_norm_min s)
  /\ (forall (s : locals V Vec) (m : M) c s' m',
        pass L A b P s m = Ok (c, s', m') ->
        lowered (r_norm_min s) (r_norm_min s'))
  /\ (forall fuel (s : locals V Vec) (m : M) s' m',
        while_true fuel (pass L A b P) s m = Ok (tt, s', m') ->
        lowered (r_norm_min s) (r_norm_min s'))
  /\ (forall (s : locals V Vec) (m : M) s' m',
        finalize A b P s m = Ok (tt, s', m') ->
        r_norm_min s' = r_norm_min s)
  /\ (forall fuel (x0 : Vec) (m : M) s' m',
        engine L A b P fuel (initial_locals L b x0) m = Ok (tt, s', m') ->
        lowered (p_nrm2 (p_axpby b (apply_A A x0) s_one (s_neg s_one))) (r_norm_min s')).
Proof.
  split; [ | split; [ | split; [ | split; [ | split]]]].
  - intros x0 m. destruct (init_run x0 m) as (s1 & Hinit & H).
    exists s1. split; [exact Hinit | ]. apply H.
  - intros s m. eexists. split; [apply update_min_bicg_run | ].
    split; [apply update_min_bicg_run | ].
    split; [apply update_min_bicg_run | ].
    destruct (s_ltb (r_norm_act s) (r_norm_min s)); reflexivity.
  - intros s m c s' m' H.
    pose proof (pass_lowers L A b P s m) as Hl. rewrite H in Hl. exact Hl.
  - intros fuel s m s' m' H.
    pose proof (loop_lowers L A b P fuel s m) as Hl. rewrite H in Hl. exact Hl.
  - intros s m s' m' H. rewrite finalize_run in H.
    injection H as Hs _. subst s'. reflexivity.
  - intros fuel x0 m s' m' H. unfold engine in H.
    unfold bind at 1 in H. rewrite declare_run in H.
    apply bind_ok in H. destruct H as ([] & s1 & m1 & Hinit & H).
    apply bind_ok in H. destruct H as ([] & s2 & m2 & Hloop & H).
    destruct (init_run x0 m) as (s1' & Hinit' & Hfacts).
    rewrite Hinit' in Hinit. injection Hinit as Hs _. subst s1'.
    destruct Hfacts as (_ & _ & _ & _ & _ & _ & _ & _ & Hmin).
    rewrite <- Hmin.
    pose proof (loop_lowers L A b P fuel s1 m1) as Hl. rewrite Hloop in Hl.
    rewrite finalize_run in H. injection H as Hs _. subst s'. exact Hl.
Qed.

(** *** The three checkpoints in their places *)








End Pure.

(** ** Properties of the entry points *)

(** C8, as amended.  [bicgstabl] throws nothing of its own, breakdown or
    not: whatever the scalar type, the kernels and the monitor, an
    exception that ends a call is one that a call of the operator, of the
    preconditioner, of a vector kernel (the construction of a work array
    included) or of a method of the monitor ended with, passed on as it is;
    this holds in particular for the library's [system_error].  With a monitor whose methods do not throw it is one of
    the operator, the preconditioner or a vector kernel.  With kernels that
    do not throw either, no call of [bicgstabl] ends with an exception:
    failures are reported to the monitor and the call returns. *)
Theorem bicgstabl_throws_nothing_of_its_own
    {E V Vec LinOp Precond M : Type} {SC : Scalar V} :
  (forall (K : Kernels E V Vec LinOp Precond) (Mon : MonitorCalls E V M)
          L fuel A x0 b (m : M) P e,
     bicgstabl L fuel A x0 b m P = Raise e ->
     thrown_by_collaborator A P e \/ thrown_by_monitor e)
  /\ (forall (K : Kernels E V Vec LinOp Precond) (Mon : Monitor V M)
             L fuel A x0 b (m : M) P e,
        bicgstabl (Mon := Mon) L fuel A x0 b m P = Raise e -> thrown_by_collaborator A P e)
  /\ (forall (PK : PureKernels V Vec LinOp Precond) (Mon : Monitor V M)
             L fuel A x0 b (m : M) P e,
        bicgstabl (K := lift_kernels E PK) (Mon := Mon) L fuel A x0 b m P <> Raise e).
Proof.
  assert (Hgen : forall (K : Kernels E V Vec LinOp Precond) (Mon : MonitorCalls E V M)
                        L fuel A x0 b (m : M) P e,
             bicgstabl L fuel A x0 b m P = Raise e ->
             thrown_by_collaborator A P e \/ thrown_by_monitor e).
  { intros K Mon L fuel A x0 b m P e. unfold bicgstabl.
    pose proof (engine_quiet L A b P fuel (initial_locals L b x0) m) as Hq.
    destruct (engine L A b P fuel (initial_locals L b x0) m) as [[[v s] m'] | e' | ];
      [discriminate | | discriminate].
    intros H. injection H as ->. exact Hq. }
  assert (Htotal : forall (K : Kernels E V Vec LinOp Precond) (Mon : Monitor V M)
                          L fuel A x0 b (m : M) P e,
             bicgstabl (Mon := Mon) L fuel A x0 b m P = Raise e ->
             thrown_by_collaborator A P e).
  { intros K Mon L fuel A x0 b m P e H.
    apply Hgen in H. destruct H as [H | H]; [exact H | ].
    destruct H as [w m0 H | rn m0 H | rn m0 H | m0 H | c msg m0 H | m0 H | m0 H | m0 H | rn m0 H];
      discriminate H. }
  split; [exact Hgen | ]. split; [exact Htotal | ].
  intros PK Mon L fuel A x0 b m P e H.
  apply Htotal in H.
  destruct H as [v H | v H | v w a c H | v w a H | v w H | v H | v w H | v w t H | n H];
    discriminate H.
Qed.

(** C9.  [bicgstab1] is [bicgstabl] at degree 1: on the same arguments the
    two calls end alike, with the same [x] and the same monitor; with a
    monitor that records its calls, with the same record. *)
Theorem bicgstab1_is_bicgstabl_1
    {E V Vec LinOp Precond M : Type} {SC : Scalar V}
    {K : Kernels E V Vec LinOp Precond} {Mon : Monitor V M}
    (fuel : nat) (A : LinOp) (x0 b : Vec) (m : M) (P : Precond) :
  bicgstab1 fuel A x0 b m P = bicgstabl 1 fuel A x0 b m P
  /\ bicgstab1 (Mon := logged Mon) fuel A x0 b (m, []) P
     = bicgstabl (Mon := logged Mon) 1 fuel A x0 b (m, []) P.
Proof. split; reflexivity. Qed.

(** ** The engine on concrete data *)

Import Dense Cases.
#[local] Existing Instance float_scalar.
#[local] Existing Instance dense_kernels.
#[local] Existing Instance no_throw.
#[local] Existing Instance recording.
#[local] Existing Instance simple_monitor.

(** The monitor of the examples answers [finished()] with true once it was
    stopped with a failure code, and so does its recording version. *)
Lemma simple_monitor_stop_finishes : stop_finishes (Mon := simple_monitor).
Proof.
  intros c msg m Hc. cbn. destruct c as [ | p | p]; [discriminate Hc | discriminate Hc | reflexivity].
Qed.

Lemma recording_stop_finishes : stop_finishes (Mon := logged simple_monitor).
Proof.
  intros c msg m Hc. cbn. destruct c as [ | p | p]; [discriminate Hc | discriminate Hc | reflexivity].
Qed.


(** C5, against the claim.  The scenario of the specification started at
    its solution [(1,1,1)], identity preconditioner, degree 1: the monitor
    is stopped with "gamma is zero" and does not report convergence; no
    norm is submitted to it for a convergence test. *)
Lemma exact_initial_guess_not_converged :
  solve 1 10 A_diag x_exact b_diag watch identity3
  = Ok (x_exact,
        (with_residual 0 (with_status (-11)%Z "gamma is zero"%string
                            (with_work 0.25 watch)),
         [EIncrement 0.25%float; EStop (-11)%Z "gamma is zero"%string; EFinished true;
          EConverged false; EUpdateResidual 0%float])).
Proof. vm_compute. reflexivity. Qed.


(** C10, against the claim.  The badly scaled system, degree 1: the first
    pass ends normally with [omega], [rho0] and the one [rho1] computed so
    far all nonzero; the product [-omega * rho0] at the start of the second
    pass underflows to zero and the engine stops with "rho0 is zero", the
    [rho1] just computed at line 98 being nonzero as well. *)
Lemma rho0_breakdown_by_underflow :
  match enter 1 b_tiny [0; 0]%float watch_tiny first_pass with
  | Ok (Next, s, m) =>
      PrimFloat.eqb (omega s) 0 = false
      /\ PrimFloat.eqb (rho0 s) 0 = false
      /\ PrimFloat.eqb (rho1 s) 0 = false
      /\ match second_pass_start s m with
         | Ok (Brk, s', m') =>
             PrimFloat.eqb (rho1 s') 0 = false
             /\ snd m' = snd m ++ [EIncrement 0.25%float; EStop (-10)%Z "rho0 is zero"%string]
         | _ => False
         end
  | _ => False
  end.
Proof. vm_compute. repeat split; reflexivity. Qed.

(** *** The theorems applied to concrete runs *)


(** C3 on dense data: a zero [rho0], a zero [gamma] (zero shadow residual)
    and a zero pivot (zero [rr[1]]). *)
Lemma breakdowns_stop_the_solver_witness :
  (exists s',
     pass_from_bicg (Mon := simple_monitor) 1 A_diag b_diag identity3 1 0
       (set_rho0 0%float (fst entered)) watch
     = Ok (Brk, s', with_status (-10)%Z "rho0 is zero"%string watch))
  /\ (exists s',
        pass_from_bicg (Mon := simple_monitor) 1 A_diag b_diag identity3 1 0
          (initial_locals 1 b_diag x_zero) watch
        = Ok (Brk, s', with_status (-11)%Z "gamma is zero"%string watch))
  /\ (exists s',
        pass_from_orth (Mon := simple_monitor) 1 A_diag b_diag identity3 1 1
          (initial_locals 1 b_diag x_zero) watch
        = Ok (Brk, s', with_status (-12)%Z "a sigma value is zero"%string watch)).
Proof.
  destruct (breakdowns_stop_the_solver (PK := dense_kernels) (Mon := simple_monitor)
              1 A_diag b_diag identity3 simple_monitor_stop_finishes)
    as (Hrho & Hgamma & Hsigma).
  split; [ | split].
  - eexists. rewrite (Hrho 0 0 (set_rho0 0%float (fst entered)) watch eq_refl). reflexivity.
  - edestruct (Hgamma 0 0 (initial_locals 1 b_diag x_zero) watch) as [_ H];
      [reflexivity | vm_compute; reflexivity | reflexivity | ].
    eexists. rewrite H. reflexivity.
  - edestruct (Hsigma 0 1 (initial_locals 1 b_diag x_zero) watch) as [_ H];
      [vm_compute; reflexivity | reflexivity | ].
    eexists. rewrite H. reflexivity.
Defined.

(** C5 on the specification scenario started at its solution. *)
Lemma exact_initial_guess_breaks_down_witness :
  bicgstabl (K := no_throw dense_kernels) (Mon := simple_monitor) 1 10 A_diag x_exact b_diag watch
    identity3
  = Ok (x_exact,
        with_residual 0 (with_status (-11)%Z "gamma is zero"%string (with_work 0.25 watch))).
Proof.
  rewrite (exact_initial_guess_breaks_down (PK := dense_kernels) (Mon := simple_monitor)
             1 A_diag b_diag identity3 9 x_exact watch).
  - vm_compute. reflexivity.
  - discriminate.
  - exact simple_monitor_stop_finishes.
  - reflexivity.
  - vm_compute. reflexivity.
Defined.


(** C6 on the first pass of the specification scenario. *)
Lemma r_norm_min_never_increases_witness :
  exists c s' m',
    pass (Mon := simple_monitor) 1 A_diag b_diag identity3 (fst entered) watch
      = Ok (c, s', m')
    /\ lowered (r_norm_min (fst entered)) (r_norm_min s')
    /\ PrimFloat.ltb (r_norm_min s') (r_norm_min (fst entered)) = true.
Proof.
  do 3 eexists. split; [vm_compute; reflexivity | ]. split.
  - eapply (proj1 (proj2 (proj2 (r_norm_min_never_increases (PK := dense_kernels)
                                   (Mon := simple_monitor) 1 A_diag b_diag identity3))))
      with (m := watch).
    vm_compute. reflexivity.
  - vm_compute. reflexivity.
Defined.

(** C10 on the specification scenario: the first lookahead step. *)
Lemma rho0_breakdown_reach_witness :
  exists s1 m1,
    (init A_diag b_diag ;; pass_begin (Mon := simple_monitor)) (initial_locals 1 b_diag x_zero) watch
      = Ok (tt, s1, m1)
    /\ rho0 s1 = (-1)%float
    /\ exists s2 m2,
         bicg_step (Mon := simple_monitor) A_diag b_diag identity3 0 s1 m1 = Ok (Next, s2, m2)
         /\ rho0 s2 = rho1 s2.
Proof.
  destruct (rho0_breakdown_reach (PK := dense_kernels) (Mon := simple_monitor)
              1 A_diag b_diag identity3) as (_ & Hfirst & Hnext & _).
  destruct (Hfirst x_zero watch) as (s1 & Hrun & Hrho & Hstep).
  exists s1, (increment 0.25%float watch).
  split; [exact Hrun | ]. split; [rewrite Hrho; reflexivity | ].
  specialize (Hstep eq_refl).
  vm_compute in Hrun. injection Hrun as Hs. subst s1.
  assert (Hres : exists s2 m2,
             bicg_step (Mon := simple_monitor) A_diag b_diag identity3 0
               (set_rho0 (-1)%float (fst entered)) (increment 0.25%float watch)
             = Ok (Next, s2, m2)).
  { do 2 eexists. vm_compute. reflexivity. }
  destruct Hres as (s2 & m2 & Hres).
  exists s2, m2. split; [exact Hres | ].
  exact (proj1 (Hnext 0 _ _ s2 m2 Hres)).
Defined.

(** The claim C8 as first stated fails for a monitor that throws: started
    at the exact solution, the call reaches the breakdown of line 121, and
    the exception with which the monitor's [stop] answers ends the call;
    no call of the operator, of the preconditioner or of a kernel ended
    with it. *)
Lemma monitor_exception_escapes :
  bicgstabl (K := dense_beside_throwing) (Mon := throwing_monitor)
    1 5 A_diag x_exact b_diag watch identity3 = Raise "gamma is zero"%string
  /\ ~ thrown_by_collaborator (K := dense_beside_throwing) A_diag identity3
        "gamma is zero"%string.
Proof.
  split; [vm_compute; reflexivity | ].
  intros H.
  destruct H as [v H | v H | v w a c H | v w a H | v w H | v H | v w H | v w t H | n H];
    discriminate H.
Qed.

(** C8 with a preconditioner that was not set up: the [system_error] that
    ends the call is the preconditioner's; and with the monitor whose
    [stop] throws: the exception that ends the call is the monitor's. *)
Lemma bicgstabl_throws_nothing_of_its_own_witness :
  thrown_by_collaborator (K := guarded_kernels) A_diag []
    (Exception.SystemError Exception.Illegal_solve "solve before setup"%string)
  /\ (thrown_by_collaborator (K := dense_beside_throwing) A_diag identity3
         "gamma is zero"%string
       \/ thrown_by_monitor (Mon := throwing_monitor) "gamma is zero"%string).
Proof.
  split.
  - apply (proj1 (proj2 (bicgstabl_throws_nothing_of_its_own (SC := float_scalar)))
             guarded_kernels simple_monitor 1 10 A_diag x_zero b_diag watch).
    vm_compute. reflexivity.
  - apply (proj1 (bicgstabl_throws_nothing_of_its_own (SC := float_scalar))
             dense_beside_throwing throwing_monitor 1 5 A_diag x_exact b_diag watch).
    vm_compute. reflexivity.
Defined.

(** ** The shadow residual and the array sizes *)

Create HintDb shape.

Section ShapeKept.
Context {E V Vec LinOp Precond M : Type}.
Context {SC : Scalar V} {K : Kernels E V Vec LinOp Precond} {Mon : MonitorCalls E V M}.
Variable L : nat.
Variable A : LinOp.
Variable b : Vec.
Variable P : Precond.

Local Abbreviation keeps_shape := (@respects E V Vec M same_shape (fun _ => True)).

Lemma same_shape_refl : forall s : locals V Vec, same_shape s s.
Proof. intros s. unfold same_shape. repeat split; reflexivity. Qed.

Lemma same_shape_trans :
  forall s1 s2 s3 : locals V Vec, same_shape s1 s2 -> same_shape s2 s3 -> same_shape s1 s3.
Proof.
  unfold same_shape. intros s1 s2 s3 H12 H23.
  destruct H12 as (? & ? & ? & ? & ? & ? & ? & ?).
  destruct H23 as (? & ? & ? & ? & ? & ? & ? & ?).
  repeat split; congruence.
Qed.

Lemma length_tao_set (i j : nat) (v : V) (t : list (list V)) :
  length (tao_set i j v t) = length t.
Proof. unfold tao_set. apply length_insert. Qed.

Ltac shape_walk :=
  respects_walk same_shape_refl same_shape_trans;
  try exact I;
  try (unfold same_shape; cbn;
       rewrite ?length_insert, ?length_tao_set; repeat split; reflexivity);
  auto with shape.

Lemma stagnation_bicg_shape : keeps_shape stagnation_bicg.
Proof. unfold stagnation_bicg. shape_walk. Qed.

Lemma checkpoint_bicg_shape : keeps_shape (checkpoint_bicg A b P).
Proof. unfold checkpoint_bicg. shape_walk. Qed.

Lemma update_min_bicg_shape : keeps_shape update_min_bicg.
Proof. unfold update_min_bicg. shape_walk. Qed.

Lemma bicg_direction_shape j : keeps_shape (bicg_direction A P j).
Proof. unfold bicg_direction. shape_walk. Qed.

#[local] Hint Resolve stagnation_bicg_shape checkpoint_bicg_shape update_min_bicg_shape
  bicg_direction_shape : shape.

Lemma bicg_site_shape : keeps_shape (bicg_site A b P).
Proof. unfold bicg_site. shape_walk. Qed.

#[local] Hint Resolve bicg_site_shape : shape.

Lemma bicg_advance_shape j g : keeps_shape (bicg_advance A b P j g).
Proof. unfold bicg_advance. shape_walk. Qed.

#[local] Hint Resolve bicg_advance_shape : shape.

Lemma bicg_step_shape j : keeps_shape (bicg_step A b P j).
Proof. unfold bicg_step. shape_walk. Qed.

Lemma mr_pivot_shape j : keeps_shape (mr_pivot j).
Proof. unfold mr_pivot. shape_walk. Qed.

#[local] Hint Resolve bicg_step_shape mr_pivot_shape : shape.

Lemma mr_orth_shape j : keeps_shape (mr_orth j).
Proof. unfold mr_orth. shape_walk. Qed.

Lemma mr_coefficients_shape : keeps_shape (mr_coefficients L).
Proof. unfold mr_coefficients. shape_walk. Qed.

Lemma stagnation_mr_shape : keeps_shape stagnation_mr.
Proof. unfold stagnation_mr. shape_walk. Qed.

Lemma checkpoint_mr_shape : keeps_shape (checkpoint_mr A b P).
Proof. unfold checkpoint_mr. shape_walk. Qed.

Lemma update_min_mr_shape : keeps_shape update_min_mr.
Proof. unfold update_min_mr. shape_walk. Qed.

Lemma stagnation_mr_inner_shape j : keeps_shape (stagnation_mr_inner j).
Proof. unfold stagnation_mr_inner. shape_walk. Qed.

Lemma checkpoint_mr_inner_shape : keeps_shape (checkpoint_mr_inner A b P).
Proof. unfold checkpoint_mr_inner. shape_walk. Qed.

Lemma update_min_mr_inner_shape : keeps_shape update_min_mr_inner.
Proof. unfold update_min_mr_inner. shape_walk. Qed.

#[local] Hint Resolve mr_orth_shape mr_coefficients_shape stagnation_mr_shape
  checkpoint_mr_shape update_min_mr_shape stagnation_mr_inner_shape
  checkpoint_mr_inner_shape update_min_mr_inner_shape : shape.

Lemma mr_inner_site_shape : keeps_shape (mr_inner_site A b P).
Proof. unfold mr_inner_site. shape_walk. Qed.

#[local] Hint Resolve mr_inner_site_shape : shape.

Lemma mr_update_shape j : keeps_shape (mr_update A b P j).
Proof. unfold mr_update. shape_walk. Qed.

Lemma pass_end_shape : keeps_shape pass_end.
Proof. unfold pass_end. shape_walk. Qed.

#[local] Hint Resolve mr_update_shape pass_end_shape : shape.

Lemma mr_site_shape : keeps_shape (mr_site L A b P).
Proof. unfold mr_site. shape_walk. Qed.

#[local] Hint Resolve mr_site_shape : shape.

Lemma pass_mix_shape : keeps_shape (pass_mix L A b P).
Proof. unfold pass_mix. shape_walk. Qed.

#[local] Hint Resolve pass_mix_shape : shape.

Lemma pass_from_orth_shape n j : keeps_shape (pass_from_orth L A b P n j).
Proof. unfold pass_from_orth. shape_walk. Qed.

#[local] Hint Resolve pass_from_orth_shape : shape.

Lemma pass_from_bicg_shape n j : keeps_shape (pass_from_bicg L A b P n j).
Proof. unfold pass_from_bicg. shape_walk. Qed.

Lemma pass_begin_shape : keeps_shape pass_begin.
Proof. unfold pass_begin. shape_walk. Qed.

#[local] Hint Resolve pass_from_bicg_shape pass_begin_shape : shape.

Lemma pass_shape : keeps_shape (pass L A b P).
Proof. unfold pass. shape_walk. Qed.

#[local] Hint Resolve pass_shape : shape.

Lemma loop_shape fuel : keeps_shape (while_true fuel (pass L A b P)).
Proof. shape_walk. Qed.

Lemma finalize_shape : keeps_shape (finalize A b P).
Proof. unfold finalize. shape_walk. Qed.

Lemma bind_run {T U : Type} (c : @Eng E V Vec M T) (k : T -> @Eng E V Vec M U)
    (s : locals V Vec) (m : M) (r : U * locals V Vec * M) :
  bind c k s m = Ok r ->
  exists v s' m', c s m = Ok (v, s', m') /\ k v s' m' = Ok r.
Proof.
  unfold bind. destruct (c s m) as [[[v s'] m'] | e | ]; [ | discriminate | discriminate].
  intros Hk. exists v, s', m'. split; [reflexivity | exact Hk].
Qed.

(** The declarations touch neither the locals nor the monitor. *)
Lemma declare_same (s s' : locals V Vec) (m m' : M) :
  declare L b s m = Ok (tt, s', m') -> s' = s /\ m' = m.
Proof.
  assert (Hexec : forall (f : locals V Vec -> outcome E unit) t (mt : M) t' (mt' : M),
             exec f t mt = Ok (tt, t', mt') -> t' = t /\ mt' = mt).
  { intros f t mt t' mt'. unfold exec.
    destruct (f t) as [[] | e | ]; [ | discriminate | discriminate].
    intros H. injection H as <- <-. split; reflexivity. }
  assert (Hloop : forall n lo (t : locals V Vec) (mt : M) (t' : locals V Vec) (mt' : M),
             for_up n lo
               (fun _ => exec (fun _ => allocate (size b)) ;;
                         exec (fun _ => allocate (size b))) t mt = Ok (tt, t', mt') ->
             t' = t /\ mt' = mt).
  { intros n. induction n as [ | n IH]; intros lo t mt t' mt' H.
    - injection H as <- <-. split; reflexivity.
    - cbn [for_up] in H.
      apply bind_run in H. destruct H as ([] & t1 & m1 & H1 & H).
      apply bind_run in H1. destruct H1 as ([] & t0 & m0 & H0 & H1).
      apply Hexec in H0. apply Hexec in H1. apply IH in H.
      destruct H0 as [-> ->]. destruct H1 as [-> ->]. exact H. }
  unfold declare. intros H.
  repeat (apply bind_run in H;
          let H0 := fresh "H0" in
          destruct H as ([] & ? & ? & H0 & H); apply Hexec in H0; destruct H0 as [-> ->]).
  exact (Hloop _ _ _ _ _ _ H).
Qed.

Lemma initial_locals_sizes (x0 : Vec) : declared_sizes L (initial_locals L b x0).
Proof. unfold declared_sizes. cbn. rewrite !length_replicate. repeat split; reflexivity. Qed.

Lemma init_sizes :
  @respects E V Vec M (fun s s' => declared_sizes L s -> declared_sizes L s') (fun _ => True)
    unit (init A b).
Proof.
  unfold init.
  respects_walk (fun (s : locals V Vec) (H : declared_sizes L s) => H)
                (fun (s1 s2 s3 : locals V Vec)
                     (H12 : declared_sizes L s1 -> declared_sizes L s2)
                     (H23 : declared_sizes L s2 -> declared_sizes L s3)
                     (H : declared_sizes L s1) => H23 (H12 H));
    try exact I;
    unfold declared_sizes; cbn; rewrite ?length_insert; intros H; exact H.
Qed.

Lemma same_shape_sizes (s s' : locals V Vec) :
  same_shape s s' -> declared_sizes L s -> declared_sizes L s'.
Proof.
  unfold same_shape, declared_sizes.
  intros (_ & ? & ? & ? & ? & ? & ? & ?) (? & ? & ? & ? & ? & ? & ?).
  repeat split; congruence.
Qed.

(** X1.  After the initialization nothing writes the shadow residual [r0]
    and no array changes its size: over a pass, over any number of passes
    and over the finalization [r0] and the sizes of [rr], [uu], [tao] and
    the four coefficient arrays stay what they were, also when kernels or
    monitor may throw.  At the end of a call [r0] is the vector the initialization
    computed, [rr], [uu] and [tao] have [L+1] entries and the coefficient
    arrays [L+2]. *)
Theorem shadow_residual_and_sizes_kept :
  (forall (s : locals V Vec) (m : M) c s' m',
     pass L A b P s m = Ok (c, s', m') -> same_shape s s')
  /\ (forall fuel (s : locals V Vec) (m : M) s' m',
        while_true fuel (pass L A b P) s m = Ok (tt, s', m') -> same_shape s s')
  /\ (forall (s : locals V Vec) (m : M) s' m',
        finalize A b P s m = Ok (tt, s', m') -> same_shape s s')
  /\ (forall fuel (x0 : Vec) (m : M) s' m',
        engine L A b P fuel (initial_locals L b x0) m = Ok (tt, s', m') ->
        exists s1 m1,
          init A b (initial_locals L b x0) m = Ok (tt, s1, m1)
          /\ r0 s' = r0 s1
          /\ declared_sizes L s').
Proof.
  split; [ | split; [ | split]].
  - intros s m c s' m' H.
    pose proof (pass_shape s m) as Hk. rewrite H in Hk. exact Hk.
  - intros fuel s m s' m' H.
    pose proof (loop_shape fuel s m) as Hk. rewrite H in Hk. exact Hk.
  - intros s m s' m' H.
    pose proof (finalize_shape s m) as Hk. rewrite H in Hk. exact Hk.
  - intros fuel x0 m s' m' H. unfold engine in H.
    apply bind_run in H. destruct H as ([] & s0 & m0 & Hdecl & H).
    apply declare_same in Hdecl. destruct Hdecl as [-> ->].
    apply bind_run in H. destruct H as ([] & s1 & m1 & Hinit & H).
    apply bind_run in H. destruct H as ([] & s2 & m2 & Hloop & H).
    pose proof (init_sizes (initial_locals L b x0) m) as Hi. rewrite Hinit in Hi.
    pose proof (loop_shape fuel s1 m1) as Hl. rewrite Hloop in Hl.
    pose proof (finalize_shape s2 m2) as Hf. rewrite H in Hf.
    exists s1, m1. split; [exact Hinit | ].
    pose proof (same_shape_trans _ _ _ Hl Hf) as Hlf.
    split; [exact (proj1 Hlf) | ].
    apply (same_shape_sizes s1 s' Hlf). apply Hi. apply initial_locals_sizes.
Qed.

End ShapeKept.

(** ** Composition rules for [respects_monitor] *)

Section RespectsMonitor.
Context {E V Vec M : Type}.
Variable R : M -> M -> Prop.
Hypothesis R_refl : forall m, R m m.
Hypothesis R_trans : forall m1 m2 m3, R m1 m2 -> R m2 m3 -> R m1 m3.
Local Abbreviation Eng := (@Eng E V Vec M).
Local Abbreviation watched := (@respects_monitor E V Vec M R).

Lemma watched_ret {T : Type} (v : T) : watched (ret v).
Proof. intros s m. apply R_refl. Qed.

Lemma watched_bind {T U : Type} (c : Eng T) (k : T -> Eng U) :
  watched c -> (forall v, watched (k v)) -> watched (bind c k).
Proof.
  intros Hc Hk s m. unfold bind.
  specialize (Hc s m).
  destruct (c s m) as [[[v s1] m1] | e | ]; [ | exact I | exact I].
  specialize (Hk v s1 m1).
  destruct (k v s1 m1) as [[[w s2] m2] | e | ]; [ | exact I | exact I].
  eapply R_trans; eassumption.
Qed.

Lemma watched_gets {T : Type} (f : locals V Vec -> T) : watched (gets f).
Proof. intros s m. apply R_refl. Qed.

Lemma watched_assign (f : locals V Vec -> locals V Vec) : watched (assign f).
Proof. intros s m. apply R_refl. Qed.

Lemma watched_exec {T : Type} (f : locals V Vec -> outcome E T) : watched (exec f).
Proof.
  intros s m. unfold exec. destruct (f s) as [v | e | ]; [apply R_refl | exact I | exact I].
Qed.

Lemma watched_tell (f : M -> M) : (forall m, R m (f m)) -> watched (tell f).
Proof. intros Hf s m. apply Hf. Qed.

Lemma watched_ask (f : M -> bool * M) : (forall m, R m (snd (f m))) -> watched (ask f).
Proof. intros Hf s m. apply Hf. Qed.

Lemma watched_call (f : M -> outcome E M) :
  (forall m m', f m = Ok m' -> R m m') -> watched (call f).
Proof.
  intros Hf s m. unfold call.
  destruct (f m) as [m' | e | ] eqn:Hfm; [exact (Hf m m' Hfm) | exact I | exact I].
Qed.

Lemma watched_query (f : M -> outcome E (bool * M)) :
  (forall m a, f m = Ok a -> R m (snd a)) -> watched (query f).
Proof.
  intros Hf s m. unfold query.
  destruct (f m) as [a | e | ] eqn:Hfm; [exact (Hf m a Hfm) | exact I | exact I].
Qed.

Lemma watched_for_up (body : nat -> Eng unit) :
  (forall i, watched (body i)) -> forall n lo, watched (for_up n lo body).
Proof.
  intros Hb n. induction n as [ | n IH]; intros lo; simpl.
  - apply watched_ret.
  - apply watched_bind; [apply Hb | intros _; apply IH].
Qed.

Lemma watched_for_down (body : nat -> Eng unit) :
  (forall i, watched (body i)) -> forall n, watched (for_down n body).
Proof.
  intros Hb n. induction n as [ | n IH]; simpl.
  - apply watched_ret.
  - apply watched_bind; [apply Hb | intros _; apply IH].
Qed.

Lemma watched_for_brk (body : nat -> Eng ctl) :
  (forall j, watched (body j)) -> forall n lo, watched (for_brk n lo body).
Proof.
  intros Hb n. induction n as [ | n IH]; intros lo; simpl.
  - apply watched_ret.
  - apply watched_bind; [apply Hb | intros [ | ]; [apply IH | apply watched_ret]].
Qed.

Lemma watched_while_true (body : Eng ctl) :
  watched body -> forall fuel, watched (while_true fuel body).
Proof.
  intros Hb fuel. induction fuel as [ | fuel IH]; simpl.
  - intros s m. exact I.
  - apply watched_bind; [apply Hb | intros [ | ]; [apply IH | apply watched_ret]].
Qed.

End RespectsMonitor.

(** Decomposes a goal [respects_monitor R c] along the statements of [c];
    what is left are the calls of the monitor. *)
Ltac monitor_walk Hrefl Htrans :=
  repeat lazymatch goal with
  | |- respects_monitor _ (bind _ _) => apply (watched_bind _ Htrans); [ | intros ? ]
  | |- respects_monitor _ (ret _) => apply (watched_ret _ Hrefl)
  | |- respects_monitor _ (gets _) => apply (watched_gets _ Hrefl)
  | |- respects_monitor _ (assign _) => apply (watched_assign _ Hrefl)
  | |- respects_monitor _ (exec _) => apply (watched_exec _ Hrefl)
  | |- respects_monitor _ (tell _) => apply watched_tell; intros ?
  | |- respects_monitor _ (ask _) => apply watched_ask; intros ?
  | |- respects_monitor _ (call _) => apply watched_call; intros ? ? ?
  | |- respects_monitor _ (query _) => apply watched_query; intros ? ? ?
  | |- respects_monitor _ (for_up _ _ _) => apply (watched_for_up _ Hrefl Htrans); intros ?
  | |- respects_monitor _ (for_down _ _) => apply (watched_for_down _ Hrefl Htrans); intros ?
  | |- respects_monitor _ (for_brk _ _ _) => apply (watched_for_brk _ Hrefl Htrans); intros ?
  | |- respects_monitor _ (while_true _ _) => apply (watched_while_true _ Hrefl Htrans)
  | |- respects_monitor _ (if ?c then _ else _) => destruct c
  | |- respects_monitor _ (match ?c with Next => _ | Brk => _ end) => destruct c
  end.

(** Walks for the relations of this part, usable on any piece. *)
Ltac shape_steps :=
  lazymatch goal with
  | |- @respects _ ?V ?Vec _ _ _ _ _ =>
      respects_walk (@same_shape_refl V Vec) (@same_shape_trans V Vec)
  end;
  try exact I;
  try (unfold same_shape; cbn;
       rewrite ?length_insert, ?length_tao_set; repeat split; reflexivity).

Ltac untouched_steps :=
  lazymatch goal with
  | |- @respects_monitor _ _ _ ?M _ _ _ => monitor_walk (@eq_refl M) (@eq_trans M)
  end.

(** ** The monitor protocol of a run *)

(** Takes the first statement off a run that returned. *)
Ltac unbind H :=
  let Hc := fresh "Hc" in
  apply bind_ok in H; destruct H as (? & ? & ? & Hc & H);
  cbv beta delta [gets assign exec tell ask ret] in Hc; cbn in Hc;
  inversion Hc; subst; clear Hc.

Section MonitorProtocol.
Context {V Vec LinOp Precond M : Type}.
Context {SC : Scalar V} {PK : PureKernels V Vec LinOp Precond} {Mon : Monitor V M}.
#[local] Existing Instance no_throw.
#[local] Existing Instance logged.
Variable L : nat.
Variable A : LinOp.
Variable b : Vec.
Variable P : Precond.

Local Abbreviation Rec := (M * list (event V))%type.

(** If the record ends with an accepted norm, it is the true residual norm
    of the current iterate. *)
Local Abbreviation vouched s tr :=
  (forall rn, last tr = Some (EFinishedNorm rn true) ->
              rn = true_residual_norm A b P (xx s)).

(** The record does not end with an accepted norm. *)
Local Abbreviation unaccepted tr :=
  (forall rn : V, last tr <> Some (EFinishedNorm rn true)).

Lemma accepted_norm_last (tr : list (event V)) (rn na : V) :
  accepted rn (tr ++ [EFinishedNorm na true]) -> rn = na.
Proof.
  intros [pre [H | H]].
  - apply app_inj_tail in H. destruct H as [_ H]. injection H as H. symmetry. exact H.
  - change (pre ++ [EFinishedNorm rn true; EFinished true])
      with (pre ++ [EFinishedNorm rn true] ++ [EFinished true]) in H.
    rewrite app_assoc in H. apply app_inj_tail in H. destruct H as [_ H]. discriminate H.
Qed.

Lemma accepted_finished_last (tr : list (event V)) (rn : V) :
  accepted rn (tr ++ [EFinished true]) -> last tr = Some (EFinishedNorm rn true).
Proof.
  intros [pre [H | H]].
  - apply app_inj_tail in H. destruct H as [_ H]. discriminate H.
  - change (pre ++ [EFinishedNorm rn true; EFinished true])
      with (pre ++ [EFinishedNorm rn true] ++ [EFinished true]) in H.
    rewrite app_assoc in H. apply app_inj_tail in H. destruct H as [H _].
    rewrite H. apply last_snoc.
Qed.

Lemma checkpoint_recorded (s s' : locals V Vec) (m m' : Rec) (c : ctl) :
  rr s <> [] ->
  checkpoint_bicg A b P s m = Ok (c, s', m') ->
  rr s' <> [] /\ xx s' = xx s
  /\ exists pre e,
       snd m' = pre ++ [e]
       /\ match c with
          | Brk => e = EFinishedNorm (true_residual_norm A b P (xx s')) true
          | Next => forall rn, e <> EFinishedNorm rn true
          end.
Proof.
  intros Hrr H.
  destruct (fst (needCheckConvergence (r_norm s) m)) eqn:Hneed.
  - rewrite (checkpoint_bicg_checks A b P s m Hrr Hneed) in H.
    injection H as Hc Hs Hm. subst s' m'.
    split; [cbn; destruct (rr s); [congruence | discriminate] | ].
    split; [reflexivity | ].
    cbn in *. do 2 eexists. split; [reflexivity | ]. subst c.
    destruct (fst (finished_norm _ _)).
    + reflexivity.
    + intros rn Hrn. discriminate Hrn.
  - rewrite (checkpoint_bicg_skips A b P s m Hneed) in H.
    injection H as Hc Hs Hm. subst c s' m'.
    split; [exact Hrr | ]. split; [reflexivity | ].
    cbn in *. do 2 eexists. split; [reflexivity | ].
    intros rn Hrn. discriminate Hrn.
Qed.

(** Asking [finished()] on the recording monitor. *)
Lemma ask_finished_recorded {T : Type} (k : bool -> @Eng Empty_set V Vec Rec T)
    (s : locals V Vec) (m : Rec) :
  bind (ask finished) k s m
  = k (fst (finished (fst m))) s
      (snd (finished (fst m)), snd m ++ [EFinished (fst (finished (fst m)))]).
Proof. reflexivity. Qed.

(** Lines 148-173 and 274-299: whatever the outcome, an accepted norm at
    the end of the record is the true residual norm of [xx]. *)
Lemma bicg_site_vouched (s s' : locals V Vec) (m m' : Rec) (c : ctl) :
  rr s <> [] ->
  bicg_site A b P s m = Ok (c, s', m') ->
  rr s' <> [] /\ vouched s' (snd m').
Proof.
  intros Hrr H. unfold bicg_site in H.
  apply bind_ok in H. destruct H as (c1 & s1 & m1 & Hchk & H).
  destruct (checkpoint_recorded s s1 m m1 c1 Hrr Hchk) as (Hrr1 & Hxx & pre & e & Htr & He).
  destruct c1.
  - apply bind_ok in H. destruct H as ([] & s2 & m2 & Hupd & H).
    rewrite update_min_bicg_run in Hupd. injection Hupd as Hs2 Hm2. subst s2 m2.
    rewrite ask_finished_recorded in H.
    destruct (fst (finished (fst m1))); cbv beta delta [ret] in H;
      injection H as Hc Hs Hm; subst c s' m'; cbn [snd];
      (split; [destruct (s_ltb _ _); cbn; exact Hrr1
              | intros rn Hrn; rewrite last_snoc in Hrn; discriminate Hrn]).
  - cbv beta delta [ret] in H. injection H as Hc Hs Hm. subst c s' m'.
    split; [exact Hrr1 | ].
    intros rn Hrn. rewrite Htr, last_snoc, He in Hrn. injection Hrn as Hrn.
    symmetry. exact Hrn.
Qed.

Lemma mr_inner_site_vouched (s s' : locals V Vec) (m m' : Rec) (c : ctl) :
  rr s <> [] ->
  mr_inner_site A b P s m = Ok (c, s', m') ->
  rr s' <> [] /\ vouched s' (snd m').
Proof. exact (bicg_site_vouched s s' m m' c). Qed.

Lemma insert_nonempty {T : Type} (l : list T) (i : nat) (v : T) :
  l <> [] -> <[i := v]> l <> [].
Proof. destruct l as [ | w l]; [congruence | destruct i; discriminate]. Qed.

Lemma same_shape_nonempty (s s' : locals V Vec) :
  same_shape s s' -> rr s <> [] -> rr s' <> [].
Proof.
  intros (_ & Hlen & _) Hrr Hnil. rewrite Hnil in Hlen.
  destruct (rr s); [congruence | discriminate Hlen].
Qed.

(** The site of the BiCG step is reached with [rr] in place. *)
Lemma bicg_advance_reaches_site (j : nat) (g : V) (s : locals V Vec) (m : Rec)
    (r : ctl * locals V Vec * Rec) :
  rr s <> [] ->
  bicg_advance A b P j g s m = Ok r ->
  exists s_c m_c, rr s_c <> [] /\ bicg_site A b P s_c m_c = Ok r.
Proof.
  unfold bicg_advance. intros Hrr H.
  unbind H.
  apply bind_ok in H. destruct H as (? & s1 & m1 & Hloop & H).
  assert (Hrr1 : rr s1 <> []).
  { match type of Hloop with
    | ?c ?t ?mm = Ok _ =>
        assert (Hk : @respects Empty_set V Vec Rec same_shape (fun _ => True) unit c)
          by shape_steps;
        specialize (Hk t mm); rewrite Hloop in Hk;
        exact (same_shape_nonempty t s1 Hk Hrr)
    end. }
  do 7 unbind H.
  apply bind_ok in H. destruct H as (? & s2 & m2 & Hc & H).
  rewrite stagnation_bicg_run in Hc. injection Hc; intros; subst; clear Hc.
  do 2 unbind H.
  refine (ex_intro _ _ (ex_intro _ _ (conj _ H))).
  cbn. apply insert_nonempty. exact Hrr1.
Qed.

Lemma mr_update_reaches_site (j : nat) (s : locals V Vec) (m : Rec)
    (r : ctl * locals V Vec * Rec) :
  rr s <> [] ->
  mr_update A b P j s m = Ok r ->
  exists s_c m_c, rr s_c <> [] /\ mr_inner_site A b P s_c m_c = Ok r.
Proof.
  unfold mr_update. intros Hrr H.
  do 2 unbind H.
  apply bind_ok in H. destruct H as (? & s2 & m2 & Hc & H).
  rewrite stagnation_mr_inner_run in Hc. injection Hc; intros; subst; clear Hc.
  do 7 unbind H.
  refine (ex_intro _ _ (ex_intro _ _ (conj _ H))).
  cbn. apply insert_nonempty. exact Hrr.
Qed.

Lemma pass_mix_reaches_site (s : locals V Vec) (m : Rec) (r : ctl * locals V Vec * Rec) :
  rr s <> [] ->
  pass_mix L A b P s m = Ok r ->
  exists s_c m_c, rr s_c <> [] /\ mr_site L A b P s_c m_c = Ok r.
Proof.
  unfold pass_mix. intros Hrr H.
  apply bind_ok in H. destruct H as (? & s2 & m2 & Hc & H).
  rewrite stagnation_mr_run in Hc. injection Hc; intros; subst; clear Hc.
  do 10 unbind H.
  refine (ex_intro _ _ (ex_intro _ _ (conj _ H))).
  cbn. apply insert_nonempty. exact Hrr.
Qed.

Lemma kept_nonempty {T : Type} (c : @Eng Empty_set V Vec Rec T)
    (s s' : locals V Vec) (m m' : Rec) (v : T) :
  @respects Empty_set V Vec Rec same_shape (fun _ => True) T c ->
  c s m = Ok (v, s', m') -> rr s <> [] -> rr s' <> [].
Proof.
  intros Hk H. specialize (Hk s m). rewrite H in Hk.
  exact (same_shape_nonempty s s' Hk).
Qed.

(** What the record and the iterate look like when the loop is left. *)
Local Abbreviation left_loop s tr :=
  ((exists e, last tr = Some e /\ says_finished e)
   /\ forall rn, accepted rn tr -> rn = true_residual_norm A b P (xx s)).

Lemma left_after_finished (s : locals V Vec) (tr : list (event V)) :
  vouched s tr -> left_loop s (tr ++ [EFinished true]).
Proof.
  intros Hv. split.
  - exists (EFinished true). rewrite last_snoc. split; [reflexivity | left; reflexivity].
  - intros rn Hacc. apply Hv. exact (accepted_finished_last tr rn Hacc).
Qed.

Lemma left_after_norm (s : locals V Vec) (tr : list (event V)) :
  left_loop s (tr ++ [EFinishedNorm (true_residual_norm A b P (xx s)) true]).
Proof.
  split.
  - eexists. rewrite last_snoc. split; [reflexivity | right; eexists; reflexivity].
  - intros rn Hacc. exact (accepted_norm_last tr rn _ Hacc).
Qed.

Lemma vouched_after (s : locals V Vec) (tr : list (event V)) (e : event V) :
  (forall rn, e <> EFinishedNorm rn true) -> vouched s (tr ++ [e]).
Proof.
  intros He rn Hrn. rewrite last_snoc in Hrn. injection Hrn as Hrn.
  destruct (He rn Hrn).
Qed.

(** *** The steps of the three loops *)

Lemma bicg_step_vouched (j : nat) (s s' : locals V Vec) (m m' : Rec) (c : ctl) :
  rr s <> [] ->
  bicg_step A b P j s m = Ok (c, s', m') ->
  vouched s' (snd m').
Proof.
  intros Hrr H. rewrite bicg_step_run in H.
  destruct (s_eqb (rho0 s) s_zero).
  - injection H as Hc Hs Hm. subst c s' m'. cbn [snd stop logged]. refine (vouched_after _ _ _ _). intros rn; discriminate.
  - apply bind_ok in H. destruct H as (g & s1 & m1 & Hdir & H).
    assert (Hrr1 : rr s1 <> []).
    { apply (kept_nonempty _ _ _ _ _ _ (bicg_direction_shape A P j) Hdir). exact Hrr. }
    destruct (s_eqb g s_zero).
    + unbind H. injection H as Hc Hs Hm. subst c s' m'. cbn [snd].
      refine (vouched_after _ _ _ _). intros rn; discriminate.
    + destruct (bicg_advance_reaches_site j g s1 m1 _ Hrr1 H) as (sc & mc & Hrrc & Hsite).
      exact (proj2 (bicg_site_vouched sc s' mc m' c Hrrc Hsite)).
Qed.

Lemma mr_update_vouched (j : nat) (s s' : locals V Vec) (m m' : Rec) (c : ctl) :
  rr s <> [] ->
  mr_update A b P j s m = Ok (c, s', m') ->
  vouched s' (snd m').
Proof.
  intros Hrr H.
  destruct (mr_update_reaches_site j s m _ Hrr H) as (sc & mc & Hrrc & Hsite).
  exact (proj2 (mr_inner_site_vouched sc s' mc m' c Hrrc Hsite)).
Qed.

(** The orthogonalisation leaves the iterate alone and calls the monitor
    only to stop. *)
Lemma mr_pivot_silent (j : nat) (s s' : locals V Vec) (m m' : Rec) :
  mr_pivot (E := Empty_set) j s m = Ok (tt, s', m') ->
  xx s' = xx s /\ m' = m.
Proof.
  intros H. split.
  - assert (Hk : @respects Empty_set V Vec Rec (fun t t' => xx t' = xx t)
                   (fun _ => True) unit (mr_pivot j)).
    { unfold mr_pivot.
      respects_walk (fun t : locals V Vec => @eq_refl _ (xx t))
                    (fun (t1 t2 t3 : locals V Vec) (H12 : xx t2 = xx t1)
                         (H23 : xx t3 = xx t2) => eq_trans H23 H12);
        try exact I; reflexivity. }
    specialize (Hk s m). rewrite H in Hk. exact Hk.
  - assert (Hk : @respects_monitor Empty_set V Vec Rec (fun t t' => t = t') unit
                   (mr_pivot j)).
    { unfold mr_pivot. untouched_steps. }
    specialize (Hk s m). rewrite H in Hk. symmetry. exact Hk.
Qed.

Lemma mr_orth_vouched (j : nat) (s s' : locals V Vec) (m m' : Rec) (c : ctl) :
  vouched s (snd m) ->
  mr_orth (E := Empty_set) j s m = Ok (c, s', m') ->
  vouched s' (snd m').
Proof.
  intros Hv H. unfold mr_orth in H.
  apply bind_ok in H. destruct H as ([] & s1 & m1 & Hpiv & H).
  destruct (mr_pivot_silent j s s1 m m1 Hpiv) as (Hxx & Hm). subst m1.
  unbind H.
  match type of H with context [if ?c then _ else _] => destruct c end.
  - unbind H. injection H as Hc Hs Hm. subst c s' m'. cbn [snd]. refine (vouched_after _ _ _ _). intros rn; discriminate.
  - do 2 unbind H. injection H as Hc Hs Hm. subst c s' m'. cbn. rewrite Hxx. exact Hv.
Qed.

(** A loop whose steps keep the record vouched keeps it vouched. *)
Lemma for_brk_vouched (body : nat -> @Eng Empty_set V Vec Rec ctl) :
  (forall j, @respects Empty_set V Vec Rec same_shape (fun _ => True) ctl (body j)) ->
  (forall j s s' m m' c,
     rr s <> [] -> vouched s (snd m) -> body j s m = Ok (c, s', m') -> vouched s' (snd m')) ->
  forall n lo s s' m m',
    rr s <> [] -> vouched s (snd m) ->
    for_brk n lo body s m = Ok (tt, s', m') ->
    rr s' <> [] /\ vouched s' (snd m').
Proof.
  intros Hshape Hbody n. induction n as [ | n IH]; intros lo s s' m m' Hrr Hv H.
  - cbn in H. injection H as Hs Hm. subst s' m'. split; assumption.
  - cbn [for_brk] in H.
    apply bind_ok in H. destruct H as (c & s1 & m1 & Hstep & H).
    assert (Hrr1 : rr s1 <> []) by exact (kept_nonempty _ _ _ _ _ _ (Hshape lo) Hstep Hrr).
    assert (Hv1 := Hbody lo s s1 m m1 c Hrr Hv Hstep).
    destruct c.
    + exact (IH (S lo) s1 s' m1 m' Hrr1 Hv1 H).
    + injection H as Hs Hm. subst s' m'. split; assumption.
Qed.

(** *** The pass, from its end *)

Lemma pass_end_left (s s' : locals V Vec) (m m' : Rec) :
  vouched s (snd m) ->
  pass_end (E := Empty_set) s m = Ok (Brk, s', m') ->
  left_loop s' (snd m').
Proof.
  intros Hv H. unfold pass_end in H. rewrite ask_finished_recorded in H.
  destruct (fst (finished (fst m))).
  - injection H as Hs Hm. subst s' m'. cbn [snd]. apply left_after_finished. exact Hv.
  - do 5 unbind H. discriminate H.
Qed.

Lemma mr_site_left (s s' : locals V Vec) (m m' : Rec) :
  rr s <> [] ->
  mr_site L A b P s m = Ok (Brk, s', m') ->
  left_loop s' (snd m').
Proof.
  intros Hrr H. unfold mr_site in H.
  apply bind_ok in H. destruct H as (c1 & s1 & m1 & Hchk & H).
  destruct (checkpoint_recorded s s1 m m1 c1 Hrr Hchk) as (Hrr1 & Hxx & pre & e & Htr & He).
  destruct c1.
  - apply bind_ok in H. destruct H as ([] & s2 & m2 & Hupd & H).
    assert (Hrr2 : rr s2 <> [])
      by exact (kept_nonempty _ _ _ _ _ _ update_min_mr_shape Hupd Hrr1).
    change (update_min_mr s1 m1) with (update_min_bicg s1 m1) in Hupd.
    rewrite update_min_bicg_run in Hupd. injection Hupd as Hs2 Hm2. subst m2.
    rewrite ask_finished_recorded in H.
    destruct (fst (finished (fst m1))).
    + injection H as Hs Hm. subst s' m'. cbn [snd].
      apply left_after_finished. rewrite Htr. refine (vouched_after _ _ _ He).
    + unbind H.
      apply bind_ok in H. destruct H as ([] & s3 & m3 & Hloop & H).
      refine (pass_end_left s3 s' m3 m' _ H).
      refine (proj2 (for_brk_vouched (mr_update A b P) (mr_update_shape A b P) _
                       _ _ _ _ _ _ Hrr2 _ Hloop)).
      * intros j t t' mm mm' c Ht _ Hrun. exact (mr_update_vouched j t t' mm mm' c Ht Hrun).
      * cbn [snd increment logged]. refine (vouched_after _ _ _ _). intros rn; discriminate.
  - injection H as Hs Hm. subst s' m'. rewrite Htr, He. apply left_after_norm.
Qed.

Lemma pass_from_orth_left (n j : nat) (s s' : locals V Vec) (m m' : Rec) :
  rr s <> [] -> vouched s (snd m) ->
  pass_from_orth L A b P n j s m = Ok (Brk, s', m') ->
  left_loop s' (snd m').
Proof.
  intros Hrr Hv H. unfold pass_from_orth in H.
  apply bind_ok in H. destruct H as ([] & s1 & m1 & Hloop & H).
  destruct (for_brk_vouched mr_orth mr_orth_shape
              (fun j t t' mm mm' c _ Hvt Hrun => mr_orth_vouched j t t' mm mm' c Hvt Hrun)
              n j s s1 m m1 Hrr Hv Hloop) as (Hrr1 & Hv1).
  rewrite ask_finished_recorded in H.
  destruct (fst (finished (fst m1))).
  - injection H as Hs Hm. subst s' m'. cbn [snd]. apply left_after_finished. exact Hv1.
  - apply bind_ok in H. destruct H as ([] & s2 & m2 & Hco & H).
    assert (Hrr2 : rr s2 <> [])
      by exact (kept_nonempty _ _ _ _ _ _ (mr_coefficients_shape L) Hco Hrr1).
    destruct (pass_mix_reaches_site s2 m2 _ Hrr2 H) as (sc & mc & Hrrc & Hsite).
    exact (mr_site_left sc s' mc m' Hrrc Hsite).
Qed.

Lemma pass_from_bicg_left (n j : nat) (s s' : locals V Vec) (m m' : Rec) :
  rr s <> [] -> vouched s (snd m) ->
  pass_from_bicg L A b P n j s m = Ok (Brk, s', m') ->
  left_loop s' (snd m').
Proof.
  intros Hrr Hv H. unfold pass_from_bicg in H.
  apply bind_ok in H. destruct H as ([] & s1 & m1 & Hloop & H).
  destruct (for_brk_vouched (bicg_step A b P) (bicg_step_shape A b P)
              (fun j t t' mm mm' c Ht _ Hrun => bicg_step_vouched j t t' mm mm' c Ht Hrun)
              n j s s1 m m1 Hrr Hv Hloop) as (Hrr1 & Hv1).
  rewrite ask_finished_recorded in H.
  destruct (fst (finished (fst m1))).
  - injection H as Hs Hm. subst s' m'. cbn [snd]. apply left_after_finished. exact Hv1.
  - refine (pass_from_orth_left L 1 s1 s' _ m' Hrr1 _ H).
    cbn [snd]. refine (vouched_after _ _ _ _). intros rn; discriminate.
Qed.

Lemma pass_left (s s' : locals V Vec) (m m' : Rec) :
  rr s <> [] ->
  pass L A b P s m = Ok (Brk, s', m') ->
  left_loop s' (snd m').
Proof.
  intros Hrr H. unfold pass in H.
  apply bind_ok in H. destruct H as ([] & s1 & m1 & Hbeg & H).
  rewrite pass_begin_run in Hbeg. injection Hbeg as Hs1 Hm1. subst s1 m1.
  refine (pass_from_bicg_left L 0 (set_rho0 _ s) s' _ m' Hrr _ H).
  cbn [snd increment logged]. refine (vouched_after _ _ _ _). intros rn; discriminate.
Qed.

Lemma loop_left (fuel : nat) (s s' : locals V Vec) (m m' : Rec) :
  rr s <> [] ->
  while_true fuel (pass L A b P) s m = Ok (tt, s', m') ->
  left_loop s' (snd m').
Proof.
  revert s m. induction fuel as [ | fuel IH]; intros s m Hrr H; [discriminate H | ].
  cbn [while_true] in H.
  apply bind_ok in H. destruct H as (c & s1 & m1 & Hpass & H).
  destruct c.
  - refine (IH s1 m1 _ H).
    exact (kept_nonempty _ _ _ _ _ _ (pass_shape L A b P) Hpass Hrr).
  - injection H as Hs Hm. subst s' m'. exact (pass_left s s1 m m1 Hrr Hpass).
Qed.

(** What [bicgstabl] returns, with the locals and the record with which
    the loop was left. *)
Lemma bicgstabl_left (fuel : nat) (x0 xr : Vec) (m m' : Rec) :
  bicgstabl L fuel A x0 b m P = Ok (xr, m') ->
  exists (s1 : locals V Vec) (m1 : Rec),
    left_loop s1 (snd m1)
    /\ xr = returned_iterate A b P (fst (converged (fst m1))) (xx s1) (x_min s1)
    /\ snd m' =
         if fst (converged (fst m1))
         then snd m1 ++ [EConverged true]
         else snd m1 ++ [EConverged false;
                         EUpdateResidual (reported_norm A b P (xx s1) (x_min s1))].
Proof.
  intros H. rewrite bicgstabl_run in H.
  destruct (init_run L A b x0 m) as (s0 & Hinit & _ & _ & _ & _ & _ & _ & Hrr & _).
  unfold bind in H. rewrite Hinit in H.
  destruct (while_true fuel (pass L A b P) s0 m) as [[[[] s1] m1] | e | ] eqn:Hloop;
    [ | destruct e | discriminate H].
  exists s1, m1. split.
  - apply (loop_left fuel s0 s1 m m1); [rewrite Hrr; discriminate | exact Hloop].
  - injection H as Hx Hm. subst xr m'. split; [reflexivity | ].
    cbn [fst snd converged logged].
    destruct (fst (converged (fst m1))); cbn [snd updateResidual logged].
    + reflexivity.
    + rewrite <- app_assoc. reflexivity.
Qed.

Lemma residual_of_returned (conv : bool) (v w : Vec) :
  residual_norm A b (returned_iterate A b P conv v w)
  = if conv then true_residual_norm A b P v else reported_norm A b P v w.
Proof.
  unfold returned_iterate, reported_norm. destruct conv; [reflexivity | ].
  destruct (final_is_better A b P v w); reflexivity.
Qed.

(** X2. When [bicgstabl] returns after the monitor accepted a residual norm
    (its [finished(norm)] answered true, at most [finished()] answering
    true came after it) and then answered [converged()] with true, that
    norm is the norm of [b - A x] for the [x] returned: the norm was
    computed from [xx] at a checkpoint, and [x] is [P^-1 xx] for the same
    [xx]. *)
Theorem accepted_norm_is_true_residual (fuel : nat) (x0 xr : Vec) (m m' : Rec)
    (pre : list (event V)) (rn : V) :
  bicgstabl L fuel A x0 b m P = Ok (xr, m') ->
  snd m' = pre ++ [EConverged true] ->
  accepted rn pre ->
  residual_norm A b xr = rn.
Proof.
  intros H Htr Hacc.
  destruct (bicgstabl_left fuel x0 xr m m' H) as (s1 & m1 & (_ & Hleft) & Hx & Hm).
  rewrite Htr in Hm. subst xr. rewrite residual_of_returned.
  destruct (fst (converged (fst m1))).
  - apply app_inj_tail in Hm. destruct Hm as [Hpre _]. subst pre.
    symmetry. exact (Hleft rn Hacc).
  - change (snd m1 ++ [EConverged false; EUpdateResidual (reported_norm A b P (xx s1) (x_min s1))])
      with (snd m1 ++ [EConverged false] ++ [EUpdateResidual (reported_norm A b P (xx s1) (x_min s1))])
      in Hm.
    rewrite app_assoc in Hm. apply app_inj_tail in Hm. destruct Hm as [_ Hm]. discriminate Hm.
Qed.

(** X3. The calls a returning run of [bicgstabl] makes on the monitor end in
    one of two ways.  The loop is left only right after [finished()] or
    [finished(norm)] answered true; [converged()] is asked next; if it
    answers true nothing follows, and if it answers false exactly one
    [updateResidual] follows, with the norm of [b - A x] for the [x]
    returned. *)
Theorem monitor_calls_at_exit (fuel : nat) (x0 xr : Vec) (m m' : Rec) :
  bicgstabl L fuel A x0 b m P = Ok (xr, m') ->
  exists pre e,
    says_finished e
    /\ (snd m' = pre ++ [e; EConverged true]
        \/ snd m' = pre ++ [e; EConverged false; EUpdateResidual (residual_norm A b xr)]).
Proof.
  intros H.
  destruct (bicgstabl_left fuel x0 xr m m' H) as (s1 & m1 & ((e & Hlast & He) & _) & Hx & Hm).
  apply last_Some in Hlast. destruct Hlast as (pre & Hpre).
  exists pre, e. split; [exact He | ].
  rewrite Hm, Hpre. subst xr. rewrite residual_of_returned.
  destruct (fst (converged (fst m1))); rewrite <- app_assoc; [left | right]; reflexivity.
Qed.

End MonitorProtocol.

(** ** The calls on the monitor, whatever the kernels do *)

Section RecordedCalls.
Context {E V Vec LinOp Precond M : Type}.
Context {SC : Scalar V} {K : Kernels E V Vec LinOp Precond} {Mon : Monitor V M}.
#[local] Existing Instance logged.
Variable L : nat.
Variable A : LinOp.
Variable b : Vec.
Variable P : Precond.

Local Abbreviation Rec := (M * list (event V))%type.
Local Abbreviation Eng := (@Eng E V Vec Rec).

(** *** Which stops *)

Lemma stops_known_refl : forall m : Rec, stops_known m m.
Proof. intros m. exists []. split; [symmetry; apply app_nil_r | constructor]. Qed.

Lemma stops_known_trans :
  forall m1 m2 m3 : Rec, stops_known m1 m2 -> stops_known m2 m3 -> stops_known m1 m3.
Proof.
  intros m1 m2 m3 (n1 & H1 & F1) (n2 & H2 & F2). exists (n1 ++ n2). split.
  - rewrite H2, H1. symmetry. apply app_assoc.
  - apply Forall_app. split; assumption.
Qed.

Lemma stops_known_call (m : Rec) (m1 : M) (e : event V) :
  (forall code msg, e = EStop code msg -> In (code, msg) breakdowns) ->
  stops_known m (m1, snd m ++ [e]).
Proof. intros He. exists [e]. split; [reflexivity | constructor; [exact He | constructor]]. Qed.

Ltac known_steps :=
  monitor_walk stops_known_refl stops_known_trans;
  match goal with H : _ = Ok _ |- _ => cbn in H; injection H as <- end;
  cbn; apply stops_known_call; intros code msg Hc;
  first [discriminate Hc | injection Hc as <- <-; cbn; tauto].

Lemma engine_stops_known (fuel : nat) :
  @respects_monitor E V Vec Rec stops_known unit (engine L A b P fuel).
Proof.
  unfold engine, declare, init, pass, pass_begin, pass_from_bicg, pass_from_orth, pass_mix,
    mr_site, pass_end, mr_update, mr_inner_site, mr_orth, mr_pivot, mr_coefficients, bicg_step,
    bicg_advance, bicg_direction, bicg_site, finalize,
    checkpoint_bicg, checkpoint_mr, checkpoint_mr_inner,
    update_min_bicg, update_min_mr, update_min_mr_inner,
    stagnation_bicg, stagnation_mr, stagnation_mr_inner.
  known_steps.
Qed.

(** X4. Every [stop] that a returning call of [bicgstabl] made on the
    monitor carries one of three code and message pairs: -10 with
    "rho0 is zero", -11 with "gamma is zero", -12 with "a sigma value is
    zero"; none of these codes is the code of a [system_error] reason.
    This holds for any kernels, operator and preconditioner. *)
Theorem stops_are_breakdowns (fuel : nat) (x0 xr : Vec) (m m' : Rec) :
  bicgstabl L fuel A x0 b m P = Ok (xr, m') ->
  exists new,
    snd m' = snd m ++ new
    /\ forall code msg,
         In (EStop code msg) new ->
         In (code, msg) breakdowns
         /\ forall r, Exception.reason_code r <> code.
Proof.
  intros H. unfold bicgstabl in H.
  pose proof (engine_stops_known fuel (initial_locals L b x0) m) as Hk.
  destruct (engine L A b P fuel (initial_locals L b x0) m) as [[[[] s1] m1] | e | ];
    [ | discriminate H | discriminate H].
  injection H as _ Hm. subst m1.
  destruct Hk as (new & Hnew & Hall). exists new. split; [exact Hnew | ].
  intros code msg Hin.
  rewrite List.Forall_forall in Hall. specialize (Hall _ Hin code msg eq_refl).
  split; [exact Hall | ].
  intros r Hr. cbn in Hall.
  destruct Hall as [Hp | [Hp | [Hp | []]]]; injection Hp as Hc _; subst code;
    destruct r; discriminate Hr.
Qed.

(** *** How much work *)

Lemma same_work_refl : forall m : Rec, same_work m m.
Proof. intros m. reflexivity. Qed.

Lemma same_work_trans :
  forall m1 m2 m3 : Rec, same_work m1 m2 -> same_work m2 m3 -> same_work m1 m3.
Proof. unfold same_work. intros m1 m2 m3 H12 H23. congruence. Qed.

Lemma work_calls_app (tr tr' : list (event V)) :
  work_calls (tr ++ tr') = work_calls tr ++ work_calls tr'.
Proof. apply flat_map_app. Qed.

Ltac silent_steps :=
  monitor_walk same_work_refl same_work_trans;
  match goal with H : _ = Ok _ |- _ => cbn in H; injection H as <- end;
  unfold same_work; cbn [snd fst increment needCheckConvergence finished_norm finished stop
    incrementStag resetStag converged updateResidual logged];
  rewrite work_calls_app; apply app_nil_r.

Local Abbreviation silent := (@respects_monitor E V Vec Rec same_work).
Local Abbreviation adds := (@adds_work E V Vec M).

Lemma adds_silent_then {T U : Type} (Q : U -> nat -> Prop) (c : Eng T) (k : T -> Eng U) :
  silent c -> (forall v, adds Q (k v)) -> adds Q (bind c k).
Proof.
  intros Hc Hk s m. unfold bind. specialize (Hc s m).
  destruct (c s m) as [[[v s1] m1] | e | ]; [ | exact I | exact I].
  specialize (Hk v s1 m1).
  destruct (k v s1 m1) as [[[w s2] m2] | e | ]; [ | exact I | exact I].
  destruct Hk as (n & Hn & HQ). exists n. split; [ | exact HQ].
  rewrite Hn. unfold same_work in Hc. rewrite Hc. reflexivity.
Qed.

Lemma adds_silent {T : Type} (c : Eng T) : silent c -> adds (fun _ k => k = 0) c.
Proof.
  intros Hc s m. specialize (Hc s m).
  destruct (c s m) as [[[v s1] m1] | e | ]; [ | exact I | exact I].
  exists 0. split; [ | reflexivity]. rewrite Hc. symmetry. apply app_nil_r.
Qed.

Lemma adds_increment_then {U : Type} (Q : U -> nat -> Prop) (k : unit -> Eng U) :
  adds (fun w n => Q w (S n)) (k tt) ->
  adds Q (bind (tell (increment 0.25%float)) k).
Proof.
  intros Hk s m. unfold bind, tell.
  specialize (Hk s (increment 0.25%float m)).
  destruct (k tt s (increment 0.25%float m)) as [[[w s2] m2] | e | ]; [ | exact I | exact I].
  destruct Hk as (n & Hn & HQ). exists (S n). split; [ | exact HQ].
  rewrite Hn. cbn [snd increment logged]. rewrite work_calls_app.
  rewrite <- app_assoc. reflexivity.
Qed.

Lemma adds_ret {T : Type} (Q : T -> nat -> Prop) (v : T) : Q v 0 -> adds Q (ret v).
Proof. intros HQ s m. exists 0. split; [symmetry; apply app_nil_r | exact HQ]. Qed.

Lemma adds_bind {T U : Type} (Q1 : T -> nat -> Prop) (Q2 : U -> nat -> Prop)
    (c : Eng T) (k : T -> Eng U) :
  adds Q1 c ->
  (forall v j, Q1 v j -> adds (fun w n => Q2 w (j + n)) (k v)) ->
  adds Q2 (bind c k).
Proof.
  intros Hc Hk s m. unfold bind. specialize (Hc s m).
  destruct (c s m) as [[[v s1] m1] | e | ]; [ | exact I | exact I].
  destruct Hc as (j & Hj & HQ1).
  specialize (Hk v j HQ1 s1 m1).
  destruct (k v s1 m1) as [[[w s2] m2] | e | ]; [ | exact I | exact I].
  destruct Hk as (n & Hn & HQ). exists (j + n). split; [ | exact HQ].
  rewrite Hn, Hj, replicate_add. symmetry. apply app_assoc.
Qed.

Lemma adds_conseq {T : Type} (Q Q' : T -> nat -> Prop) (c : Eng T) :
  adds Q c -> (forall v k, Q v k -> Q' v k) -> adds Q' c.
Proof.
  intros Hc HQ s m. specialize (Hc s m).
  destruct (c s m) as [[[v s1] m1] | e | ]; [ | exact I | exact I].
  destruct Hc as (k & Hk & Hv). exists k. split; [exact Hk | exact (HQ v k Hv)].
Qed.

Lemma bicg_loop_silent n j : silent (for_brk n j (bicg_step A b P)).
Proof.
  unfold bicg_step, bicg_advance, bicg_direction, bicg_site, checkpoint_bicg,
    update_min_bicg, stagnation_bicg.
  silent_steps.
Qed.

Lemma mr_orth_loop_silent n j : silent (for_brk n j mr_orth).
Proof. unfold mr_orth, mr_pivot. silent_steps. Qed.

Lemma mr_update_loop_silent n j : silent (for_brk n j (mr_update A b P)).
Proof.
  unfold mr_update, mr_inner_site, checkpoint_mr_inner, update_min_mr_inner,
    stagnation_mr_inner.
  silent_steps.
Qed.

Lemma mr_coefficients_silent : silent (mr_coefficients L).
Proof. unfold mr_coefficients. silent_steps. Qed.

Lemma declare_silent : silent (declare L b).
Proof. unfold declare. silent_steps. Qed.

Lemma init_silent : silent (init A b).
Proof. unfold init. silent_steps. Qed.

Lemma finalize_silent : silent (finalize A b P).
Proof. unfold finalize. silent_steps. Qed.

Ltac silent_prefix :=
  repeat (apply adds_silent_then; [solve [silent_steps] | intros ?]).

Lemma pass_end_work :
  adds (fun c k => match c with Next => k = 1 | Brk => k = 0 end) pass_end.
Proof.
  unfold pass_end. silent_prefix.
  match goal with |- adds _ (if ?c then _ else _) => destruct c end.
  - apply adds_ret. reflexivity.
  - silent_prefix. apply adds_increment_then. apply adds_ret. reflexivity.
Qed.

Lemma mr_site_work :
  adds (fun c k => match c with Next => k = 2 | Brk => k <= 1 end) (mr_site L A b P).
Proof.
  unfold mr_site.
  apply adds_silent_then; [unfold checkpoint_mr; silent_steps | intros c].
  destruct c; [ | apply adds_ret; auto].
  apply adds_silent_then; [unfold update_min_mr; silent_steps | intros _].
  silent_prefix.
  match goal with |- adds _ (if ?c then _ else _) => destruct c end.
  - apply adds_ret. auto.
  - apply adds_increment_then.
    apply adds_silent_then; [apply mr_update_loop_silent | intros _].
    apply (adds_conseq _ _ _ pass_end_work).
    intros [ | ] k Hk; lia.
Qed.

Lemma pass_mix_work :
  adds (fun c k => match c with Next => k = 3 | Brk => 1 <= k <= 2 end)
    (pass_mix L A b P).
Proof.
  unfold pass_mix.
  apply adds_silent_then; [unfold stagnation_mr; silent_steps | intros _].
  silent_prefix. apply adds_increment_then.
  apply (adds_conseq _ _ _ mr_site_work).
  intros [ | ] k Hk; lia.
Qed.

Lemma pass_from_orth_work n j :
  adds (fun c k => match c with Next => k = 3 | Brk => k <= 2 end)
    (pass_from_orth L A b P n j).
Proof.
  unfold pass_from_orth.
  apply adds_silent_then; [apply mr_orth_loop_silent | intros _].
  silent_prefix.
  match goal with |- adds _ (if ?c then _ else _) => destruct c end.
  - apply adds_ret. auto.
  - apply adds_silent_then; [apply mr_coefficients_silent | intros _].
    apply (adds_conseq _ _ _ pass_mix_work).
    intros [ | ] k Hk; [exact Hk | exact (proj2 Hk)].
Qed.

Lemma pass_from_bicg_work n j :
  adds (fun c k => match c with Next => k = 3 | Brk => k <= 2 end)
    (pass_from_bicg L A b P n j).
Proof.
  unfold pass_from_bicg.
  apply adds_silent_then; [apply bicg_loop_silent | intros _].
  silent_prefix.
  match goal with |- adds _ (if ?c then _ else _) => destruct c end.
  - apply adds_ret. auto.
  - apply pass_from_orth_work.
Qed.

Lemma pass_begin_work : adds (fun _ k => k = 1) pass_begin.
Proof.
  unfold pass_begin. silent_prefix.
  intros s m. exists 1. split; [ | reflexivity].
  cbn [tell snd increment logged]. apply work_calls_app.
Qed.

Lemma pass_work :
  adds (fun c k => match c with Next => k = 4 | Brk => 1 <= k <= 3 end) (pass L A b P).
Proof.
  unfold pass. apply (adds_bind _ _ _ _ pass_begin_work). intros _ j Hj. subst j.
  apply (adds_conseq _ _ _ (pass_from_bicg_work L 0)).
  intros [ | ] k Hk; lia.
Qed.

Lemma loop_work (fuel : nat) :
  adds (fun _ k => exists n j, n < fuel /\ 1 <= j <= 3 /\ k = 4 * n + j)
    (while_true fuel (pass L A b P)).
Proof.
  induction fuel as [ | fuel IH]; [intros s m; exact I | ].
  cbn [while_true]. apply (adds_bind _ _ _ _ pass_work).
  intros [ | ] j Hj.
  - subst j. apply (adds_conseq _ _ _ IH).
    intros _ k (n & i & Hn & Hi & Hk). exists (S n), i.
    split; [lia | split; [exact Hi | lia]].
  - apply adds_ret. exists 0, j.
    split; [lia | split; [exact Hj | lia]].
Qed.

(** X5. Work is recorded in quarters of a pass: a pass of the loop that
    completes has called [increment(0.25)] four times, at lines 95, 227,
    256 and 313, and the pass that leaves the loop between one and three
    times; nothing else calls [increment].  So a returning call of
    [bicgstabl] that made [n] complete passes has called it [4 n + j]
    times with [j] from 1 to 3, each time with 0.25, whatever the
    kernels. *)
Theorem work_is_counted_in_quarters :
  (forall (s s' : locals V Vec) (m m' : Rec) (c : ctl),
     pass L A b P s m = Ok (c, s', m') ->
     exists k,
       work_calls (snd m') = work_calls (snd m) ++ replicate k 0.25%float
       /\ match c with Next => k = 4 | Brk => 1 <= k <= 3 end)
  /\ (forall (fuel : nat) (x0 xr : Vec) (m m' : Rec),
        bicgstabl L fuel A x0 b m P = Ok (xr, m') ->
        exists n j,
          n < fuel /\ 1 <= j <= 3
          /\ work_calls (snd m') = work_calls (snd m) ++ replicate (4 * n + j) 0.25%float).
Proof.
  split.
  - intros s s' m m' c H. pose proof (pass_work s m) as Hk. rewrite H in Hk. exact Hk.
  - intros fuel x0 xr m m' H. unfold bicgstabl in H.
    assert (Hk : adds (fun _ k => exists n j, n < fuel /\ 1 <= j <= 3 /\ k = 4 * n + j)
                   (engine L A b P fuel)).
    { unfold engine.
      apply adds_silent_then; [apply declare_silent | intros _].
      apply adds_silent_then; [apply init_silent | intros _].
      apply (adds_bind _ _ _ _ (loop_work fuel)). intros _ k Hk.
      apply (adds_conseq _ _ _ (adds_silent _ finalize_silent)).
      intros _ j Hj. subst j. rewrite Nat.add_0_r. exact Hk. }
    specialize (Hk (initial_locals L b x0) m).
    destruct (engine L A b P fuel (initial_locals L b x0) m) as [[[[] s1] m1] | e | ];
      [ | discriminate H | discriminate H].
    injection H as _ Hm. subst m1.
    destruct Hk as (k & Hw & n & j & Hn & Hj & Hk). subst k.
    exists n, j. split; [exact Hn | split; [exact Hj | exact Hw]].
Qed.

End RecordedCalls.

(** ** Where the caller's vectors are written *)

Section Outputs.
Context {E V Vec LinOp Precond M : Type}.
Context {SC : Scalar V} {K : Kernels E V Vec LinOp Precond} {Mon : MonitorCalls E V M}.
Variable L : nat.
Variable A : LinOp.
Variable b : Vec.
Variable P : Precond.

Local Abbreviation Eng := (@Eng E V Vec M).
Local Abbreviation keeps := (@respects E V Vec M outputs_kept (fun _ => True)).

(** At the end of a pass that completes, lines 309-311 copy [uu[0]], [xx]
    and [rr[0]] into [u], [x] and [r]; a pass that leaves the loop does
    not touch the three. *)
Local Abbreviation published := (fun (c : ctl) (s s' : locals V Vec) =>
  match c with
  | Next => zip_copy (vec_at (uu s') 0) (xx s') (vec_at (rr s') 0) = Ok (u s', x s', r s')
  | Brk => outputs_kept s s'
  end).

Lemma outputs_kept_refl : forall s : locals V Vec, outputs_kept s s.
Proof. intros s. repeat split. Qed.

Lemma outputs_kept_trans :
  forall s1 s2 s3 : locals V Vec, outputs_kept s1 s2 -> outputs_kept s2 s3 -> outputs_kept s1 s3.
Proof.
  unfold outputs_kept. intros s1 s2 s3 (? & ? & ?) (? & ? & ?). repeat split; congruence.
Qed.

Ltac kept_steps :=
  respects_walk outputs_kept_refl outputs_kept_trans;
  try exact I;
  try (unfold outputs_kept; cbn; repeat split; reflexivity).

Lemma leaves_kept_then {T : Type} (c : Eng T) (k : T -> Eng ctl) :
  keeps c -> (forall v, leaves published (k v)) -> leaves published (bind c k).
Proof.
  intros Hc Hk s m. unfold bind. specialize (Hc s m).
  destruct (c s m) as [[[v s1] m1] | e | ]; [ | exact I | exact I].
  specialize (Hk v s1 m1).
  destruct (k v s1 m1) as [[[[ | ] s2] m2] | e | ]; [exact Hk | | exact I | exact I].
  exact (outputs_kept_trans s s1 s2 Hc Hk).
Qed.

Lemma leaves_ret_brk : leaves published (ret (E := E) (M := M) Brk).
Proof. intros s m. apply outputs_kept_refl. Qed.

Ltac kept_prefix :=
  repeat (apply leaves_kept_then; [solve [kept_steps] | intros ?]).

Lemma pass_end_publishes : leaves published (pass_end (K := K)).
Proof.
  unfold pass_end. kept_prefix.
  match goal with |- leaves _ (if ?c then _ else _) => destruct c end;
    [apply leaves_ret_brk | ].
  intros s m. unfold bind, exec.
  destruct (zip_copy (vec_at (uu s) 0) (xx s) (vec_at (rr s) 0)) as [[[a c] d] | e | ] eqn:Hzip;
    [ | exact I | exact I].
  cbn. unfold call.
  destruct (monitor_increment 0.25%float m) as [m' | e | ]; [exact Hzip | exact I | exact I].
Qed.

Lemma mr_site_publishes : leaves published (mr_site L A b P).
Proof.
  unfold mr_site.
  apply leaves_kept_then; [unfold checkpoint_mr; kept_steps | intros c].
  destruct c; [ | apply leaves_ret_brk].
  apply leaves_kept_then; [unfold update_min_mr; kept_steps | intros _].
  kept_prefix.
  match goal with |- leaves _ (if ?c then _ else _) => destruct c end;
    [apply leaves_ret_brk | ].
  kept_prefix.
  apply leaves_kept_then; [ | intros _; apply pass_end_publishes].
  unfold mr_update, mr_inner_site, checkpoint_mr_inner, update_min_mr_inner,
    stagnation_mr_inner.
  kept_steps.
Qed.

Lemma pass_publishes : leaves published (pass L A b P).
Proof.
  unfold pass.
  apply leaves_kept_then; [unfold pass_begin; kept_steps | intros _].
  unfold pass_from_bicg.
  apply leaves_kept_then; [ | intros _].
  { unfold bicg_step, bicg_advance, bicg_direction, bicg_site, checkpoint_bicg,
      update_min_bicg, stagnation_bicg.
    kept_steps. }
  kept_prefix.
  match goal with |- leaves _ (if ?c then _ else _) => destruct c end;
    [apply leaves_ret_brk | ].
  unfold pass_from_orth.
  apply leaves_kept_then; [unfold mr_orth, mr_pivot; kept_steps | intros _].
  kept_prefix.
  match goal with |- leaves _ (if ?c then _ else _) => destruct c end;
    [apply leaves_ret_brk | ].
  apply leaves_kept_then; [unfold mr_coefficients; kept_steps | intros _].
  unfold pass_mix.
  apply leaves_kept_then; [unfold stagnation_mr; kept_steps | intros _].
  kept_prefix.
  apply mr_site_publishes.
Qed.

(** X6. The caller's [x] (and the work vectors [u], [r]) are written by the
    loop at one place only: a pass that completes ends by copying [uu[0]],
    [xx] and [rr[0]] into [u], [x] and [r] (lines 309-311), so that [x]
    then holds [xx] as it is, without [P^-1] applied; a pass that leaves
    the loop, at whichever of its [break]s, leaves the three as they were
    when it began. *)
Theorem pass_publishes_iterate_only_at_its_end
    (s s' : locals V Vec) (m m' : M) (c : ctl) :
  pass L A b P s m = Ok (c, s', m') ->
  match c with
  | Next => zip_copy (vec_at (uu s') 0) (xx s') (vec_at (rr s') 0) = Ok (u s', x s', r s')
  | Brk => outputs_kept s s'
  end.
Proof.
  intros H. pose proof (pass_publishes s m) as Hk. rewrite H in Hk. exact Hk.
Qed.

End Outputs.

(** ** The coefficients of the minimal-residual polynomial, lines 197-210 *)

Section CoefficientLoops.
Context {E V Vec M : Type} {SC : Scalar V}.
Variable L : nat.

Local Abbreviation Eng := (@Eng E V Vec M).

Lemma val_at_insert_eq (l : list V) (i : nat) (v : V) :
  i < length l -> val_at (<[i := v]> l) i = v.
Proof. intros Hi. unfold val_at. rewrite list_lookup_insert_eq; [reflexivity | exact Hi]. Qed.

Lemma val_at_insert_ne (l : list V) (i j : nat) (v : V) :
  i <> j -> val_at (<[i := v]> l) j = val_at l j.
Proof. intros Hij. unfold val_at. rewrite list_lookup_insert_ne; [reflexivity | exact Hij]. Qed.

Lemma insert_val_at (l : list V) (i : nat) : i < length l -> <[i := val_at l i]> l = l.
Proof.
  intros Hi. apply list_insert_id. unfold val_at.
  destruct (lookup_lt_is_Some_2 l i Hi) as [v Hv]. rewrite Hv. reflexivity.
Qed.

Lemma set_gamma_same (s : locals V Vec) : set_gamma (gamma s) s = s.
Proof. destruct s. reflexivity. Qed.

Lemma set_gamma_primeprime_same (s : locals V Vec) :
  set_gamma_primeprime (gamma_primeprime s) s = s.
Proof. destruct s. reflexivity. Qed.

Lemma fold_left_agree {T : Type} (f g : T -> nat -> T) (l : list nat) :
  (forall a i, In i l -> f a i = g a i) ->
  forall a, fold_left f l a = fold_left g l a.
Proof.
  induction l as [ | i l IH]; intros Hfg a; [reflexivity | ].
  cbn. rewrite (Hfg a i (or_introl eq_refl)).
  apply IH. intros a' i' Hi'. apply Hfg. right. exact Hi'.
Qed.

(** The loop at lines 202-203, for one [j]. *)
Lemma sub_loop_run (j n lo : nat) (s : locals V Vec) (m : M) :
  j < length (gamma s) -> j < lo ->
  for_up (E := E) n lo (fun i =>
      assign (fun s => set_gamma
        (<[j := s_sub (val_at (gamma s) j)
                      (s_mul (tao_at (tao s) j i) (val_at (gamma s) i))]> (gamma s)) s)) s m
  = Ok (tt,
        set_gamma
          (<[j := fold_left (fun acc i => s_sub acc (s_mul (tao_at (tao s) j i)
                                                           (val_at (gamma s) i)))
                    (seq lo n) (val_at (gamma s) j)]> (gamma s)) s,
        m).
Proof.
  revert lo s. induction n as [ | n IH]; intros lo s Hj Hlo.
  - cbn. rewrite (insert_val_at _ _ Hj), set_gamma_same. reflexivity.
  - cbn [for_up seq fold_left]. unfold bind at 1. unfold assign at 1.
    rewrite IH; [ | cbn; rewrite length_insert; exact Hj | lia].
    cbn [gamma tao set_gamma].
    rewrite (val_at_insert_eq _ _ _ Hj), list_insert_insert_eq.
    refine (f_equal (fun v => Ok (tt, set_gamma (<[j := v]> (gamma s)) s, m)) _).
    apply fold_left_agree. intros a i Hi. apply in_seq in Hi.
    rewrite val_at_insert_ne; [reflexivity | lia].
Qed.

(** The loop at lines 200-204. *)
Lemma back_loop_run (n : nat) (s : locals V Vec) (m : M) :
  n < length (gamma s) ->
  exists g,
    for_down (E := E) n (fun j =>
        assign (fun s => set_gamma (<[j := val_at (gamma_prime s) j]> (gamma s)) s) ;;
        for_up (L - j) (S j) (fun i =>
          assign (fun s => set_gamma
            (<[j := s_sub (val_at (gamma s) j)
                          (s_mul (tao_at (tao s) j i) (val_at (gamma s) i))]> (gamma s)) s)))%eng
      s m
    = Ok (tt, set_gamma g s, m)
    /\ length g = length (gamma s)
    /\ (forall i, n < i -> val_at g i = val_at (gamma s) i)
    /\ (forall j, 1 <= j <= n ->
          val_at g j = back_substituted L j (tao s) (gamma_prime s) g).
Proof.
  revert s. induction n as [ | n IH]; intros s Hn.
  - exists (gamma s). cbn. rewrite set_gamma_same.
    split; [reflexivity | ]. split; [reflexivity | ].
    split; [intros; reflexivity | intros; lia].
  - cbn [for_down]. unfold bind at 1 2. unfold assign at 1.
    rewrite sub_loop_run; [ | cbn; rewrite length_insert; exact Hn | lia].
    cbn [gamma tao set_gamma].
    rewrite (val_at_insert_eq _ _ _ Hn), list_insert_insert_eq.
    match goal with
    | |- context [for_down n _ ?s1 m] =>
        destruct (IH s1) as (g & Hrun & Hlen & Hup & Hlow);
          [cbn; rewrite length_insert; lia | ]
    end.
    cbn [gamma tao gamma_prime set_gamma] in Hrun, Hlen, Hup, Hlow.
    rewrite length_insert in Hlen.
    exists g. split; [exact Hrun | ]. split; [exact Hlen | ]. split.
    + intros i Hi. rewrite (Hup i) by lia. apply val_at_insert_ne. lia.
    + intros j Hj. destruct (Nat.eq_dec j (S n)) as [-> | Hne]; [ | apply Hlow; lia].
      rewrite (Hup (S n)) by lia. rewrite (val_at_insert_eq _ _ _ Hn).
      unfold back_substituted. apply fold_left_agree.
      intros a i Hi. apply in_seq in Hi.
      rewrite (Hup i) by lia.
      rewrite !val_at_insert_ne by lia. reflexivity.
Qed.

(** The loop at lines 208-209, for one [j]. *)
Lemma add_loop_run (j n lo : nat) (s : locals V Vec) (m : M) :
  j < length (gamma_primeprime s) ->
  for_up (E := E) n lo (fun i =>
      assign (fun s => set_gamma_primeprime
        (<[j := s_add (val_at (gamma_primeprime s) j)
                      (s_mul (tao_at (tao s) j i) (val_at (gamma s) (S i)))]>
           (gamma_primeprime s)) s)) s m
  = Ok (tt,
        set_gamma_primeprime
          (<[j := fold_left (fun acc i => s_add acc (s_mul (tao_at (tao s) j i)
                                                           (val_at (gamma s) (S i))))
                    (seq lo n) (val_at (gamma_primeprime s) j)]> (gamma_primeprime s)) s,
        m).
Proof.
  revert lo s. induction n as [ | n IH]; intros lo s Hj.
  - cbn. rewrite (insert_val_at _ _ Hj), set_gamma_primeprime_same. reflexivity.
  - cbn [for_up seq fold_left]. unfold bind at 1. unfold assign at 1.
    rewrite IH; [ | cbn; rewrite length_insert; exact Hj].
    cbn [gamma tao gamma_primeprime set_gamma_primeprime].
    rewrite (val_at_insert_eq _ _ _ Hj), list_insert_insert_eq. reflexivity.
Qed.

(** The loop at lines 206-210. *)
Lemma shift_loop_run (n lo : nat) (s : locals V Vec) (m : M) :
  lo + n <= length (gamma_primeprime s) ->
  exists q,
    for_up (E := E) n lo (fun j =>
        assign (fun s => set_gamma_primeprime
                  (<[j := val_at (gamma s) (S j)]> (gamma_primeprime s)) s) ;;
        for_up (L - S j) (S j) (fun i =>
          assign (fun s => set_gamma_primeprime
            (<[j := s_add (val_at (gamma_primeprime s) j)
                          (s_mul (tao_at (tao s) j i) (val_at (gamma s) (S i)))]>
               (gamma_primeprime s)) s)))%eng
      s m
    = Ok (tt, set_gamma_primeprime q s, m)
    /\ length q = length (gamma_primeprime s)
    /\ (forall j, lo <= j < lo + n -> val_at q j = shifted_sum L j (tao s) (gamma s))
    /\ (forall j, j < lo -> val_at q j = val_at (gamma_primeprime s) j).
Proof.
  revert lo s. induction n as [ | n IH]; intros lo s Hn.
  - exists (gamma_primeprime s). cbn. rewrite set_gamma_primeprime_same.
    split; [reflexivity | ]. split; [reflexivity | ].
    split; [intros; lia | intros; reflexivity].
  - assert (Hlo : lo < length (gamma_primeprime s)) by lia.
    cbn [for_up]. unfold bind at 1 2. unfold assign at 1.
    rewrite add_loop_run; [ | cbn; rewrite length_insert; exact Hlo].
    cbn [gamma tao gamma_primeprime set_gamma_primeprime].
    rewrite (val_at_insert_eq _ _ _ Hlo), list_insert_insert_eq.
    match goal with
    | |- context [for_up n (S lo) _ ?s1 m] =>
        destruct (IH (S lo) s1) as (q & Hrun & Hlen & Hnew & Hold);
          [cbn; rewrite length_insert; lia | ]
    end.
    cbn [gamma tao gamma_primeprime set_gamma_primeprime] in Hrun, Hlen, Hnew, Hold.
    rewrite length_insert in Hlen.
    exists q. split; [exact Hrun | ]. split; [exact Hlen | ]. split.
    + intros j Hj. destruct (Nat.eq_dec j lo) as [-> | Hne]; [ | apply Hnew; lia].
      rewrite (Hold lo) by lia. rewrite (val_at_insert_eq _ _ _ Hlo). reflexivity.
    + intros j Hj. rewrite (Hold j) by lia. apply val_at_insert_ne. lia.
Qed.

(** X7. With the coefficient arrays as declared, lines 197-210 always
    complete, call nothing, and leave: [omega = gamma'[L]]; in [gamma[j]],
    for [j] from 1 to [L], the value
    [gamma'[j] - tao[j][j+1] gamma[j+1] - ... - tao[j][L] gamma[L]] over the
    final [gamma], which is the back substitution of the triangular system
    with the coefficients [tao]; in [gamma''[j]], for [j] from 1 to [L-1],
    [gamma[j+1] + tao[j][j+1] gamma[j+2] + ... + tao[j][L-1] gamma[L]].
    Nothing but [gamma], [omega] and [gamma''] is written. *)
Theorem mr_coefficients_back_substitute (s : locals V Vec) (m : M) :
  L < length (gamma s) ->
  L < length (gamma_primeprime s) ->
  exists g q,
    mr_coefficients (E := E) L s m
      = Ok (tt, set_gamma_primeprime q (set_gamma g (set_omega (val_at (gamma_prime s) L) s)), m)
    /\ length g = length (gamma s)
    /\ length q = length (gamma_primeprime s)
    /\ (forall j, 1 <= j <= L -> val_at g j = back_substituted L j (tao s) (gamma_prime s) g)
    /\ (forall j, 1 <= j < L -> val_at q j = shifted_sum L j (tao s) g).
Proof.
  intros Hg Hq. unfold mr_coefficients.
  unfold bind at 1 2. unfold assign at 1 2.
  cbn [gamma set_gamma].
  rewrite (val_at_insert_eq _ _ _ Hg).
  match goal with
  | |- context [bind (for_down _ _) _ ?s1 m] =>
      destruct (back_loop_run (L - 1) s1 m) as (g & Hrun & Hlen & Hup & Hlow);
        [cbn; rewrite length_insert; lia | ]
  end.
  cbn [gamma tao gamma_prime set_gamma set_omega] in Hrun, Hlen, Hup, Hlow.
  rewrite length_insert in Hlen.
  unfold bind at 1. rewrite Hrun.
  match goal with
  | |- context [for_up _ _ _ ?s2 m] =>
      destruct (shift_loop_run (L - 1) 1 s2 m) as (q & Hrun2 & Hlen2 & Hnew & _);
        [cbn; lia | ]
  end.
  cbn [gamma tao gamma_primeprime set_gamma set_omega] in Hrun2, Hlen2, Hnew.
  exists g, q. split; [rewrite Hrun2; reflexivity | ].
  split; [exact Hlen | ]. split; [exact Hlen2 | ]. split.
  - intros j Hj. destruct (Nat.eq_dec j L) as [-> | Hne]; [ | apply Hlow; lia].
    rewrite (Hup L) by lia. rewrite (val_at_insert_eq _ _ _ Hg).
    unfold back_substituted. rewrite Nat.sub_diag. reflexivity.
  - intros j Hj. apply Hnew. lia.
Qed.

End CoefficientLoops.

(** ** The further properties on dense data *)

Import Runs.

(** X1 on the specification scenario: a whole call, degree 1. *)
Lemma shadow_residual_and_sizes_kept_witness :
  exists s' m',
    engine (Mon := simple_monitor) 1 A_diag b_diag identity3 5
      (initial_locals 1 b_diag x_zero) watch = Ok (tt, s', m')
    /\ exists s1 m1,
         init A_diag b_diag (initial_locals 1 b_diag x_zero) watch = Ok (tt, s1, m1)
         /\ r0 s' = r0 s1
         /\ declared_sizes 1 s'.
Proof.
  do 2 eexists. split; [vm_compute; reflexivity | ].
  eapply (proj2 (proj2 (proj2 (shadow_residual_and_sizes_kept (K := no_throw dense_kernels)
                                 (Mon := simple_monitor) 1 A_diag b_diag identity3))))
    with (fuel := 5).
  vm_compute. reflexivity.
Defined.

(** X2 on the converging run: the accepted norm is the residual norm of
    what is returned. *)
Lemma accepted_norm_is_true_residual_witness :
  exists xr m',
    converging_run = Ok (xr, m')
    /\ residual_norm A_diag b_diag xr = 2.2204460492503131e-16%float.
Proof.
  do 2 eexists. split; [vm_compute; reflexivity | ].
  eapply (accepted_norm_is_true_residual (PK := dense_kernels) (Mon := simple_monitor)
            2 A_diag b_diag identity3 5 x_zero)
    with (m := (watch, [])) (pre := converging_record).
  - vm_compute. reflexivity.
  - vm_compute. reflexivity.
  - exists (removelast (removelast converging_record)). right. vm_compute. reflexivity.
Defined.

(** X3 on the run that ends at a breakdown. *)
Lemma monitor_calls_at_exit_witness :
  exists xr m',
    breaking_run = Ok (xr, m')
    /\ exists pre e,
         says_finished e
         /\ (snd m' = pre ++ [e; EConverged true]
             \/ snd m' = pre ++ [e; EConverged false;
                                 EUpdateResidual (residual_norm A_diag b_diag xr)]).
Proof.
  do 2 eexists. split; [vm_compute; reflexivity | ].
  eapply (monitor_calls_at_exit (PK := dense_kernels) (Mon := simple_monitor)
            1 A_diag b_diag P_half 5 x_guess)
    with (m := (watch, [])).
  vm_compute. reflexivity.
Defined.

(** X4 on the same run, with kernels that may throw. *)
Lemma stops_are_breakdowns_witness :
  exists xr m',
    guarded_run = Ok (xr, m')
    /\ exists new,
         snd m' = [] ++ new
         /\ forall code msg,
              In (EStop code msg) new ->
              In (code, msg) breakdowns
              /\ forall r, Exception.reason_code r <> code.
Proof.
  do 2 eexists. split; [vm_compute; reflexivity | ].
  eapply (stops_are_breakdowns (K := guarded_kernels) (Mon := simple_monitor)
            1 A_diag b_diag P_half 5 x_guess)
    with (m := (watch, [])).
  vm_compute. reflexivity.
Defined.

(** X5 on the same run: one complete pass, and one call in the pass that
    left the loop. *)
Lemma work_is_counted_in_quarters_witness :
  exists xr m',
    guarded_run = Ok (xr, m')
    /\ exists n j,
         n < 5 /\ 1 <= j <= 3
         /\ work_calls (snd m') = work_calls (@nil (event float)) ++ replicate (4 * n + j) 0.25%float.
Proof.
  do 2 eexists. split; [vm_compute; reflexivity | ].
  eapply (proj2 (work_is_counted_in_quarters (K := guarded_kernels) (Mon := simple_monitor)
                   1 A_diag b_diag P_half))
    with (m := (watch, [])) (x0 := x_guess).
  vm_compute. reflexivity.
Defined.

(** X6 on the first pass of the specification scenario, which completes. *)
Lemma pass_publishes_iterate_only_at_its_end_witness :
  exists s' m',
    pass (Mon := simple_monitor) 1 A_diag b_diag identity3 (fst entered) watch
      = Ok (Next, s', m')
    /\ zip_copy (vec_at (uu s') 0) (xx s') (vec_at (rr s') 0) = Ok (u s', x s', r s').
Proof.
  do 2 eexists. split; [vm_compute; reflexivity | ].
  eapply (pass_publishes_iterate_only_at_its_end (K := no_throw dense_kernels)
            (Mon := simple_monitor) 1 A_diag b_diag identity3 (fst entered) _ watch _ Next).
  vm_compute. reflexivity.
Defined.

(** X7 on the locals as declared for degree 2. *)
Lemma mr_coefficients_back_substitute_witness :
  exists g q,
    mr_coefficients (E := Empty_set) 2 (initial_locals 2 b_diag x_zero) watch
      = Ok (tt,
            set_gamma_primeprime q
              (set_gamma g
                 (set_omega (val_at (gamma_prime (initial_locals 2 b_diag x_zero)) 2)
                    (initial_locals 2 b_diag x_zero))),
            watch)
    /\ length g = length (gamma (initial_locals 2 b_diag x_zero))
    /\ length q = length (gamma_primeprime (initial_locals 2 b_diag x_zero))
    /\ (forall j, 1 <= j <= 2 ->
          val_at g j = back_substituted 2 j (tao (initial_locals 2 b_diag x_zero))
                         (gamma_prime (initial_locals 2 b_diag x_zero)) g)
    /\ (forall j, 1 <= j < 2 ->
          val_at q j = shifted_sum 2 j (tao (initial_locals 2 b_diag x_zero)) g).
Proof.
  apply (mr_coefficients_back_substitute (E := Empty_set) 2
           (initial_locals 2 b_diag x_zero) watch).
  - vm_compute. lia.
  - vm_compute. lia.
Defined.
